(** * ppmtrans: blocked 2D arrays, method suites and image transforms

    A shallow embedding of [uarray2b.c], [a2plain.c] and [ppmtrans.c],
    and the properties of the blocked storage engine, the plain method
    suite and the transform engine.

    Conventions of the embedding.
    - A C [int] is a [Z] that is kept in the range of [int].  The
      product [blocksize * blocksize] of [cell_init], which leaves that
      range for a blocksize above 46340, wraps around modulo 2^32
      ([int_wrap]); the other [int] computations of the blocked array
      stay in range on every grid whose block capacity is an [int]
      ([UArray2b_int_range]).  [/] and [%] on [int] are [Z.quot] and
      [Z.rem] (truncation towards zero).
    - A failed Hanson [assert] and [exit] end the run: functions that
      can do so return in the error monad [res].
    - A call through a null function pointer, a write through a pointer
      that was never assigned and an access outside an array are
      undefined behaviour: C gives the rest of such a run no meaning.
      The model marks the point ([Null_Deref], [Uninit_Deref],
      [Wild_Deref]) and follows the run no further; the mark says that
      the run reached the undefined operation, and nothing about what a
      machine does from there on.
    - Arrays are values.  A pointer to an element is the position of the
      element inside the array that owns it; reading [*p] and writing
      [*p = v] are the [deref] and [assign] functions of the array.
    - Allocation always succeeds. *)

From Stdlib Require Import Reals Lra.
From stdpp Require Import base numbers list list_numbers strings sorting.

Open Scope Z_scope.

(** ** Outcomes of a run *)

Inductive error : Type :=
  | Assert_Failed                       (* Hanson assert(e) with e false *)
  | Null_Deref       (* undefined: use of a NULL pointer *)
  | Uninit_Deref     (* undefined: use of a pointer never assigned *)
  | Wild_Deref       (* undefined: use of a pointer outside its array *)
  | Div_By_Zero                         (* integer division by zero *)
  | Out_Of_Fuel                         (* a loop of the model cut short *)
  | Exit (code : Z) (stderr : string).  (* exit(code) after printing stderr *)

Inductive res (A : Type) : Type :=
  | Ok (a : A)
  | Err (e : error).
Arguments Ok {A} a.
Arguments Err {A} e.

Definition res_bind {A B} (f : A → res B) (x : res A) : res B :=
  match x with
  | Ok a => f a
  | Err e => Err e
  end.

#[global] Instance res_mbind : MBind res := @res_bind.
#[global] Instance res_mret : MRet res := @Ok.
#[global] Instance res_fmap : FMap res :=
  λ A B f x, res_bind (λ a, Ok (f a)) x.

(** [assert(e)] *)
Definition assert (e : bool) : res unit :=
  if e then Ok tt else Err Assert_Failed.

(** [for (int i = 0; i < n; i++) body], the body not assigning [i]. *)
Fixpoint foldM {A S} (f : S → A → res S) (l : list A) (s : S) : res S :=
  match l with
  | [] => Ok s
  | x :: l => s' ← f s x; foldM f l s'
  end.

Definition for_upto {S} (n : Z) (body : Z → S → res S) (s : S) : res S :=
  foldM (λ s i, body i s) (seqZ 0 n) s.

(** The all-zero bytes of a freshly allocated element ([CALLOC]). *)
Class Zero (E : Type) := zero : E.
#[global] Instance option_zero {A} : Zero (option A) := None.
#[global] Instance Z_zero : Zero Z := 0.

(** ** The fixed-capacity buffer [UArray_T] *)

(** Modelled from the spec: Hanson's [UArray_T] is not part of the
    sources; it is the fixed-capacity buffer of homogeneous elements of
    a fixed size, zero-filled when allocated, with index-checked
    access. *)
Record UArray_T (E : Type) := UArray_Make {
  UArray_length : Z;
  UArray_size : Z;
  UArray_elems : list E
}.
Arguments UArray_Make {E}.
Arguments UArray_length {E}.
Arguments UArray_size {E}.
Arguments UArray_elems {E}.

Section UArray.
Context {E : Type} `{Zero E}.

(** Modelled from the spec: [UArray_new], which checks its arguments
    and gives a zero-filled buffer of [length] elements. *)
Definition UArray_new (length size : Z) : res (UArray_T E) :=
  _ ← assert (0 <=? length);
  _ ← assert (0 <? size);
  Ok (UArray_Make length size (replicate (Z.to_nat length) zero)).

(** Modelled from the spec: [UArray_at], the index-checked access; the
    pointer to element [i] is [i]. *)
Definition UArray_at (uarray : UArray_T E) (i : Z) : res Z :=
  _ ← assert ((0 <=? i) && (i <? UArray_length uarray));
  Ok i.

(** [*p] and [*p = v] for a pointer [p] into the buffer. *)
Definition UArray_deref (uarray : UArray_T E) (p : Z) : res E :=
  if (0 <=? p) && (p <? UArray_length uarray) then
    match UArray_elems uarray !! Z.to_nat p with
    | Some v => Ok v
    | None => Err Wild_Deref
    end
  else Err Wild_Deref.

Definition UArray_assign (uarray : UArray_T E) (p : Z) (v : E)
    : res (UArray_T E) :=
  if (0 <=? p) && (p <? UArray_length uarray) then
    Ok (UArray_Make (UArray_length uarray) (UArray_size uarray)
                    (<[Z.to_nat p := v]> (UArray_elems uarray)))
  else Err Wild_Deref.
End UArray.

(** ** The plain 2D array [UArray2_T] *)

(** Modelled from the spec: [uarray2.c] is not part of the sources; it
    is the flat array with row-major storage and plain index
    arithmetic, exposing new, width, height, size, at and the row-major
    and column-major traversals, with positive dimensions and element
    size and index-checked access. *)
Record UArray2_T (E : Type) := UArray2_Make {
  UArray2_width : Z;
  UArray2_height : Z;
  UArray2_size : Z;
  UArray2_elems : UArray_T E
}.
Arguments UArray2_Make {E}.
Arguments UArray2_width {E}.
Arguments UArray2_height {E}.
Arguments UArray2_size {E}.
Arguments UArray2_elems {E}.

(** The callbacks of the traversals: called with the coordinates, the
    array, the pointer to the element and the closure. *)
Definition UArray2_applyfun (E S : Type) : Type :=
  Z → Z → UArray2_T E → Z → S → res (UArray2_T E * S).

Section UArray2.
Context {E : Type} `{Zero E}.

(** Modelled from the spec: [UArray2_new], which refuses a dimension
    or an element size that is not positive. *)
Definition UArray2_new (width height size : Z) : res (UArray2_T E) :=
  _ ← assert ((0 <? width) && (0 <? height) && (0 <? size));
  elems ← UArray_new (width * height) size;
  Ok (UArray2_Make width height size elems).

(** Modelled from the spec: [UArray2_at], index-checked, the element of
    (col, row) at place [row * width + col] of the flat buffer. *)
Definition UArray2_at (uarray2 : UArray2_T E) (col row : Z) : res Z :=
  _ ← assert ((0 <=? col) && (col <? UArray2_width uarray2)
              && (0 <=? row) && (row <? UArray2_height uarray2));
  UArray_at (UArray2_elems uarray2) (row * UArray2_width uarray2 + col).

(** [*p] and [*p = v] for a pointer [p] into the array. *)
Definition UArray2_deref (uarray2 : UArray2_T E) (p : Z) : res E :=
  UArray_deref (UArray2_elems uarray2) p.

Definition UArray2_assign (uarray2 : UArray2_T E) (p : Z) (v : E)
    : res (UArray2_T E) :=
  elems ← UArray_assign (UArray2_elems uarray2) p v;
  Ok (UArray2_Make (UArray2_width uarray2) (UArray2_height uarray2)
                   (UArray2_size uarray2) elems).

(** One call of a traversal: [apply(col, row, a, UArray2_at(a, col,
    row), cl)], on the array and the closure as they are by then. *)
Definition UArray2_visit {S} (apply : UArray2_applyfun E S) (col row : Z)
    (st : UArray2_T E * S) : res (UArray2_T E * S) :=
  elem ← UArray2_at st.1 col row;
  apply col row st.1 elem st.2.

(** Modelled from the spec: [UArray2_map_row_major] and
    [UArray2_map_col_major], one call per coordinate, rows outermost and
    columns outermost. *)
Definition UArray2_map_row_major {S} (uarray2 : UArray2_T E)
    (apply : UArray2_applyfun E S) (cl : S) : res (UArray2_T E * S) :=
  for_upto (UArray2_height uarray2) (λ row,
    for_upto (UArray2_width uarray2) (λ col,
      UArray2_visit apply col row)) (uarray2, cl).

Definition UArray2_map_col_major {S} (uarray2 : UArray2_T E)
    (apply : UArray2_applyfun E S) (cl : S) : res (UArray2_T E * S) :=
  for_upto (UArray2_width uarray2) (λ col,
    for_upto (UArray2_height uarray2) (λ row,
      UArray2_visit apply col row)) (uarray2, cl).
End UArray2.

(** ** The blocked 2D array [UArray2b_T] ([uarray2b.c]) *)

(** [(int)ceil((double)a / (double)b)] for [int] operands.  Both
    operands convert to [double] exactly, the quotient is rounded
    correctly, and a quotient of two 32-bit integers that is not an
    integer lies further from every integer than the rounding error, so
    the value is the ceiling of the exact quotient. *)
Definition ceil_div (a b : Z) : Z := - ((- a) `div` b).

(** [sqrt(n) > w] for [int] operands with [0 <= n].  [sqrt] of a
    [double] is rounded correctly, so for 32-bit operands the comparison
    holds exactly when the real square root of [n] exceeds [w]
    ([sqrt_gt_real]). *)
Definition sqrt_gt (n w : Z) : bool := (w <? 0) || (w * w <? n).

(** [(int)sqrt(n)] for an [int] operand with [0 <= n]: the integer part
    of the real square root ([int_sqrt_real]). *)
Definition int_sqrt (n : Z) : Z := Z.sqrt n.

(** The [int] that a computation on [int]s leaves when its exact value
    is [v]: the value itself when it is in the range of [int], and the
    value modulo 2^32 in that range when it is not. *)
Definition int_wrap (v : Z) : Z := (v + 2 ^ 31) `mod` 2 ^ 32 - 2 ^ 31.

(** [a / b] on [int]. *)
Definition c_div (a b : Z) : res Z :=
  if b =? 0 then Err Div_By_Zero else Ok (a `quot` b).

(** A Hanson function handed a NULL handle fails its first assert. *)
Definition handle {A} (p : option A) : res A :=
  match p with
  | Some a => Ok a
  | None => Err Assert_Failed
  end.

(** [struct UArray2b_T]; the metadata functions [UArray2b_width],
    [UArray2b_height], [UArray2b_size] and [UArray2b_blocksize] are its
    projections. *)
Record UArray2b_T (E : Type) := UArray2b_Make {
  UArray2b_width : Z;
  UArray2b_height : Z;
  UArray2b_size : Z;
  UArray2b_blocksize : Z;
  UArray2b_blocks : UArray2_T (option (UArray_T E))
}.
Arguments UArray2b_Make {E}.
Arguments UArray2b_width {E}.
Arguments UArray2b_height {E}.
Arguments UArray2b_size {E}.
Arguments UArray2b_blocksize {E}.
Arguments UArray2b_blocks {E}.

(** A pointer to an element: the pointer to its block's cell in the
    block grid and the pointer to the element in that block. *)
Definition UArray2b_ptr : Type := Z * Z.

Definition UArray2b_applyfun (E S : Type) : Type :=
  Z → Z → UArray2b_T E → UArray2b_ptr → S → res (UArray2b_T E * S).

(** [sizeof(UArray_T)] *)
Definition sizeof_UArray_T : Z := 8.

Section UArray2b.
Context {E : Type} `{Zero E}.

(** [cell_init]; the length [blocksize * blocksize] is a product of
    [int]s.  Its closing [assert(buff != NULL)] holds of every pointer
    that the traversal passes. *)
Definition cell_init (col row : Z)
    (uarray2 : UArray2_T (option (UArray_T E))) (elem : Z)
    (cl : UArray2b_T E)
    : res (UArray2_T (option (UArray_T E)) * UArray2b_T E) :=
  let uarray2b := cl in
  let buff := elem in
  let blocksize := UArray2b_blocksize uarray2b in
  let size := UArray2b_size uarray2b in
  block ← UArray_new (int_wrap (blocksize * blocksize)) size;
  uarray2 ← UArray2_assign uarray2 buff (Some block);
  Ok (uarray2, cl).

Definition blocks_init (uarray2b : UArray2b_T E) : res (UArray2b_T E) :=
  let blocks_h :=
    ceil_div (UArray2b_height uarray2b) (UArray2b_blocksize uarray2b) in
  let blocks_w :=
    ceil_div (UArray2b_width uarray2b) (UArray2b_blocksize uarray2b) in
  blocks ← UArray2_new blocks_w blocks_h sizeof_UArray_T;
  let uarray2b :=
    UArray2b_Make (UArray2b_width uarray2b) (UArray2b_height uarray2b)
      (UArray2b_size uarray2b) (UArray2b_blocksize uarray2b) blocks in
  '(blocks, _) ← UArray2_map_row_major blocks cell_init uarray2b;
  Ok (UArray2b_Make (UArray2b_width uarray2b) (UArray2b_height uarray2b)
        (UArray2b_size uarray2b) (UArray2b_blocksize uarray2b) blocks).

(** [UArray2b_init]; the handle's block grid is unset on entry. *)
Definition UArray2b_init (width height size blocksize : Z)
    : res (UArray2b_T E) :=
  _ ← assert ((0 <? width) && (0 <? height) && (0 <? size)
              && (0 <? blocksize));
  _ ← assert ((blocksize <=? width) && (blocksize <=? height));
  blocks_init
    (UArray2b_Make width height size blocksize
       (UArray2_Make 0 0 0 (UArray_Make 0 0 []))).

Definition UArray2b_new (width height size blocksize : Z)
    : res (UArray2b_T E) :=
  UArray2b_init width height size blocksize.

Definition UArray2b_new_64K_block (width height size : Z)
    : res (UArray2b_T E) :=
  num_cells ← c_div 64000 size;
  let blocksize :=
    if num_cells <? 1 then 1
    else if sqrt_gt num_cells width || sqrt_gt num_cells height then
      if height <? width then height else width
    else int_sqrt num_cells in
  UArray2b_init width height size blocksize.

Definition UArray2b_at (uarray2b : UArray2b_T E) (col row : Z)
    : res UArray2b_ptr :=
  _ ← assert ((col <? UArray2b_width uarray2b)
              && (row <? UArray2b_height uarray2b));
  let blocks := UArray2b_blocks uarray2b in
  let blocksize := UArray2b_blocksize uarray2b in
  curr_block ← UArray2_at blocks (col `quot` blocksize)
                                 (row `quot` blocksize);
  block ← UArray2_deref blocks curr_block;
  block ← handle block;
  p ← UArray_at block
        (blocksize * (row `rem` blocksize) + col `rem` blocksize);
  Ok (curr_block, p).

(** [*p] and [*p = v] for a pointer [p] that [UArray2b_at] gave. *)
Definition UArray2b_deref (uarray2b : UArray2b_T E) (p : UArray2b_ptr)
    : res E :=
  block ← UArray2_deref (UArray2b_blocks uarray2b) p.1;
  block ← handle block;
  UArray_deref block p.2.

Definition UArray2b_assign (uarray2b : UArray2b_T E) (p : UArray2b_ptr)
    (v : E) : res (UArray2b_T E) :=
  block ← UArray2_deref (UArray2b_blocks uarray2b) p.1;
  block ← handle block;
  block ← UArray_assign block p.2 v;
  blocks ← UArray2_assign (UArray2b_blocks uarray2b) p.1 (Some block);
  Ok (UArray2b_Make (UArray2b_width uarray2b) (UArray2b_height uarray2b)
        (UArray2b_size uarray2b) (UArray2b_blocksize uarray2b) blocks).

(** One call of the traversal: [apply(cell_col, cell_row, uarray2b,
    UArray2b_at(uarray2b, cell_col, cell_row), cl)], on the array and
    the closure as they are by then. *)
Definition UArray2b_visit {S} (apply : UArray2b_applyfun E S)
    (cell_col cell_row : Z) (st : UArray2b_T E * S)
    : res (UArray2b_T E * S) :=
  elem ← UArray2b_at st.1 cell_col cell_row;
  apply cell_col cell_row st.1 elem st.2.

(** The extent of block number [blk] of [n_blk] along a dimension of
    [extent] cells: [blk_h] and [blk_w] of [UArray2b_map]. *)
Definition blk_extent (blk n_blk extent blocksize : Z) : Z :=
  if (blk =? n_blk - 1) && negb (extent `rem` blocksize =? 0)
  then extent `rem` blocksize
  else blocksize.

Definition UArray2b_map {S} (uarray2b : UArray2b_T E)
    (apply : UArray2b_applyfun E S) (cl : S) : res (UArray2b_T E * S) :=
  let uarray2 := UArray2b_blocks uarray2b in
  let blocksize := UArray2b_blocksize uarray2b in
  let height := UArray2b_height uarray2b in
  let width := UArray2b_width uarray2b in
  let uarray2_w := UArray2_width uarray2 in
  let uarray2_h := UArray2_height uarray2 in
  for_upto uarray2_h (λ blk_row,
    let blk_h := blk_extent blk_row uarray2_h height blocksize in
    for_upto uarray2_w (λ blk_col,
      let blk_w := blk_extent blk_col uarray2_w width blocksize in
      for_upto blk_h (λ y,
        for_upto blk_w (λ x,
          let cell_col := blk_col * blocksize + x in
          let cell_row := blk_row * blocksize + y in
          UArray2b_visit apply cell_col cell_row)))) (uarray2b, cl).
End UArray2b.

(** *** Release of the storage *)

Section release.
Context {E : Type} `{Zero E}.

(** Modelled from the spec: [UArray_free] and [UArray2_free], which
    release the storage behind a handle and clear the handle. *)
Definition UArray_free (uarray : option (UArray_T E))
    : res (option (UArray_T E)) :=
  _ ← handle uarray;
  Ok None.

Definition UArray2_free {A} (uarray2 : option (UArray2_T A))
    : res (option (UArray2_T A)) :=
  _ ← handle uarray2;
  Ok None.

(** [blocks_free]; [elem] points to the cell that holds the block. *)
Definition blocks_free (col row : Z)
    (blocks : UArray2_T (option (UArray_T E))) (elem : Z) (cl : unit)
    : res (UArray2_T (option (UArray_T E)) * unit) :=
  block ← UArray2_deref blocks elem;
  block ← UArray_free block;
  blocks ← UArray2_assign blocks elem block;
  Ok (blocks, cl).

(** [UArray2b_free], on the variable that holds the handle, which is
    left holding NULL. *)
Definition UArray2b_free (uarray2b : option (UArray2b_T E))
    : res (option (UArray2b_T E)) :=
  a ← handle uarray2b;
  '(blocks, _) ← UArray2_map_row_major (UArray2b_blocks a) blocks_free tt;
  _ ← UArray2_free (Some blocks);
  Ok None.
End release.

(** ** The method suite [A2Methods_T] *)

Module A2Methods.

Section types.
Context (A2 Object : Type).

(** [A2Methods_applyfun]: called with the coordinates, the array, the
    pointer to the element and the closure. *)
Definition applyfun (S : Type) : Type :=
  Z → Z → A2 → Object → S → res (A2 * S).

(** [A2Methods_smallapplyfun]: called with the pointer to the element
    and the closure; the array is the memory the pointer points
    into. *)
Definition smallapplyfun (S : Type) : Type :=
  A2 → Object → S → res (A2 * S).

Definition mapfun : Type :=
  ∀ S : Type, A2 → applyfun S → S → res (A2 * S).

Definition smallmapfun : Type :=
  ∀ S : Type, A2 → smallapplyfun S → S → res (A2 * S).
End types.

(** The struct behind [A2Methods_T], slots in the order of the
    initialiser in [a2plain.c].  A slot holding NULL is [None].  [A2]
    is what [A2Methods_UArray2] points to and [Object] what
    [A2Methods_Object *] is; [deref] and [assign] are not slots: they
    are [*p] and [*p = v] on the suite's arrays. *)
Record T (E : Type) := Make {
  A2 : Type;
  Object : Type;
  new : Z → Z → Z → res A2;
  new_with_blocksize : Z → Z → Z → Z → res A2;
  free : A2 → res unit;
  width : A2 → Z;
  height : A2 → Z;
  size : A2 → Z;
  blocksize : A2 → Z;
  at_ : A2 → Z → Z → res Object;
  map_row_major : option (mapfun A2 Object);
  map_col_major : option (mapfun A2 Object);
  map_block_major : option (mapfun A2 Object);
  map_default : option (mapfun A2 Object);
  small_map_row_major : option (smallmapfun A2 Object);
  small_map_col_major : option (smallmapfun A2 Object);
  small_map_block_major : option (smallmapfun A2 Object);
  small_map_default : option (smallmapfun A2 Object);
  deref : A2 → Object → res E;
  assign : A2 → Object → E → res A2
}.
Arguments Make {E}.
Arguments A2 {E}.
Arguments Object {E}.
Arguments new {E}.
Arguments new_with_blocksize {E}.
Arguments free {E}.
Arguments width {E}.
Arguments height {E}.
Arguments size {E}.
Arguments blocksize {E}.
Arguments at_ {E}.
Arguments map_row_major {E}.
Arguments map_col_major {E}.
Arguments map_block_major {E}.
Arguments map_default {E}.
Arguments small_map_row_major {E}.
Arguments small_map_col_major {E}.
Arguments small_map_block_major {E}.
Arguments small_map_default {E}.
Arguments deref {E}.
Arguments assign {E}.

End A2Methods.

(** ** The plain method suite ([a2plain.c]) *)

Module A2Plain.

Section suite.
Context {E : Type} `{Zero E}.

Definition A2 : Type := UArray2_T E.

Definition new (width height size : Z) : res A2 :=
  UArray2_new width height size.

Definition new_with_blocksize (width height size blocksize : Z)
    : res A2 :=
  UArray2_new width height size.

(** [UArray2_free] releases the storage, which an array value does
    not track. *)
Definition a2free (array2p : A2) : res unit := Ok tt.

Definition width (array2 : A2) : Z := UArray2_width array2.

Definition height (array2 : A2) : Z := UArray2_height array2.

Definition size (array2 : A2) : Z := UArray2_size array2.

Definition blocksize (array2 : A2) : Z := 1.

Definition at_ (array2 : A2) (i j : Z) : res Z := UArray2_at array2 i j.

Definition map_col_major (S : Type) (array2 : A2)
    (apply : A2Methods.applyfun A2 Z S) (cl : S) : res (A2 * S) :=
  UArray2_map_col_major array2 apply cl.

Definition map_row_major (S : Type) (array2 : A2)
    (apply : A2Methods.applyfun A2 Z S) (cl : S) : res (A2 * S) :=
  UArray2_map_row_major array2 apply cl.

Record small_closure (S : Type) := Small_closure {
  apply : A2Methods.smallapplyfun A2 Z S;
  cl : S
}.
Arguments Small_closure {S}.
Arguments apply {S}.
Arguments cl {S}.

Definition small_closure_cl {S} (c : small_closure S) : S := cl c.

Definition apply_small {S} (i j : Z) (array2 : A2) (elem : Z)
    (vcl : small_closure S) : res (A2 * small_closure S) :=
  '(array2, ucl) ← apply vcl array2 elem (cl vcl);
  Ok (array2, Small_closure (apply vcl) ucl).

Definition small_map_col_major (S : Type) (a2 : A2)
    (apply : A2Methods.smallapplyfun A2 Z S) (cl : S) : res (A2 * S) :=
  let mycl := Small_closure apply cl in
  '(a2, mycl) ← UArray2_map_col_major a2 apply_small mycl;
  Ok (a2, small_closure_cl mycl).

Definition small_map_row_major (S : Type) (a2 : A2)
    (apply : A2Methods.smallapplyfun A2 Z S) (cl : S) : res (A2 * S) :=
  let mycl := Small_closure apply cl in
  '(a2, mycl) ← UArray2_map_row_major a2 apply_small mycl;
  Ok (a2, small_closure_cl mycl).

Definition uarray2_methods_plain_struct : A2Methods.T E :=
  A2Methods.Make A2 Z
    new
    new_with_blocksize
    a2free
    width
    height
    size
    blocksize
    at_
    (Some map_row_major)
    (Some map_col_major)
    None                        (* map_block_major *)
    (Some map_row_major)        (* map_default *)
    (Some small_map_row_major)
    (Some small_map_col_major)
    None                        (* small_map_block_major *)
    (Some small_map_row_major)  (* small_map_default *)
    UArray2_deref
    UArray2_assign.

(** The exported pointer to the struct. *)
Definition uarray2_methods_plain : option (A2Methods.T E) :=
  Some uarray2_methods_plain_struct.
End suite.

End A2Plain.

(** ** The blocked method suite *)

Module A2Blocked.

Section suite.
Context {E : Type} `{Zero E}.

Definition A2 : Type := UArray2b_T E.

(** Modelled from the spec: [a2blocked.c] is not part of the sources.
    The blocked variant implements the slots of the method suite over
    the blocked array: construction with the cache-fitting blocksize and
    with a blocksize of the caller, the metadata and the random access
    of [uarray2b.c], and the block-major traversal, which is also its
    default; the row-major and column-major slots, for which the blocked
    array has no traversal, are absent. *)
Definition new (width height size : Z) : res A2 :=
  UArray2b_new_64K_block width height size.

Definition new_with_blocksize (width height size blocksize : Z) : res A2 :=
  UArray2b_new width height size blocksize.

Definition a2free (array2p : A2) : res unit := Ok tt.

Definition width (array2 : A2) : Z := UArray2b_width array2.

Definition height (array2 : A2) : Z := UArray2b_height array2.

Definition size (array2 : A2) : Z := UArray2b_size array2.

Definition blocksize (array2 : A2) : Z := UArray2b_blocksize array2.

Definition at_ (array2 : A2) (i j : Z) : res UArray2b_ptr :=
  UArray2b_at array2 i j.

Definition map_block_major (S : Type) (array2 : A2)
    (apply : A2Methods.applyfun A2 UArray2b_ptr S) (cl : S)
    : res (A2 * S) :=
  UArray2b_map array2 apply cl.

Definition apply_small {S} (i j : Z) (array2 : A2) (elem : UArray2b_ptr)
    (vcl : A2Methods.smallapplyfun A2 UArray2b_ptr S * S)
    : res (A2 * (A2Methods.smallapplyfun A2 UArray2b_ptr S * S)) :=
  '(array2, ucl) ← vcl.1 array2 elem vcl.2;
  Ok (array2, (vcl.1, ucl)).

Definition small_map_block_major (S : Type) (a2 : A2)
    (apply : A2Methods.smallapplyfun A2 UArray2b_ptr S) (cl : S)
    : res (A2 * S) :=
  '(a2, mycl) ← UArray2b_map a2 apply_small (apply, cl);
  Ok (a2, mycl.2).

Definition uarray2_methods_blocked_struct : A2Methods.T E :=
  A2Methods.Make A2 UArray2b_ptr
    new
    new_with_blocksize
    a2free
    width
    height
    size
    blocksize
    at_
    None                          (* map_row_major *)
    None                          (* map_col_major *)
    (Some map_block_major)
    (Some map_block_major)        (* map_default *)
    None                          (* small_map_row_major *)
    None                          (* small_map_col_major *)
    (Some small_map_block_major)
    (Some small_map_block_major)  (* small_map_default *)
    UArray2b_deref
    UArray2b_assign.

Definition uarray2_methods_blocked : option (A2Methods.T E) :=
  Some uarray2_methods_blocked_struct.
End suite.

End A2Blocked.

(** ** The transform engine ([ppmtrans.c]) *)

Module Ppmtrans.

(** [struct Pnm_rgb] of [pnm.h]: three [unsigned] samples. *)
Record Pnm_rgb := Rgb { red : Z; green : Z; blue : Z }.

#[global] Instance Pnm_rgb_zero : Zero Pnm_rgb := Rgb 0 0 0.

(** [sizeof(struct Pnm_rgb)] *)
Definition sizeof_Pnm_rgb : Z := 12.

Definition A2Methods_T : Type := A2Methods.T Pnm_rgb.

Definition A2 (methods : A2Methods_T) : Type := A2Methods.A2 methods.
Definition object (methods : A2Methods_T) : Type :=
  A2Methods.Object methods.
Definition applyfun (methods : A2Methods_T) (S : Type) : Type :=
  A2Methods.applyfun (A2 methods) (object methods) S.
Definition mapfun (methods : A2Methods_T) : Type :=
  A2Methods.mapfun (A2 methods) (object methods).

(** [struct Pnm_ppm] of [pnm.h]; its [methods] field is the index. *)
Record Pnm_ppm (methods : A2Methods_T) := Ppm {
  width : Z;
  height : Z;
  denominator : Z;
  pixels : A2 methods
}.
Arguments Ppm {methods}.
Arguments width {methods}.
Arguments height {methods}.
Arguments denominator {methods}.
Arguments pixels {methods}.

(** [struct result], the closure of the map functions; its [methods]
    field is the index. *)
Record result (methods : A2Methods_T) := Result {
  destination_map : A2 methods;
  magnitude : Z
}.
Arguments Result {methods}.
Arguments destination_map {methods}.
Arguments magnitude {methods}.

Definition ROTATE : Z := 0.
Definition FLIP : Z := 1.
Definition TRANSPOSE : Z := 2.

Definition HORIZ : Z := 1.
Definition VERT : Z := 2.

Definition nl : string := String (Ascii.ascii_of_nat 10) "".

(** [usage], after [printed] went to stderr. *)
Definition usage {A} (printed progname : string) : res A :=
  Err (Exit 1
    (printed +:+ "Usage: " +:+ progname +:+
     " [-rotate <angle>] [-flip <direction>] " +:+
     "[-transpose] [{row,col,block}-major] " +:+
     "[-time <timing_file>] [filename]" +:+ nl)).

(** [EXIT_FAILURE] *)
Definition EXIT_FAILURE : Z := 1.

Section transforms.
Context {methods : A2Methods_T}.

(** [*dest_pixel = *source_pixel], [source_pixel] pointing into
    [source] and [dest_pixel] into the destination of [info]; a
    [dest_pixel] that no branch assigned is [None].  The write through
    such a pointer is undefined behaviour, which nothing in the source
    checks: the model marks it and says nothing of what the run does
    after it. *)
Definition copy_pixel (source : A2 methods)
    (source_pixel : object methods) (info : result methods)
    (dest_pixel : option (object methods))
    : res (A2 methods * result methods) :=
  match dest_pixel with
  | None => Err Uninit_Deref
  | Some dest_pixel =>
      v ← A2Methods.deref methods source source_pixel;
      destination ←
        A2Methods.assign methods (destination_map info) dest_pixel v;
      Ok (source, Result destination (magnitude info))
  end.

(** The pointer [dest_pixel] of [rotate_map] when it reaches the
    final assignment. *)
Definition rotate_dest_pixel (col row : Z) (source : A2 methods)
    (cl : result methods) : res (option (object methods)) :=
  let info := cl in
  let rotation := magnitude info in
  let destination := destination_map info in
  let height := A2Methods.height methods source in
  let width := A2Methods.width methods source in
  if rotation =? 0 then
    Some <$> A2Methods.at_ methods destination col row
  else if rotation =? 90 then
    Some <$> A2Methods.at_ methods destination (height - row - 1) col
  else if rotation =? 180 then
    Some <$> A2Methods.at_ methods destination (width - col - 1)
                                               (height - row - 1)
  else if rotation =? 270 then
    Some <$> A2Methods.at_ methods destination row (width - col - 1)
  else Ok None.

Definition rotate_map (col row : Z) (source : A2 methods)
    (ptr : object methods) (cl : result methods)
    : res (A2 methods * result methods) :=
  dest_pixel ← rotate_dest_pixel col row source cl;
  copy_pixel source ptr cl dest_pixel.

(** The pointer [dest_pixel] of [flip_map] when it reaches the final
    assignment. *)
Definition flip_dest_pixel (col row : Z) (source : A2 methods)
    (cl : result methods) : res (option (object methods)) :=
  let info := cl in
  let flip_type := magnitude info in
  let destination := destination_map info in
  let height := A2Methods.height methods source in
  let width := A2Methods.width methods source in
  if flip_type =? HORIZ then
    Some <$> A2Methods.at_ methods destination (width - col - 1) row
  else if flip_type =? VERT then
    Some <$> A2Methods.at_ methods destination col (height - row - 1)
  else Ok None.

Definition flip_map (col row : Z) (source : A2 methods)
    (ptr : object methods) (cl : result methods)
    : res (A2 methods * result methods) :=
  dest_pixel ← flip_dest_pixel col row source cl;
  copy_pixel source ptr cl dest_pixel.

Definition transpose_map (col row : Z) (source : A2 methods)
    (ptr : object methods) (cl : result methods)
    : res (A2 methods * result methods) :=
  let info := cl in
  let destination := destination_map info in
  dest_pixel ← A2Methods.at_ methods destination row col;
  copy_pixel source ptr cl (Some dest_pixel).

(** [create_image]: the image with its new dimensions and the empty
    destination. *)
Definition create_image (ppm : Pnm_ppm methods) (type magnitude : Z)
    : res (Pnm_ppm methods * A2 methods) :=
  let width := width ppm in
  let height := height ppm in
  let size := sizeof_Pnm_rgb in
  if ((type =? ROTATE) && ((magnitude =? 90) || (magnitude =? 270)))
     || (type =? TRANSPOSE) then
    let ppm := Ppm height width (denominator ppm) (pixels ppm) in
    image ← A2Methods.new methods height width size;
    Ok (ppm, image)
  else
    image ← A2Methods.new methods width height size;
    Ok (ppm, image).

Definition result_init (magnitude : Z) (image : A2 methods)
    : result methods :=
  Result image magnitude.

(** [transform_init]; a NULL [applyfun *] is [None]. *)
Definition transform_init
    (apply : option (applyfun methods (result methods)))
    (transform_type : Z)
    : option (applyfun methods (result methods)) :=
  if transform_type =? ROTATE then Some rotate_map
  else if transform_type =? FLIP then Some flip_map
  else if transform_type =? TRANSPOSE then Some transpose_map
  else apply.

(** A call through a function pointer. *)
Definition call_apply {S} (apply : option (applyfun methods S))
    : applyfun methods S :=
  match apply with
  | Some apply => apply
  | None => λ _ _ _ _ _, Err Null_Deref
  end.

(** [transform_image]; the timer around the traversal does not touch
    the image, and what it reads when the traversal is over is the
    parameter [CPUTime_Stop] of [main]. *)
Definition transform_image (ppm : Pnm_ppm methods)
    (apply : option (applyfun methods (result methods)))
    (map : option (mapfun methods)) (dest_info : result methods)
    : res (Pnm_ppm methods * result methods) :=
  match map with
  | None => Err Null_Deref
  | Some map =>
      '(pixels, dest_info) ←
        map (result methods) (pixels ppm) (call_apply apply) dest_info;
      Ok (Ppm (width ppm) (height ppm) (denominator ppm) pixels,
          dest_info)
  end.

Definition reassign (ppm : Pnm_ppm methods)
    (destination_map : A2 methods) : res (Pnm_ppm methods) :=
  let buff := pixels ppm in
  let ppm := Ppm (width ppm) (height ppm) (denominator ppm)
                 destination_map in
  _ ← A2Methods.free methods buff;
  Ok ppm.

Definition transform (ppm : Pnm_ppm methods)
    (map : option (mapfun methods)) (transform_type magnitude : Z)
    : res (Pnm_ppm methods) :=
  '(ppm, image) ← create_image ppm transform_type magnitude;
  let apply := None in
  let dest_info := result_init magnitude image in
  let apply := transform_init apply transform_type in
  '(ppm, dest_info) ← transform_image ppm apply map dest_info;
  reassign ppm (destination_map dest_info).
End transforms.

(** *** The command line *)

(** The variables of [main]. *)
Record cli := Cli {
  methods : A2Methods_T;
  map : option (mapfun methods);
  transform_type : Z;
  magnitude_arg : Z;
  time_file_name : option string;
  filename : option string
}.

(** Conversion of a [long] to [int]. *)
Definition int_of_long (v : Z) : Z :=
  (v + 2 ^ 31) `mod` 2 ^ 32 - 2 ^ 31.

Section main.
(** What [main] takes from outside this program: the blocked method
    suite of [a2blocked.c]; [strtol] in base 10 (the value and the rest
    of the string at [endptr]); the files: the standard input, [fopen]
    of a name in a mode, which gives NULL for a file that cannot be
    opened, and the image reader [Pnm_ppmread] of [pnm.h], which gives
    the image in the file or ends the run; and the timing: the type
    [float], the time that [CPUTime_Stop] of [cputiming.h] reads when
    the traversal is over, and the text that the [fprintf] of
    [print_time] formats from a time and a pixel count.  The pixel
    count is given to it as the exact product of the width and the
    height: its reduction to the type of the fields of [struct Pnm_ppm]
    ([pnm.h] is not among the sources) and the conversions to [float]
    are part of that formatting. *)
Context (uarray2_methods_blocked : option A2Methods_T).
Context (strtol : string → Z * string).
Context (FILE : Type) (stdin : FILE).
Context (fopen : string → string → option FILE).
Context (Pnm_ppmread : FILE → ∀ methods, res (Pnm_ppm methods)).
Context (float : Type) (CPUTime_Stop : float).
Context (timing_report : float → Z → string).

(** The macro [SET_METHODS]; [WHAT] is the macro's third argument. *)
Definition SET_METHODS (progname : string) (METHODS : option A2Methods_T)
    (MAP : ∀ m : A2Methods_T, option (mapfun m)) (WHAT : string)
    (st : cli) : res cli :=
  methods ← handle METHODS;
  match MAP methods with
  | None =>
      Err (Exit 1 (progname +:+ " does not support " +:+ WHAT +:+
                   "mapping" +:+ nl))
  | Some map =>
      Ok (Cli methods (Some map) (transform_type st) (magnitude_arg st)
              (time_file_name st) (filename st))
  end.

(** [*s == '-'] *)
Definition starts_with_dash (s : string) : bool :=
  match s with
  | String c _ => Ascii.eqb c (Ascii.ascii_of_nat 45)
  | EmptyString => false
  end.

(** [argv[i]], for [i < argc]. *)
Definition argv_at (argv : list string) (i : nat) : string :=
  default "" (argv !! i).

(** The body of the loop [for (i = 1; i < argc; i++)] of [main], run
    at index [i]: the index it leaves in [i] (it steps over the
    value of an option with [++i]) and the variables, or the exit. *)
Definition loop_body (argv : list string) (i : nat) (st : cli)
    : res (nat * cli) :=
  let argc := length argv in
  let progname := argv_at argv 0 in
  if String.eqb (argv_at argv i) "-row-major" then
    st ← SET_METHODS progname A2Plain.uarray2_methods_plain
           (@A2Methods.map_row_major _) "row-major" st;
    Ok (i, st)
  else if String.eqb (argv_at argv i) "-col-major" then
    st ← SET_METHODS progname A2Plain.uarray2_methods_plain
           (@A2Methods.map_col_major _) "column-major" st;
    Ok (i, st)
  else if String.eqb (argv_at argv i) "-block-major" then
    st ← SET_METHODS progname uarray2_methods_blocked
           (@A2Methods.map_block_major _) "block-major" st;
    Ok (i, st)
  else if String.eqb (argv_at argv i) "-rotate" then
    if negb (i + 1 <? argc)%nat then usage "" progname
    else
      let i := (i + 1)%nat in
      let '(v, endptr) := strtol (argv_at argv i) in
      let magnitude := int_of_long v in
      if negb ((magnitude =? 0) || (magnitude =? 90) ||
               (magnitude =? 180) || (magnitude =? 270)) then
        usage ("Rotation must be 0, 90, 180 or 270" +:+ nl) progname
      else if negb (String.eqb endptr "") then usage "" progname
      else
        Ok (i, Cli (methods st) (map st) ROTATE magnitude
                   (time_file_name st) (filename st))
  else if String.eqb (argv_at argv i) "-flip" then
    if negb (i + 1 <? argc)%nat then usage "" progname
    else
      let i := (i + 1)%nat in
      let endptr := argv_at argv i in
      if String.eqb endptr "horizontal" then
        Ok (i, Cli (methods st) (map st) FLIP HORIZ
                   (time_file_name st) (filename st))
      else if String.eqb endptr "vertical" then
        Ok (i, Cli (methods st) (map st) FLIP VERT
                   (time_file_name st) (filename st))
      else
        usage ("Flip must be horizontal or vertical" +:+ nl) progname
  else if String.eqb (argv_at argv i) "-transpose" then
    Ok (i, Cli (methods st) (map st) TRANSPOSE (magnitude_arg st)
               (time_file_name st) (filename st))
  else if String.eqb (argv_at argv i) "-time" then
    if (i =? argc - 1)%nat then usage "" progname
    else
      let i := (i + 1)%nat in
      Ok (i, Cli (methods st) (map st) (transform_type st)
                 (magnitude_arg st) (Some (argv_at argv i))
                 (filename st))
  else if starts_with_dash (argv_at argv i) then
    usage (progname +:+ ": unknown option '" +:+ argv_at argv i +:+
           "'" +:+ nl) progname
  else if (1 <? argc - i)%nat then
    usage ("Too many arguments" +:+ nl) progname
  else
    Ok (i, Cli (methods st) (map st) (transform_type st)
               (magnitude_arg st) (time_file_name st)
               (Some (argv_at argv i))).

(** The loop from index [i] on, for at most [fuel] rounds. *)
Fixpoint loop (fuel : nat) (argv : list string) (i : nat) (st : cli)
    : res cli :=
  if (i <? length argv)%nat then
    match fuel with
    | O => Err Out_Of_Fuel
    | S fuel =>
        '(i, st) ← loop_body argv i st;
        loop fuel argv (i + 1) st
    end
  else Ok st.

(** The whole loop: [argc] rounds are enough, since every round
    moves [i] forward. *)
Definition parse_args (argv : list string) (st : cli) : res cli :=
  loop (length argv) argv 1 st.

(** The variables of [main] when the loop is entered. *)
Definition main_init : res cli :=
  methods ← handle A2Plain.uarray2_methods_plain;
  let map := A2Methods.map_default methods in
  _ ← assert (bool_decide (is_Some map));
  Ok (Cli methods map ROTATE 0 None None).

Definition process_file (filename : option string)
    (methods : A2Methods_T) : res (Pnm_ppm methods) :=
  match filename with
  | None => Pnm_ppmread stdin methods
  | Some filename =>
      match fopen filename "r" with
      | None => Err (Exit EXIT_FAILURE ("File read error." +:+ nl))
      | Some inputfp => Pnm_ppmread inputfp methods
      end
  end.

(** [print_time]: the timing file and the text written to it, or the
    exit when the file cannot be opened. *)
Definition print_time (time : float) (file : string) (pixel_count : Z)
    : res (FILE * string) :=
  match fopen file "w" with
  | None => Err (Exit EXIT_FAILURE ("Time file read error" +:+ nl))
  | Some fp => Ok (fp, timing_report time pixel_count)
  end.

(** [main]: the image written to standard output and, with [-time],
    the timing file and the report written to it.  [time] is not NULL
    exactly when [time_file_name] is not, and [transform] then leaves
    in [*time] what [CPUTime_Stop] read. *)
Definition main (argv : list string)
    : res ({ m & Pnm_ppm m } * option (FILE * string)) :=
  st ← main_init;
  st ← parse_args argv st;
  ppm ← process_file (filename st) (methods st);
  ppm ← transform ppm (map st) (transform_type st) (magnitude_arg st);
  timing ←
    match time_file_name st with
    | Some file =>
        Some <$> print_time CPUTime_Stop file (width ppm * height ppm)
    | None => Ok None
    end;
  Ok (existT (methods st) ppm, timing).
End main.

End Ppmtrans.

(** * Vocabulary of the properties *)

(** The coordinates of a row-major and of a column-major traversal of a
    [w] by [h] grid, in visiting order. *)
Definition row_major_coords (w h : Z) : list (Z * Z) :=
  row ← seqZ 0 h; col ← seqZ 0 w; [(col, row)].

Definition col_major_coords (w h : Z) : list (Z * Z) :=
  col ← seqZ 0 w; row ← seqZ 0 h; [(col, row)].

(** Representation invariants: what the constructors establish and
    element writes keep. *)
Definition UArray_wf {E} (ua : UArray_T E) : Prop :=
  0 ≤ UArray_length ua ∧
  Z.of_nat (length (UArray_elems ua)) = UArray_length ua.

Definition UArray2_wf {E} (a : UArray2_T E) : Prop :=
  0 < UArray2_width a ∧ 0 < UArray2_height a ∧
  UArray_wf (UArray2_elems a) ∧
  UArray_length (UArray2_elems a) = UArray2_width a * UArray2_height a.

(** The element of a plain array at a coordinate. *)
Definition UArray2_get {E} (a : UArray2_T E) (col row : Z) : res E :=
  p ← UArray2_at a col row; UArray2_deref a p.

Definition UArray2b_wf {E} (a : UArray2b_T E) : Prop :=
  let bs := UArray2b_blocksize a in
  let blocks := UArray2b_blocks a in
  0 < UArray2b_width a ∧ 0 < UArray2b_height a ∧
  0 < bs ∧ bs ≤ UArray2b_width a ∧ bs ≤ UArray2b_height a ∧
  UArray2_wf blocks ∧
  UArray2_width blocks = ceil_div (UArray2b_width a) bs ∧
  UArray2_height blocks = ceil_div (UArray2b_height a) bs ∧
  ∀ i, 0 ≤ i < UArray2_width blocks * UArray2_height blocks →
    ∃ b, UArray2_deref blocks i = Ok (Some b) ∧
         UArray_wf b ∧ UArray_length b = bs * bs.

(** The element of a blocked array at a coordinate. *)
Definition UArray2b_get {E} (a : UArray2b_T E) (col row : Z) : res E :=
  p ← UArray2b_at a col row; UArray2b_deref a p.

(** The coordinates of the block-major traversal of a [w] by [h] grid in
    blocks of [bs], in visiting order: the loops of [UArray2b_map] over a
    block grid of [ceil_div w bs] by [ceil_div h bs] blocks. *)
Definition block_major_coords (w h bs : Z) : list (Z * Z) :=
  blk_row ← seqZ 0 (ceil_div h bs);
  blk_col ← seqZ 0 (ceil_div w bs);
  y ← seqZ 0 (blk_extent blk_row (ceil_div h bs) h bs);
  x ← seqZ 0 (blk_extent blk_col (ceil_div w bs) w bs);
  [(blk_col * bs + x, blk_row * bs + y)].

(** Where the random-access arithmetic of [UArray2b_at] places the
    element at a coordinate: the cell of block
    [(col / blocksize, row / blocksize)] in the row-major block grid and
    the offset [blocksize * (row % blocksize) + col % blocksize] in that
    block's buffer. *)
Definition UArray2b_place {E} (a : UArray2b_T E) (col row : Z)
    : UArray2b_ptr :=
  let bs := UArray2b_blocksize a in
  ((row `quot` bs) * UArray2_width (UArray2b_blocks a) + col `quot` bs,
   bs * (row `rem` bs) + col `rem` bs).

(** A callback that writes nothing and logs its arguments: the
    coordinate and the element pointer of every call, in call order. *)
Definition record_visit {E}
    : UArray2b_applyfun E (list (Z * Z * UArray2b_ptr)) :=
  λ col row a elem log, Ok (a, log ++ [(col, row, elem)]).

(** The block size that the spec gives the 64K-budget constructor. *)
Definition blocksize_64K_spec (width height elementSize : Z) : Z :=
  let cells := 64000 `quot` elementSize in
  if cells <? 1 then 1
  else if (width * width <? cells) || (height * height <? cells)
       then Z.min width height
       else Z.sqrt cells.

(** *** Method suites that keep their contract *)

Section suite_contract.
Context {E : Type} (m : A2Methods.T E).

(** The element at a coordinate, read through the suite. *)
Definition A2_get (a : A2Methods.A2 m) (col row : Z) : res E :=
  p ← A2Methods.at_ m a col row; A2Methods.deref m a p.

Definition A2_in_bounds (a : A2Methods.A2 m) (col row : Z) : Prop :=
  0 ≤ col < A2Methods.width m a ∧ 0 ≤ row < A2Methods.height m a.

(** One call of a traversal: fetch the element, call the callback. *)
Definition A2_visit {S}
    (apply : A2Methods.applyfun (A2Methods.A2 m) (A2Methods.Object m) S)
    (st : A2Methods.A2 m * S) (cr : Z * Z) : res (A2Methods.A2 m * S) :=
  elem ← A2Methods.at_ m st.1 cr.1 cr.2;
  apply cr.1 cr.2 st.1 elem st.2.

(** [f] is one of the traversals that the suite offers. *)
Definition A2_offers (f : A2Methods.mapfun (A2Methods.A2 m)
                                           (A2Methods.Object m)) : Prop :=
  A2Methods.map_row_major m = Some f ∨ A2Methods.map_col_major m = Some f ∨
  A2Methods.map_block_major m = Some f ∨ A2Methods.map_default m = Some f.

(** The contract of a method suite over arrays that satisfy [valid]:
    construction gives an array of the dimensions asked for; every
    in-bounds coordinate has an element, distinct coordinates have
    distinct elements; a write through an element pointer keeps the
    shape and the pointers, is read back, and leaves the other elements
    alone; and every traversal that is offered calls the callback once
    for each entry of a list holding exactly the in-bounds
    coordinates. *)
Record A2_contract (valid : A2Methods.A2 m → Prop) : Prop := {
  contract_dims : ∀ a, valid a →
    0 < A2Methods.width m a ∧ 0 < A2Methods.height m a;
  contract_new : ∀ w h s, 0 < w → 0 < h → 0 < s →
    ∃ a, A2Methods.new m w h s = Ok a ∧ valid a ∧
         A2Methods.width m a = w ∧ A2Methods.height m a = h;
  contract_free : ∀ a, valid a → A2Methods.free m a = Ok tt;
  contract_at : ∀ a col row, valid a → A2_in_bounds a col row →
    ∃ p, A2Methods.at_ m a col row = Ok p;
  contract_at_inj : ∀ a c1 r1 c2 r2 p, valid a →
    A2_in_bounds a c1 r1 → A2_in_bounds a c2 r2 →
    A2Methods.at_ m a c1 r1 = Ok p → A2Methods.at_ m a c2 r2 = Ok p →
    c1 = c2 ∧ r1 = r2;
  contract_deref : ∀ a col row p, valid a → A2_in_bounds a col row →
    A2Methods.at_ m a col row = Ok p → ∃ v, A2Methods.deref m a p = Ok v;
  contract_assign : ∀ a col row p v, valid a → A2_in_bounds a col row →
    A2Methods.at_ m a col row = Ok p →
    ∃ a', A2Methods.assign m a p v = Ok a' ∧ valid a' ∧
          A2Methods.width m a' = A2Methods.width m a ∧
          A2Methods.height m a' = A2Methods.height m a ∧
          (∀ c r, A2Methods.at_ m a' c r = A2Methods.at_ m a c r) ∧
          A2Methods.deref m a' p = Ok v ∧
          (∀ q, q ≠ p → A2Methods.deref m a' q = A2Methods.deref m a q);
  contract_map : ∀ f a, A2_offers f → valid a →
    ∃ coords,
      (∀ col row, (col, row) ∈ coords ↔ A2_in_bounds a col row) ∧
      ∀ S apply (cl : S),
        f S a apply cl = foldM (A2_visit apply) coords (a, cl)
}.
End suite_contract.

(** *** The transforms of the spec *)

Inductive operation : Type :=
  | Rotate0 | Rotate90 | Rotate180 | Rotate270
  | FlipHorizontal | FlipVertical
  | Transpose.

(** The transform type and the magnitude with which [main] requests an
    operation; transpose goes with every magnitude. *)
Definition requests (op : operation) (transform_type magnitude : Z) : Prop :=
  match op with
  | Rotate0 => transform_type = Ppmtrans.ROTATE ∧ magnitude = 0
  | Rotate90 => transform_type = Ppmtrans.ROTATE ∧ magnitude = 90
  | Rotate180 => transform_type = Ppmtrans.ROTATE ∧ magnitude = 180
  | Rotate270 => transform_type = Ppmtrans.ROTATE ∧ magnitude = 270
  | FlipHorizontal =>
      transform_type = Ppmtrans.FLIP ∧ magnitude = Ppmtrans.HORIZ
  | FlipVertical =>
      transform_type = Ppmtrans.FLIP ∧ magnitude = Ppmtrans.VERT
  | Transpose => transform_type = Ppmtrans.TRANSPOSE
  end.

(** The table of the spec: the destination coordinate of source
    coordinate (col, row) in a grid of width [W] and height [H]. *)
Definition dest_coord (op : operation) (W H col row : Z) : Z * Z :=
  match op with
  | Rotate0 => (col, row)
  | Rotate90 => (H - row - 1, col)
  | Rotate180 => (W - col - 1, H - row - 1)
  | Rotate270 => (row, W - col - 1)
  | FlipHorizontal => (W - col - 1, row)
  | FlipVertical => (col, H - row - 1)
  | Transpose => (row, col)
  end.

(** The destination sizing of the spec: width and height of the
    destination of a source of width [W] and height [H]. *)
Definition dest_dims (op : operation) (W H : Z) : Z * Z :=
  match op with
  | Rotate90 | Rotate270 | Transpose => (H, W)
  | Rotate0 | Rotate180 | FlipHorizontal | FlipVertical => (W, H)
  end.

(** An image whose record and pixel array agree. *)
Definition Pnm_ppm_wf {m : Ppmtrans.A2Methods_T}
    (valid : A2Methods.A2 m → Prop) (ppm : Ppmtrans.Pnm_ppm m) : Prop :=
  valid (Ppmtrans.pixels ppm) ∧
  Ppmtrans.width ppm = A2Methods.width m (Ppmtrans.pixels ppm) ∧
  Ppmtrans.height ppm = A2Methods.height m (Ppmtrans.pixels ppm).

(** Four transforms in a row, each with transform type [type] and
    magnitude [mag], over the traversal [f]. *)
Definition transform_four_times {m : Ppmtrans.A2Methods_T}
    (f : Ppmtrans.mapfun m) (type mag : Z) (ppm : Ppmtrans.Pnm_ppm m)
    : res (Ppmtrans.Pnm_ppm m) :=
  ppm ← Ppmtrans.transform ppm (Some f) type mag;
  ppm ← Ppmtrans.transform ppm (Some f) type mag;
  ppm ← Ppmtrans.transform ppm (Some f) type mag;
  Ppmtrans.transform ppm (Some f) type mag.

(** The callback that [transform_init] picks for an operation. *)
Definition callback_of {m : Ppmtrans.A2Methods_T} (op : operation)
    : Ppmtrans.applyfun m (Ppmtrans.result m) :=
  match op with
  | Rotate0 | Rotate90 | Rotate180 | Rotate270 => Ppmtrans.rotate_map
  | FlipHorizontal | FlipVertical => Ppmtrans.flip_map
  | Transpose => Ppmtrans.transpose_map
  end.

(** *** The command line *)

(** The variables of [main] hold a request that the callbacks can
    serve: a rotation by 0, 90, 180 or 270, a horizontal or vertical
    flip, or a transpose. *)
Definition request_ok (st : Ppmtrans.cli) : Prop :=
  (Ppmtrans.transform_type st = Ppmtrans.ROTATE ∧
   Ppmtrans.magnitude_arg st ∈ [0; 90; 180; 270]) ∨
  (Ppmtrans.transform_type st = Ppmtrans.FLIP ∧
   Ppmtrans.magnitude_arg st ∈ [Ppmtrans.HORIZ; Ppmtrans.VERT]) ∨
  Ppmtrans.transform_type st = Ppmtrans.TRANSPOSE.

(** The loop of [main], started at index [i] with variables [st], comes
    to examine index [j] with variables [st']. *)
Inductive reaches (blocked : option Ppmtrans.A2Methods_T)
    (strtol : string → Z * string) (argv : list string)
    : nat → Ppmtrans.cli → nat → Ppmtrans.cli → Prop :=
  | reaches_here i st : reaches blocked strtol argv i st i st
  | reaches_round i st i' st' j st'' :
      (i < length argv)%nat →
      Ppmtrans.loop_body blocked strtol argv i st = Ok (i', st') →
      reaches blocked strtol argv (i' + 1) st' j st'' →
      reaches blocked strtol argv i st j st''.

(** The diagnostic of [SET_METHODS] for block-major mapping. *)
Definition no_block_major (progname : string) : string :=
  progname +:+ " does not support block-majormapping" +:+ Ppmtrans.nl.

(** [strtol] of the C library in base 10, with a [long] of 64 bits:
    white space is skipped, then an optional sign and the longest run
    of digits are read; the value is the number read, or [LONG_MAX] or
    [LONG_MIN] when the number is out of the range of [long]; the rest
    of the string is what follows the digits.  Without a digit the
    value is 0 and the rest is the whole string. *)
Definition LONG_MAX : Z := 2 ^ 63 - 1.
Definition LONG_MIN : Z := - 2 ^ 63.

(** [isspace] in the C locale: the space and the characters from the
    horizontal tab to the carriage return. *)
Definition isspace (c : Ascii.ascii) : bool :=
  let n := Z.of_nat (Ascii.nat_of_ascii c) in
  (n =? 32) || ((9 <=? n) && (n <=? 13)).

Fixpoint skip_spaces (s : string) : string :=
  match s with
  | String c rest => if isspace c then skip_spaces rest else s
  | EmptyString => s
  end.

Definition digit_of (c : Ascii.ascii) : option Z :=
  let n := Z.of_nat (Ascii.nat_of_ascii c) in
  if (48 <=? n) && (n <=? 57) then Some (n - 48) else None.

Fixpoint digits (s : string) (acc : Z) : Z * string :=
  match s with
  | String c rest =>
      match digit_of c with
      | Some d => digits rest (10 * acc + d)
      | None => (acc, s)
      end
  | EmptyString => (acc, s)
  end.

Definition strtol_dec (s : string) : Z * string :=
  let subject := skip_spaces s in
  let '(neg, body) :=
    match subject with
    | String c rest =>
        if Ascii.eqb c (Ascii.ascii_of_nat 45) then (true, rest)
        else if Ascii.eqb c (Ascii.ascii_of_nat 43) then (false, rest)
        else (false, subject)
    | EmptyString => (false, subject)
    end in
  let '(v, rest) := digits body 0 in
  if (String.length rest =? String.length body)%nat then (0, s)
  else (Z.max LONG_MIN (Z.min LONG_MAX (if neg then - v else v)), rest).

(** The largest [int]. *)
Definition INT_MAX : Z := 2 ^ 31 - 1.

(** *** Test images *)

(** A plain [w] by [h] image whose pixel number [i] in row-major order
    has the sample [i] in its three channels, and the red samples of an
    image in storage order. *)
Definition labelled_image (w h : Z)
    : res (Ppmtrans.Pnm_ppm A2Plain.uarray2_methods_plain_struct) :=
  a ← UArray2_new w h Ppmtrans.sizeof_Pnm_rgb;
  a ← foldM (λ a i, UArray2_assign a i (Ppmtrans.Rgb i i i))
            (seqZ 0 (w * h)) a;
  Ok (Ppmtrans.Ppm (methods:=A2Plain.uarray2_methods_plain_struct)
        w h 255 a).

Definition red_samples
    (ppm : Ppmtrans.Pnm_ppm A2Plain.uarray2_methods_plain_struct)
    : list Z :=
  Ppmtrans.red <$> UArray_elems (UArray2_elems (Ppmtrans.pixels ppm)).

(** *** The order of the block-major traversal *)

(** The place of a coordinate in block-major order: its block row, its
    block column, its row in the block and its column in the block,
    compared in that order. *)
Definition block_major_key (bs : Z) (cr : Z * Z) : Z * Z * Z * Z :=
  (cr.2 `div` bs, cr.1 `div` bs, cr.2 `mod` bs, cr.1 `mod` bs).

Definition lex4_lt (k1 k2 : Z * Z * Z * Z) : Prop :=
  let '(a1, b1, c1, d1) := k1 in
  let '(a2, b2, c2, d2) := k2 in
  a1 < a2 ∨ (a1 = a2 ∧ (b1 < b2 ∨ (b1 = b2 ∧ (c1 < c2 ∨ (c1 = c2 ∧ d1 < d2))))).

Definition block_major_before (bs : Z) (cr1 cr2 : Z * Z) : Prop :=
  lex4_lt (block_major_key bs cr1) (block_major_key bs cr2).

(** Row-major order of coordinates, and the order of element pointers
    in memory: by block cell, then by offset in the block. *)
Definition row_major_before (cr1 cr2 : Z * Z) : Prop :=
  cr1.2 < cr2.2 ∨ (cr1.2 = cr2.2 ∧ cr1.1 < cr2.1).


(** A callback that writes [g col row] through the element pointer it
    is handed, for a suite and for the blocked array. *)
Definition A2_fill {E} (m : A2Methods.T E) (g : Z → Z → E)
    : A2Methods.applyfun (A2Methods.A2 m) (A2Methods.Object m) unit :=
  λ col row a elem cl, a ← A2Methods.assign m a elem (g col row); Ok (a, cl).

Definition UArray2b_fill {E} (g : Z → Z → E) : UArray2b_applyfun E unit :=
  λ col row a elem cl, a ← UArray2b_assign a elem (g col row); Ok (a, cl).

(** *** The algebra of the transforms *)

(** The source coordinate that an operation sends to a destination
    coordinate, for a source of width [W] and height [H]. *)
Definition src_coord (op : operation) (W H col row : Z) : Z * Z :=
  match op with
  | Rotate0 => (col, row)
  | Rotate90 => (row, H - col - 1)
  | Rotate180 => (W - col - 1, H - row - 1)
  | Rotate270 => (W - row - 1, col)
  | FlipHorizontal => (W - col - 1, row)
  | FlipVertical => (col, H - row - 1)
  | Transpose => (row, col)
  end.

(** The operation that undoes an operation. *)
Definition inverse_of (op : operation) : operation :=
  match op with
  | Rotate90 => Rotate270
  | Rotate270 => Rotate90
  | Rotate0 | Rotate180 | FlipHorizontal | FlipVertical | Transpose => op
  end.

(** The operation that does what [op1] followed by [op2] does; the
    reflection in the other diagonal is none of the seven. *)
Definition followed_by (op1 op2 : operation) : option operation :=
  match op1, op2 with
  | Rotate0, op | op, Rotate0 => Some op
  | Rotate90, Rotate90 => Some Rotate180
  | Rotate90, Rotate180 => Some Rotate270
  | Rotate90, Rotate270 => Some Rotate0
  | Rotate90, FlipHorizontal => Some Transpose
  | Rotate90, FlipVertical => None
  | Rotate90, Transpose => Some FlipVertical
  | Rotate180, Rotate90 => Some Rotate270
  | Rotate180, Rotate180 => Some Rotate0
  | Rotate180, Rotate270 => Some Rotate90
  | Rotate180, FlipHorizontal => Some FlipVertical
  | Rotate180, FlipVertical => Some FlipHorizontal
  | Rotate180, Transpose => None
  | Rotate270, Rotate90 => Some Rotate0
  | Rotate270, Rotate180 => Some Rotate90
  | Rotate270, Rotate270 => Some Rotate180
  | Rotate270, FlipHorizontal => None
  | Rotate270, FlipVertical => Some Transpose
  | Rotate270, Transpose => Some FlipHorizontal
  | FlipHorizontal, Rotate90 => None
  | FlipHorizontal, Rotate180 => Some FlipVertical
  | FlipHorizontal, Rotate270 => Some Transpose
  | FlipHorizontal, FlipHorizontal => Some Rotate0
  | FlipHorizontal, FlipVertical => Some Rotate180
  | FlipHorizontal, Transpose => Some Rotate270
  | FlipVertical, Rotate90 => Some Transpose
  | FlipVertical, Rotate180 => Some FlipHorizontal
  | FlipVertical, Rotate270 => None
  | FlipVertical, FlipHorizontal => Some Rotate180
  | FlipVertical, FlipVertical => Some Rotate0
  | FlipVertical, Transpose => Some Rotate90
  | Transpose, Rotate90 => Some FlipHorizontal
  | Transpose, Rotate180 => None
  | Transpose, Rotate270 => Some FlipVertical
  | Transpose, FlipHorizontal => Some Rotate90
  | Transpose, FlipVertical => Some Rotate270
  | Transpose, Transpose => Some Rotate0
  end.

(** *** What the argument loop leaves *)

(** What [main] prints before the usage line when it rejects a command
    line: nothing, one of three fixed lines, or the line that names an
    unknown option. *)
Definition diagnostics (argv : list string) : list string :=
  [""; "Rotation must be 0, 90, 180 or 270" +:+ Ppmtrans.nl;
   "Flip must be horizontal or vertical" +:+ Ppmtrans.nl;
   "Too many arguments" +:+ Ppmtrans.nl]
  ++ ((λ opt, Ppmtrans.argv_at argv 0 +:+ ": unknown option '" +:+ opt +:+
              "'" +:+ Ppmtrans.nl) <$> argv).

(** The traversal in the variables of [main] is one that their method
    suite offers. *)
Definition map_offered (st : Ppmtrans.cli) : Prop :=
  ∃ f, Ppmtrans.map st = Some f ∧ A2_offers (Ppmtrans.methods st) f.

(** Where the file names in the variables of [main] come from when the
    loop is about to examine index [i]: the input file is the last
    argument, it is no option and it ended the loop; the timing file is
    the argument after a [-time]. *)
Definition names_from (argv : list string) (i : nat) (st : Ppmtrans.cli)
    : Prop :=
  (Ppmtrans.filename st = None ∨
   (i = length argv ∧ (1 < length argv)%nat ∧
    Ppmtrans.filename st = last argv ∧
    ∀ f, Ppmtrans.filename st = Some f →
         Ppmtrans.starts_with_dash f = false)) ∧
  ∀ t, Ppmtrans.time_file_name st = Some t →
    ∃ k, (0 < k)%nat ∧ argv !! k = Some "-time" ∧
         argv !! (k + 1)%nat = Some t.

(** * Properties *)

(** ** The error monad and loops *)

Lemma bind_Ok {A B} (k : A → res B) (a : A) : Ok a ≫= k = k a.
Proof. reflexivity. Qed.

Lemma bind_eq_Ok {A B} (x : res A) (k : A → res B) (a : A) :
  x = Ok a → x ≫= k = k a.
Proof. intros ->. reflexivity. Qed.

Lemma bind_Err {A B} (k : A → res B) (e : error) : Err e ≫= k = Err e.
Proof. reflexivity. Qed.

Lemma bind_Ok_inv {A B} (x : res A) (k : A → res B) (r : B) :
  x ≫= k = Ok r → ∃ a, x = Ok a ∧ k a = Ok r.
Proof. destruct x as [a|e]; [eauto | discriminate]. Qed.

Lemma fmap_Ok {A B} (f : A → B) (a : A) : f <$> Ok a = Ok (f a).
Proof. reflexivity. Qed.

Lemma assert_true (b : bool) : b = true → assert b = Ok tt.
Proof. intros ->. reflexivity. Qed.

Lemma assert_false (b : bool) : b = false → assert b = Err Assert_Failed.
Proof. intros ->. reflexivity. Qed.

Lemma assert_Ok_inv (b : bool) (u : unit) : assert b = Ok u → b = true.
Proof. destruct b; [reflexivity | discriminate]. Qed.

(** Split a successful sequence in a hypothesis into its steps. *)
Ltac ok_inv H :=
  repeat match type of H with
  | _ ≫= _ = Ok _ =>
      let a := fresh "a" in
      let Ha := fresh "Hstep" in
      apply bind_Ok_inv in H as (a & Ha & H);
      try apply assert_Ok_inv in Ha
  | assert _ = Ok _ => apply assert_Ok_inv in H
  | Ok _ = Ok _ => injection H as H
  end.

Lemma foldM_cons {A S} (f : S → A → res S) (x : A) (l : list A) (s : S) :
  foldM f (x :: l) s = f s x ≫= foldM f l.
Proof. reflexivity. Qed.

Lemma foldM_app {A S} (f : S → A → res S) (l1 l2 : list A) (s : S) :
  foldM f (l1 ++ l2) s = foldM f l1 s ≫= foldM f l2.
Proof.
  revert s. induction l1 as [|x l1 IH]; intros s; simpl; [reflexivity|].
  destruct (f s x) as [s'|e]; simpl; [apply IH | reflexivity].
Qed.

Lemma foldM_bind {A B S} (f : S → B → res S) (g : A → list B)
    (l : list A) (s : S) :
  foldM f (l ≫= g) s = foldM (λ s x, foldM f (g x) s) l s.
Proof.
  revert s. induction l as [|x l IH]; intros s; [reflexivity|].
  rewrite bind_cons, foldM_app. simpl.
  destruct (foldM f (g x) s) as [s'|e]; simpl; [apply IH | reflexivity].
Qed.

Lemma foldM_ext {A S} (f g : S → A → res S) (l : list A) (s : S) :
  (∀ s x, x ∈ l → f s x = g s x) → foldM f l s = foldM g l s.
Proof.
  revert s. induction l as [|x l IH]; intros s Hfg; [reflexivity|].
  simpl. rewrite Hfg by left.
  destruct (g s x) as [s'|e]; simpl; [|reflexivity].
  apply IH. intros. apply Hfg. by right.
Qed.

(** A loop keeps an invariant that may mention the items done so far. *)
Lemma foldM_invariant {A S} (f : S → A → res S) (I : list A → S → Prop)
    (l : list A) (s : S) :
  I [] s →
  (∀ done x s, x ∈ l → I done s → ∃ s', f s x = Ok s' ∧ I (done ++ [x]) s') →
  ∃ s', foldM f l s = Ok s' ∧ I l s'.
Proof.
  intros Hs Hstep.
  cut (∀ todo done s, (∀ x, x ∈ todo → x ∈ l) → I done s →
         ∃ s', foldM f todo s = Ok s' ∧ I (done ++ todo) s').
  { intros Hcut. apply (Hcut l [] s); auto. }
  clear s Hs. induction todo as [|x todo IH]; intros done s Hin Hd.
  - exists s. rewrite app_nil_r. auto.
  - destruct (Hstep done x s) as (s1 & Hf & H1); [apply Hin; left | done |].
    destruct (IH (done ++ [x]) s1) as (s2 & Hf2 & H2); [|done|].
    { intros y Hy. apply Hin. by right. }
    exists s2. simpl. rewrite Hf. simpl. rewrite <- app_assoc in H2. auto.
Qed.

Lemma elem_of_row_major_coords (w h c r : Z) :
  (c, r) ∈ row_major_coords w h ↔ (0 ≤ c < w ∧ 0 ≤ r < h).
Proof.
  unfold row_major_coords. rewrite list_elem_of_bind. split.
  - intros (row & (col & Hin & Hc%elem_of_seqZ)%list_elem_of_bind
                & Hr%elem_of_seqZ).
    apply list_elem_of_singleton in Hin. inversion Hin; subst. lia.
  - intros [Hc Hr]. exists r. split; [|apply elem_of_seqZ; lia].
    apply list_elem_of_bind. exists c.
    split; [apply list_elem_of_singleton; reflexivity|].
    apply elem_of_seqZ; lia.
Qed.

Lemma elem_of_col_major_coords (w h c r : Z) :
  (c, r) ∈ col_major_coords w h ↔ (0 ≤ c < w ∧ 0 ≤ r < h).
Proof.
  unfold col_major_coords. rewrite list_elem_of_bind. split.
  - intros (col & (row & Hin & Hr%elem_of_seqZ)%list_elem_of_bind
                & Hc%elem_of_seqZ).
    apply list_elem_of_singleton in Hin. inversion Hin; subst. lia.
  - intros [Hc Hr]. exists c. split; [|apply elem_of_seqZ; lia].
    apply list_elem_of_bind. exists r.
    split; [apply list_elem_of_singleton; reflexivity|].
    apply elem_of_seqZ; lia.
Qed.

Lemma NoDup_row_major_coords (w h : Z) : NoDup (row_major_coords w h).
Proof.
  unfold row_major_coords. apply NoDup_bind; [| |apply NoDup_seqZ].
  - intros r1 r2 [c r] _ _ (c1 & H1 & _)%list_elem_of_bind
                          (c2 & H2 & _)%list_elem_of_bind.
    apply list_elem_of_singleton in H1, H2. congruence.
  - intros r _. apply NoDup_bind; [| |apply NoDup_seqZ].
    + intros c1 c2 y _ _ H1%list_elem_of_singleton H2%list_elem_of_singleton.
      congruence.
    + intros. apply NoDup_singleton.
Qed.

Lemma NoDup_col_major_coords (w h : Z) : NoDup (col_major_coords w h).
Proof.
  unfold col_major_coords. apply NoDup_bind; [| |apply NoDup_seqZ].
  - intros c1 c2 [c r] _ _ (r1 & H1 & _)%list_elem_of_bind
                          (r2 & H2 & _)%list_elem_of_bind.
    apply list_elem_of_singleton in H1, H2. congruence.
  - intros c _. apply NoDup_bind; [| |apply NoDup_seqZ].
    + intros r1 r2 y _ _ H1%list_elem_of_singleton H2%list_elem_of_singleton.
      congruence.
    + intros. apply NoDup_singleton.
Qed.

Lemma col_major_row_major_perm (w h : Z) :
  col_major_coords w h ≡ₚ row_major_coords w h.
Proof.
  apply NoDup_Permutation;
    [apply NoDup_col_major_coords | apply NoDup_row_major_coords |].
  intros [c r]. rewrite elem_of_col_major_coords, elem_of_row_major_coords.
  reflexivity.
Qed.

(** ** The fixed-capacity buffer *)

Section UArray_facts.
Context {E : Type} `{Zero E}.
Implicit Types ua : UArray_T E.

Lemma UArray_new_ok (n s : Z) :
  0 ≤ n → 0 < s →
  UArray_new (E:=E) n s
    = Ok (UArray_Make n s (replicate (Z.to_nat n) zero)).
Proof.
  intros Hn Hs. unfold UArray_new.
  rewrite (assert_true (0 <=? n)) by lia. rewrite bind_Ok.
  rewrite (assert_true (0 <? s)) by lia. reflexivity.
Qed.

Lemma UArray_new_wf (n s : Z) ua :
  UArray_new n s = Ok ua →
  UArray_wf ua ∧ UArray_length ua = n ∧ UArray_size ua = s.
Proof.
  unfold UArray_new. intros Hnew. ok_inv Hnew. subst ua.
  unfold UArray_wf. simpl. rewrite length_replicate. lia.
Qed.

Lemma UArray_at_ok ua (i : Z) :
  0 ≤ i < UArray_length ua → UArray_at ua i = Ok i.
Proof.
  intros Hi. unfold UArray_at. rewrite assert_true by lia. reflexivity.
Qed.

Lemma UArray_at_inv ua (i p : Z) :
  UArray_at ua i = Ok p → p = i ∧ 0 ≤ i < UArray_length ua.
Proof. unfold UArray_at. intros Hat. ok_inv Hat. lia. Qed.

Lemma UArray_deref_lookup ua (p : Z) (v : E) :
  UArray_deref ua p = Ok v ↔
  0 ≤ p < UArray_length ua ∧ UArray_elems ua !! Z.to_nat p = Some v.
Proof.
  unfold UArray_deref.
  destruct ((0 <=? p) && (p <? UArray_length ua)) eqn:Hb.
  - destruct (UArray_elems ua !! Z.to_nat p) as [x|].
    + split; [intros [= ->]; split; [lia | done]|].
      intros [_ [= ->]]. reflexivity.
    + split; [discriminate | intros [_ [=]]].
  - split; [discriminate | lia].
Qed.

Lemma UArray_deref_ok ua (p : Z) :
  UArray_wf ua → 0 ≤ p < UArray_length ua → ∃ v, UArray_deref ua p = Ok v.
Proof.
  intros [_ Hlen] Hp.
  destruct (lookup_lt_is_Some_2 (UArray_elems ua) (Z.to_nat p)) as [v Hv];
    [lia|].
  exists v. apply UArray_deref_lookup. auto.
Qed.

Lemma UArray_assign_ok ua (p : Z) (v : E) :
  0 ≤ p < UArray_length ua →
  UArray_assign ua p v
    = Ok (UArray_Make (UArray_length ua) (UArray_size ua)
                      (<[Z.to_nat p := v]> (UArray_elems ua))).
Proof.
  intros Hp. unfold UArray_assign.
  replace ((0 <=? p) && (p <? UArray_length ua)) with true by lia.
  reflexivity.
Qed.

Lemma UArray_assign_inv ua ua' (p : Z) (v : E) :
  UArray_assign ua p v = Ok ua' →
  0 ≤ p < UArray_length ua ∧
  ua' = UArray_Make (UArray_length ua) (UArray_size ua)
                    (<[Z.to_nat p := v]> (UArray_elems ua)).
Proof.
  unfold UArray_assign.
  destruct ((0 <=? p) && (p <? UArray_length ua)) eqn:Hb; [|discriminate].
  intros [= <-]. split; [lia | reflexivity].
Qed.

Lemma UArray_assign_wf ua ua' (p : Z) (v : E) :
  UArray_wf ua → UArray_assign ua p v = Ok ua' →
  UArray_wf ua' ∧ UArray_length ua' = UArray_length ua.
Proof.
  intros [H0 Hlen] (Hp & ->)%UArray_assign_inv.
  unfold UArray_wf. simpl. rewrite length_insert. auto.
Qed.

Lemma UArray_deref_assign ua ua' (p : Z) (v : E) :
  UArray_wf ua → UArray_assign ua p v = Ok ua' →
  ∀ q, UArray_deref ua' q
       = if decide (q = p) then Ok v else UArray_deref ua q.
Proof.
  intros [H0 Hlen] (Hp & ->)%UArray_assign_inv q.
  unfold UArray_deref. simpl. case_decide as Hq.
  - subst q. replace ((0 <=? p) && (p <? UArray_length ua)) with true by lia.
    rewrite list_lookup_insert_eq by lia. reflexivity.
  - destruct ((0 <=? q) && (q <? UArray_length ua)) eqn:Hb; [|reflexivity].
    rewrite list_lookup_insert_ne by lia. reflexivity.
Qed.
End UArray_facts.

(** ** The plain 2D array *)

Lemma for_upto_nested {S} (n m : Z) (body : Z → Z → S → res S) (s : S) :
  for_upto n (λ i, for_upto m (λ j, body i j)) s
  = foldM (λ s ij, body ij.1 ij.2 s) (i ← seqZ 0 n; j ← seqZ 0 m; [(i, j)]) s.
Proof.
  unfold for_upto. rewrite foldM_bind. apply foldM_ext. intros s1 i _.
  rewrite foldM_bind. apply foldM_ext. intros s2 j _. simpl.
  destruct (body i j s2); reflexivity.
Qed.

Section UArray2_facts.
Context {E : Type} `{Zero E}.
Implicit Types a : UArray2_T E.

Lemma UArray2_new_ok (w h s : Z) :
  0 < w → 0 < h → 0 < s →
  ∃ a, UArray2_new (E:=E) w h s = Ok a ∧ UArray2_wf a ∧
       UArray2_width a = w ∧ UArray2_height a = h ∧ UArray2_size a = s ∧
       UArray_elems (UArray2_elems a)
         = replicate (Z.to_nat (w * h)) zero.
Proof.
  intros Hw Hh Hs. unfold UArray2_new.
  rewrite assert_true by lia. rewrite bind_Ok.
  rewrite UArray_new_ok by nia. rewrite bind_Ok.
  eexists. split; [reflexivity|].
  unfold UArray2_wf, UArray_wf. simpl. rewrite length_replicate.
  repeat split; nia.
Qed.

Lemma UArray2_new_inv (w h s : Z) a :
  UArray2_new w h s = Ok a →
  0 < w ∧ 0 < h ∧ 0 < s ∧ UArray2_wf a ∧
  UArray2_width a = w ∧ UArray2_height a = h.
Proof.
  intros Hnew.
  assert (0 < w ∧ 0 < h ∧ 0 < s) as (Hw & Hh & Hs).
  { unfold UArray2_new in Hnew. ok_inv Hnew. lia. }
  destruct (UArray2_new_ok w h s) as (a' & Ha' & ? & ? & ? & ?); try done.
  rewrite Hnew in Ha'. injection Ha' as ->. split_and!; done.
Qed.

Lemma UArray2_at_ok a (col row : Z) :
  UArray2_wf a →
  0 ≤ col < UArray2_width a → 0 ≤ row < UArray2_height a →
  UArray2_at a col row = Ok (row * UArray2_width a + col).
Proof.
  intros (Hw & Hh & _ & Hlen) Hc Hr. unfold UArray2_at.
  rewrite assert_true by lia. rewrite bind_Ok.
  apply UArray_at_ok. nia.
Qed.

Lemma UArray2_at_inv a (col row p : Z) :
  UArray2_at a col row = Ok p →
  0 ≤ col < UArray2_width a ∧ 0 ≤ row < UArray2_height a ∧
  p = row * UArray2_width a + col.
Proof.
  unfold UArray2_at. intros Hat. ok_inv Hat.
  apply UArray_at_inv in Hat as [-> _]. lia.
Qed.

Lemma UArray2_assign_wf a a' (p : Z) (v : E) :
  UArray2_wf a → UArray2_assign a p v = Ok a' →
  UArray2_wf a' ∧ UArray2_width a' = UArray2_width a ∧
  UArray2_height a' = UArray2_height a ∧
  UArray2_size a' = UArray2_size a.
Proof.
  intros (Hw & Hh & Hwf & Hlen) Has. unfold UArray2_assign in Has.
  ok_inv Has. subst a'.
  destruct (UArray_assign_wf _ _ _ _ Hwf Hstep) as [Hwf' Hlen'].
  unfold UArray2_wf. simpl. rewrite Hlen'. auto.
Qed.

Lemma UArray2_assign_ok a (p : Z) (v : E) :
  0 ≤ p < UArray_length (UArray2_elems a) →
  ∃ a', UArray2_assign a p v = Ok a'.
Proof.
  intros Hp. unfold UArray2_assign. rewrite UArray_assign_ok by done.
  rewrite bind_Ok. eauto.
Qed.

Lemma UArray2_deref_assign a a' (p : Z) (v : E) :
  UArray2_wf a → UArray2_assign a p v = Ok a' →
  ∀ q, UArray2_deref a' q
       = if decide (q = p) then Ok v else UArray2_deref a q.
Proof.
  intros (_ & _ & Hwf & _) Has q. unfold UArray2_assign in Has.
  ok_inv Has. subst a'. unfold UArray2_deref. simpl.
  eapply UArray_deref_assign; eauto.
Qed.

Lemma UArray2_at_assign a a' (p : Z) (v : E) (col row : Z) :
  UArray2_assign a p v = Ok a' →
  UArray2_at a' col row = UArray2_at a col row.
Proof.
  intros Has. unfold UArray2_assign in Has. ok_inv Has. subst a'.
  apply UArray_assign_inv in Hstep as [_ ->]. reflexivity.
Qed.

Lemma UArray2_map_row_major_foldM {S} a (apply : UArray2_applyfun E S)
    (cl : S) :
  UArray2_map_row_major a apply cl
  = foldM (λ st cr, UArray2_visit apply cr.1 cr.2 st)
          (row_major_coords (UArray2_width a) (UArray2_height a)) (a, cl).
Proof.
  unfold UArray2_map_row_major, row_major_coords.
  rewrite for_upto_nested.
  rewrite !foldM_bind. apply foldM_ext. intros s1 r _.
  rewrite !foldM_bind. apply foldM_ext. intros s2 c _. reflexivity.
Qed.

Lemma UArray2_map_col_major_foldM {S} a (apply : UArray2_applyfun E S)
    (cl : S) :
  UArray2_map_col_major a apply cl
  = foldM (λ st cr, UArray2_visit apply cr.1 cr.2 st)
          (col_major_coords (UArray2_width a) (UArray2_height a)) (a, cl).
Proof.
  unfold UArray2_map_col_major, col_major_coords.
  rewrite for_upto_nested.
  rewrite !foldM_bind. apply foldM_ext. intros s1 c _.
  rewrite !foldM_bind. apply foldM_ext. intros s2 r _. reflexivity.
Qed.
End UArray2_facts.

(** ** The blocked 2D array *)

Lemma ceil_div_bounds (a b : Z) :
  0 < b → (ceil_div a b - 1) * b < a ≤ ceil_div a b * b.
Proof.
  intros Hb. unfold ceil_div.
  pose proof (Z.div_mod (- a) b) as Hdm.
  pose proof (Z.mod_pos_bound (- a) b Hb). nia.
Qed.

Lemma ceil_div_pos (a b : Z) : 0 < b → 0 < a → 0 < ceil_div a b.
Proof. intros Hb Ha. pose proof (ceil_div_bounds a b Hb). nia. Qed.

Lemma div_lt_ceil_div (a b c : Z) :
  0 < b → 0 ≤ c < a → 0 ≤ c `div` b < ceil_div a b.
Proof.
  intros Hb Hc. pose proof (ceil_div_bounds a b Hb).
  pose proof (Z.div_mod c b). pose proof (Z.mod_pos_bound c b Hb).
  split; [apply Z.div_pos; lia | nia].
Qed.

Section UArray2b_facts.
Context {E : Type} `{Zero E}.
Implicit Types a : UArray2b_T E.

Lemma int_wrap_id (v : Z) : - 2 ^ 31 ≤ v ≤ INT_MAX → int_wrap v = v.
Proof.
  unfold int_wrap, INT_MAX. intros Hv. rewrite Z.mod_small by lia. lia.
Qed.

(** What [UArray2b_init] builds whenever the length that [cell_init]
    computes is not negative: a block grid in which every block has
    that length. *)
Lemma UArray2b_init_capacity (w h s bs : Z) :
  0 < w → 0 < h → 0 < s → 0 < bs → bs ≤ w → bs ≤ h →
  0 ≤ int_wrap (bs * bs) →
  ∃ a, UArray2b_init (E:=E) w h s bs = Ok a ∧
       UArray2b_width a = w ∧ UArray2b_height a = h ∧
       UArray2b_size a = s ∧ UArray2b_blocksize a = bs ∧
       UArray2_wf (UArray2b_blocks a) ∧
       UArray2_width (UArray2b_blocks a) = ceil_div w bs ∧
       UArray2_height (UArray2b_blocks a) = ceil_div h bs ∧
       ∀ i, 0 ≤ i < ceil_div w bs * ceil_div h bs →
         ∃ b, UArray2_deref (UArray2b_blocks a) i = Ok (Some b) ∧
              UArray_wf b ∧ UArray_length b = int_wrap (bs * bs).
Proof.
  intros Hw Hh Hs Hbs Hbw Hbh Hcap. unfold UArray2b_init.
  rewrite assert_true by lia. rewrite bind_Ok.
  rewrite assert_true by lia. rewrite bind_Ok.
  unfold blocks_init. simpl.
  pose proof (ceil_div_pos w bs Hbs Hw) as Hcw.
  pose proof (ceil_div_pos h bs Hbs Hh) as Hch.
  destruct (UArray2_new_ok (E:=option (UArray_T E)) (ceil_div w bs)
              (ceil_div h bs) sizeof_UArray_T)
    as (blocks & Hnew & Hwf & Hbw' & Hbh' & _); [done..|].
  rewrite Hnew, bind_Ok. rewrite UArray2_map_row_major_foldM.
  rewrite Hbw', Hbh'.
  set (cl := UArray2b_Make w h s bs blocks).
  set (cap := int_wrap (bs * bs)) in *.
  destruct (foldM_invariant
    (λ st cr, UArray2_visit cell_init cr.1 cr.2 st)
    (λ done st,
       st.2 = cl ∧ UArray2_wf st.1 ∧
       UArray2_width st.1 = ceil_div w bs ∧
       UArray2_height st.1 = ceil_div h bs ∧
       ∀ c r, (c, r) ∈ done →
         ∃ b, UArray2_deref st.1 (r * ceil_div w bs + c) = Ok (Some b) ∧
              UArray_wf b ∧ UArray_length b = cap)
    (row_major_coords (ceil_div w bs) (ceil_div h bs)) (blocks, cl))
    as ([blocks' cl'] & Hfold & Hcl & Hwf' & Hw' & Hh' & Hall).
  { simpl. split_and!; try done. intros c r Hin. inversion Hin. }
  { intros done [c r] [b0 cl0] Hin (Hcl0 & Hwf0 & Hw0 & Hh0 & Hdone).
    simpl in *. subst cl0. apply elem_of_row_major_coords in Hin.
    unfold UArray2_visit. simpl.
    rewrite UArray2_at_ok by (rewrite ?Hw0, ?Hh0; done || lia).
    rewrite bind_Ok. unfold cell_init. simpl. fold cap.
    rewrite UArray_new_ok by lia. rewrite bind_Ok. rewrite Hw0.
    destruct (UArray2_assign_ok b0 (r * ceil_div w bs + c)
      (Some (UArray_Make cap s (replicate (Z.to_nat cap) (zero : E)))))
      as (b1 & Has).
    { destruct Hwf0 as (_ & _ & _ & ->). rewrite Hw0, Hh0. nia. }
    rewrite Has, bind_Ok. eexists. split; [reflexivity|]. simpl.
    destruct (UArray2_assign_wf _ _ _ _ Hwf0 Has) as (? & ? & ? & ?).
    split_and!; try done; try congruence.
    intros c' r' Hin'. rewrite (UArray2_deref_assign _ _ _ _ Hwf0 Has).
    case_decide as Heq.
    - eexists. split; [reflexivity|]. unfold UArray_wf. simpl.
      rewrite length_replicate. split; [|reflexivity]. lia.
    - apply elem_of_app in Hin' as [Hin'|Hin']; [by apply Hdone|].
      apply list_elem_of_singleton in Hin'. congruence. }
  simpl in *. subst cl'. rewrite Hfold, bind_Ok.
  eexists. split; [reflexivity|]. simpl.
  split_and!; try done.
  intros i Hi.
  replace i with ((i `div` ceil_div w bs) * ceil_div w bs
                  + i `mod` ceil_div w bs)
    by (pose proof (Z.div_mod i (ceil_div w bs)); lia).
  apply Hall. apply elem_of_row_major_coords.
  pose proof (Z.mod_pos_bound i (ceil_div w bs) Hcw).
  pose proof (Z.div_mod i (ceil_div w bs)).
  split; [lia|]. split; [apply Z.div_pos; lia | nia].
Qed.

(** With a blocksize whose square is an [int], [UArray2b_init] builds
    a grid that satisfies the representation invariant. *)
Lemma UArray2b_init_ok (w h s bs : Z) :
  0 < w → 0 < h → 0 < s → 0 < bs → bs ≤ w → bs ≤ h →
  bs * bs ≤ INT_MAX →
  ∃ a, UArray2b_init (E:=E) w h s bs = Ok a ∧ UArray2b_wf a ∧
       UArray2b_width a = w ∧ UArray2b_height a = h ∧
       UArray2b_size a = s ∧ UArray2b_blocksize a = bs.
Proof.
  intros Hw Hh Hs Hbs Hbw Hbh Hint.
  assert (int_wrap (bs * bs) = bs * bs) as Hcap
    by (apply int_wrap_id; nia).
  destruct (UArray2b_init_capacity w h s bs)
    as (a & Hinit & Haw & Hah & Has & Habs & Hwf & Hbw' & Hbh' & Hblk);
    [done..|nia|].
  exists a. split; [done|]. split; [|done].
  unfold UArray2b_wf. rewrite Haw, Hah, Habs, Hbw', Hbh', <- Hcap.
  done.
Qed.

(** With a blocksize whose square wraps around to a negative [int],
    the first call of [cell_init] fails the assertion of [UArray_new]
    on the length. *)
Lemma UArray2b_init_overflow (w h s bs : Z) :
  0 < w → 0 < h → 0 < s → 0 < bs → bs ≤ w → bs ≤ h →
  int_wrap (bs * bs) < 0 →
  UArray2b_init (E:=E) w h s bs = Err Assert_Failed.
Proof.
  intros Hw Hh Hs Hbs Hbw Hbh Hcap. unfold UArray2b_init.
  rewrite assert_true by lia. rewrite bind_Ok.
  rewrite assert_true by lia. rewrite bind_Ok.
  unfold blocks_init. simpl.
  pose proof (ceil_div_pos w bs Hbs Hw) as Hcw.
  pose proof (ceil_div_pos h bs Hbs Hh) as Hch.
  destruct (UArray2_new_ok (E:=option (UArray_T E)) (ceil_div w bs)
              (ceil_div h bs) sizeof_UArray_T)
    as (blocks & Hnew & Hwf & Hbw' & Hbh' & _); [done..|].
  rewrite Hnew, bind_Ok. rewrite UArray2_map_row_major_foldM.
  rewrite Hbw', Hbh'.
  assert (∃ rest, row_major_coords (ceil_div w bs) (ceil_div h bs)
                  = (0, 0) :: rest) as [rest ->].
  { unfold row_major_coords. rewrite (seqZ_cons 0 (ceil_div h bs)) by lia.
    rewrite (seqZ_cons 0 (ceil_div w bs)) by lia. simpl. eauto. }
  rewrite foldM_cons. cbv beta. unfold UArray2_visit. cbn [fst snd].
  rewrite UArray2_at_ok by (rewrite ?Hbw', ?Hbh'; done || lia).
  rewrite bind_Ok. unfold cell_init. cbv zeta. cbn [UArray2b_blocksize].
  unfold UArray_new.
  rewrite (assert_false (0 <=? int_wrap (bs * bs))) by lia. reflexivity.
Qed.

(** Where [UArray2b_at] finds an element: the block's cell in the block
    grid and the offset in the block. *)
Lemma UArray2b_at_ok a (col row : Z) :
  UArray2b_wf a →
  0 ≤ col < UArray2b_width a → 0 ≤ row < UArray2b_height a →
  let bs := UArray2b_blocksize a in
  UArray2b_at a col row
  = Ok ((row `div` bs) * UArray2_width (UArray2b_blocks a) + col `div` bs,
        bs * (row `mod` bs) + col `mod` bs).
Proof.
  intros (Hw & Hh & Hbs & Hbw & Hbh & Hwf & Hbw' & Hbh' & Hblk) Hc Hr bs.
  fold bs in Hbs, Hbw, Hbh, Hbw', Hbh', Hblk.
  unfold UArray2b_at. fold bs.
  rewrite assert_true by lia. rewrite bind_Ok.
  rewrite !Z.quot_div_nonneg, !Z.rem_mod_nonneg by lia.
  pose proof (div_lt_ceil_div _ bs col Hbs Hc).
  pose proof (div_lt_ceil_div _ bs row Hbs Hr).
  rewrite UArray2_at_ok by (done || lia). rewrite bind_Ok.
  destruct (Hblk ((row `div` bs) * UArray2_width (UArray2b_blocks a)
                  + col `div` bs)) as (b & Hb & Hbwf & Hblen); [nia|].
  rewrite Hb, bind_Ok. change (handle (Some b)) with (Ok b).
  rewrite bind_Ok.
  pose proof (Z.mod_pos_bound col bs Hbs).
  pose proof (Z.mod_pos_bound row bs Hbs).
  rewrite UArray_at_ok by nia. reflexivity.
Qed.
End UArray2b_facts.

Lemma quot_rem_unique (n q1 r1 q2 r2 : Z) :
  0 ≤ r1 < n → 0 ≤ r2 < n → q1 * n + r1 = q2 * n + r2 → q1 = q2 ∧ r1 = r2.
Proof.
  intros H1 H2 Heq.
  assert (q1 = q2) as ->
    by (destruct (Z.lt_trichotomy q1 q2) as [?|[?|?]]; [nia | done | nia]).
  lia.
Qed.

Section UArray2b_memory.
Context {E : Type} `{Zero E}.
Implicit Types a : UArray2b_T E.

Lemma UArray2b_at_inv a (col row : Z) (p : UArray2b_ptr) :
  UArray2b_at a col row = Ok p →
  col < UArray2b_width a ∧ row < UArray2b_height a.
Proof. unfold UArray2b_at. intros Hat. ok_inv Hat. lia. Qed.

(** Distinct coordinates of the grid have distinct elements. *)
Lemma UArray2b_at_inj a (c1 r1 c2 r2 : Z) (p : UArray2b_ptr) :
  UArray2b_wf a →
  0 ≤ c1 < UArray2b_width a → 0 ≤ r1 < UArray2b_height a →
  0 ≤ c2 < UArray2b_width a → 0 ≤ r2 < UArray2b_height a →
  UArray2b_at a c1 r1 = Ok p → UArray2b_at a c2 r2 = Ok p →
  c1 = c2 ∧ r1 = r2.
Proof.
  intros Hwf Hc1 Hr1 Hc2 Hr2.
  rewrite !UArray2b_at_ok by done. simpl.
  destruct Hwf as (Hw & Hh & Hbs & Hbw & Hbh & _ & Hbw' & _).
  set (bs := UArray2b_blocksize a) in *.
  intros [= <-] [= Hblk Hoff].
  pose proof (div_lt_ceil_div _ bs c1 Hbs Hc1).
  pose proof (div_lt_ceil_div _ bs c2 Hbs Hc2).
  rewrite <- Hbw' in *.
  apply quot_rem_unique in Hblk as [Hqr Hqc]; [|lia..].
  pose proof (Z.mod_pos_bound c1 bs Hbs).
  pose proof (Z.mod_pos_bound c2 bs Hbs).
  rewrite !(Z.mul_comm bs) in Hoff.
  apply quot_rem_unique in Hoff as [Hmr Hmc]; [|lia..].
  pose proof (Z.div_mod c1 bs). pose proof (Z.div_mod c2 bs).
  pose proof (Z.div_mod r1 bs). pose proof (Z.div_mod r2 bs).
  split; nia.
Qed.

Lemma UArray2b_deref_ok a (col row : Z) (p : UArray2b_ptr) :
  UArray2b_wf a →
  0 ≤ col < UArray2b_width a → 0 ≤ row < UArray2b_height a →
  UArray2b_at a col row = Ok p → ∃ v, UArray2b_deref a p = Ok v.
Proof.
  intros Hwf Hc Hr. rewrite UArray2b_at_ok by done. simpl. intros [= <-].
  destruct Hwf as (Hw & Hh & Hbs & Hbw & Hbh & Hwf & Hbw' & Hbh' & Hblk).
  set (bs := UArray2b_blocksize a) in *.
  pose proof (div_lt_ceil_div _ bs col Hbs Hc).
  pose proof (div_lt_ceil_div _ bs row Hbs Hr).
  pose proof (Z.mod_pos_bound col bs Hbs).
  pose proof (Z.mod_pos_bound row bs Hbs).
  destruct (Hblk ((row `div` bs) * UArray2_width (UArray2b_blocks a)
                  + col `div` bs)) as (b & Hb & Hbwf & Hblen); [nia|].
  unfold UArray2b_deref. simpl. rewrite Hb, bind_Ok.
  change (handle (Some b)) with (Ok b). rewrite bind_Ok.
  apply UArray_deref_ok; [done | nia].
Qed.

(** A write through a pointer that [UArray2b_at] returned: the array
    keeps its shape, every coordinate keeps its pointer, the pointer
    reads back the value written and every other pointer reads what it
    did. *)
Lemma UArray2b_assign_ok a (col row : Z) (p : UArray2b_ptr) (v : E) :
  UArray2b_wf a →
  0 ≤ col < UArray2b_width a → 0 ≤ row < UArray2b_height a →
  UArray2b_at a col row = Ok p →
  ∃ a', UArray2b_assign a p v = Ok a' ∧ UArray2b_wf a' ∧
        UArray2b_width a' = UArray2b_width a ∧
        UArray2b_height a' = UArray2b_height a ∧
        UArray2b_size a' = UArray2b_size a ∧
        UArray2b_blocksize a' = UArray2b_blocksize a ∧
        (∀ c r, UArray2b_at a' c r = UArray2b_at a c r) ∧
        (∀ q, UArray2b_deref a' q
              = if decide (q = p) then Ok v else UArray2b_deref a q).
Proof.
  intros Hwfa Hc Hr. rewrite UArray2b_at_ok by done. simpl. intros [= <-].
  destruct Hwfa as (Hw & Hh & Hbs & Hbw & Hbh & Hwf & Hbw' & Hbh' & Hblk).
  set (bs := UArray2b_blocksize a) in *.
  set (blocks := UArray2b_blocks a) in *.
  pose proof (div_lt_ceil_div _ bs col Hbs Hc).
  pose proof (div_lt_ceil_div _ bs row Hbs Hr).
  pose proof (Z.mod_pos_bound col bs Hbs).
  pose proof (Z.mod_pos_bound row bs Hbs).
  set (p1 := (row `div` bs) * UArray2_width blocks + col `div` bs).
  set (p2 := bs * (row `mod` bs) + col `mod` bs).
  destruct (Hblk p1) as (b & Hb & Hbwf & Hblen); [unfold p1; nia|].
  assert (0 ≤ p2 < UArray_length b) as Hp2 by (unfold p2; nia).
  unfold UArray2b_assign. simpl. fold blocks. rewrite Hb, bind_Ok.
  change (handle (Some b)) with (Ok b). rewrite bind_Ok.
  pose proof (UArray_assign_ok b p2 v Hp2) as Hb'.
  set (b' := UArray_Make _ _ _) in Hb'. rewrite Hb', bind_Ok.
  destruct (UArray_assign_wf _ _ _ _ Hbwf Hb') as [Hbwf' Hblen'].
  destruct (UArray2_assign_ok blocks p1 (Some b')) as (blocks' & Hbl').
  { destruct Hwf as (_ & _ & _ & ->). unfold p1. nia. }
  rewrite Hbl', bind_Ok. eexists. split; [reflexivity|].
  destruct (UArray2_assign_wf _ _ _ _ Hwf Hbl') as (Hwf' & Hw' & Hh' & _).
  pose proof (UArray2_deref_assign blocks blocks' p1 (Some b') Hwf Hbl')
    as Hderef.
  split.
  { unfold UArray2b_wf. simpl. fold bs. split_and!; try done;
      try congruence.
    rewrite Hw', Hh'. intros i Hi. rewrite (Hderef i). case_decide.
    - exists b'. split_and!; [done | done | congruence].
    - by apply Hblk. }
  simpl. split_and!; try done.
  - intros c r. unfold UArray2b_at. simpl. fold bs blocks.
    destruct (assert _) as [[]|]; [|reflexivity]. rewrite !bind_Ok.
    rewrite (UArray2_at_assign _ _ _ _ _ _ Hbl').
    destruct (UArray2_at blocks _ _) as [cb|]; [|reflexivity].
    rewrite !bind_Ok, (Hderef cb). case_decide as Hcb; [|reflexivity].
    subst cb. rewrite Hb, !bind_Ok.
    change (handle (Some b')) with (Ok b').
    change (handle (Some b)) with (Ok b). rewrite !bind_Ok.
    unfold UArray_at. rewrite Hblen'. reflexivity.
  - intros [q1 q2]. unfold UArray2b_deref. simpl. fold blocks.
    rewrite (Hderef q1). case_decide as Hq1.
    + subst q1. rewrite Hb, !bind_Ok.
      change (handle (Some b')) with (Ok b').
      change (handle (Some b)) with (Ok b). rewrite !bind_Ok.
      rewrite (UArray_deref_assign _ _ _ _ Hbwf Hb' q2).
      repeat case_decide; congruence.
    + case_decide; [congruence | reflexivity].
Qed.
End UArray2b_memory.

(** The arithmetic of [UArray2b_at] and of the cell coordinates of
    [UArray2b_map] stays within [int] on a grid whose dimensions and
    block capacity are [int]s. *)
Lemma UArray2b_int_range {E} (a : UArray2b_T E) (col row : Z) :
  UArray2b_wf a →
  UArray2b_width a ≤ INT_MAX → UArray2b_height a ≤ INT_MAX →
  UArray2b_blocksize a * UArray2b_blocksize a ≤ INT_MAX →
  0 ≤ col < UArray2b_width a → 0 ≤ row < UArray2b_height a →
  let bs := UArray2b_blocksize a in
  0 ≤ col `quot` bs ≤ INT_MAX ∧ 0 ≤ row `quot` bs ≤ INT_MAX ∧
  0 ≤ col `rem` bs < bs ∧ 0 ≤ row `rem` bs < bs ∧
  0 ≤ bs * (row `rem` bs) ≤ INT_MAX ∧
  0 ≤ bs * (row `rem` bs) + col `rem` bs ≤ INT_MAX ∧
  0 ≤ (col `quot` bs) * bs ≤ INT_MAX ∧ 0 ≤ (row `quot` bs) * bs ≤ INT_MAX.
Proof.
  intros (_ & _ & Hbs & _) Hw Hh Hcap Hc Hr bs. fold bs in Hbs, Hcap.
  rewrite !Z.quot_div_nonneg, !Z.rem_mod_nonneg by lia.
  pose proof (Z.div_mod col bs). pose proof (Z.div_mod row bs).
  pose proof (Z.mod_pos_bound col bs Hbs).
  pose proof (Z.mod_pos_bound row bs Hbs).
  pose proof (Z.div_pos col bs). pose proof (Z.div_pos row bs).
  split_and!; try lia; try nia.
Qed.

(** ** The block-major traversal *)

(** Unfold membership in a list built by nested comprehensions. *)
Ltac unbind :=
  repeat match goal with
  | H : _ ∈ _ ≫= _ |- _ =>
      let z := fresh "z" in
      let Hz := fresh "Hz" in
      apply list_elem_of_bind in H as (z & H & Hz)
  | H : _ ∈ [_] |- _ => apply list_elem_of_singleton in H
  | H : _ ∈ seqZ _ _ |- _ => apply elem_of_seqZ in H
  end.

(** The extent of a block: a full block, except that the last block ends
    where the grid ends. *)
Lemma blk_extent_spec (extent bs blk : Z) :
  0 < bs → 0 < extent → 0 ≤ blk < ceil_div extent bs →
  let x := blk_extent blk (ceil_div extent bs) extent bs in
  0 < x ≤ bs ∧
  (blk < ceil_div extent bs - 1 → x = bs) ∧
  (blk = ceil_div extent bs - 1 → blk * bs + x = extent).
Proof.
  intros Hbs He Hblk x. subst x. unfold blk_extent.
  pose proof (ceil_div_bounds extent bs Hbs) as Hcd.
  rewrite Z.rem_mod_nonneg by lia.
  pose proof (Z.mod_pos_bound extent bs Hbs) as Hmod.
  pose proof (Z.div_mod extent bs) as Hdm.
  destruct (blk =? ceil_div extent bs - 1) eqn:Hlast; simpl;
    [|split_and!; lia].
  destruct (extent `mod` bs =? 0) eqn:Hz; simpl.
  - split_and!; [lia | lia | done |]. intros ->.
    assert (extent `div` bs = ceil_div extent bs) by nia. nia.
  - split_and!; [lia | lia | lia |]. intros ->.
    assert (extent `div` bs = ceil_div extent bs - 1) by nia. nia.
Qed.

Lemma blk_extent_last (extent bs : Z) :
  blk_extent (ceil_div extent bs - 1) (ceil_div extent bs) extent bs
  = if extent `rem` bs =? 0 then bs else extent `rem` bs.
Proof.
  unfold blk_extent. rewrite Z.eqb_refl. simpl.
  destruct (extent `rem` bs =? 0); reflexivity.
Qed.

(** Along one dimension the blocks tile the extent: every cell lies in
    the clipped part of exactly the block [c / bs], at offset [c mod bs]. *)
Lemma blk_tiling (extent bs blk x : Z) :
  0 < bs → 0 < extent → 0 ≤ blk < ceil_div extent bs →
  0 ≤ x < blk_extent blk (ceil_div extent bs) extent bs →
  0 ≤ blk * bs + x < extent ∧
  (blk * bs + x) `div` bs = blk ∧ (blk * bs + x) `mod` bs = x.
Proof.
  intros Hbs He Hblk Hx.
  destruct (blk_extent_spec extent bs blk Hbs He Hblk) as (Hx1 & Hx2 & Hx3).
  pose proof (ceil_div_bounds extent bs Hbs) as Hcd.
  assert (0 ≤ x < bs) as Hxbs by lia.
  split.
  - destruct (decide (blk = ceil_div extent bs - 1)) as [Hl|Hl].
    + specialize (Hx3 Hl). nia.
    + nia.
  - rewrite Z.add_comm. rewrite Z.div_add, Z.mod_add by lia.
    rewrite Z.div_small, Z.mod_small by lia. lia.
Qed.

Lemma blk_covering (extent bs c : Z) :
  0 < bs → 0 < extent → 0 ≤ c < extent →
  0 ≤ c `div` bs < ceil_div extent bs ∧
  0 ≤ c `mod` bs
    < blk_extent (c `div` bs) (ceil_div extent bs) extent bs.
Proof.
  intros Hbs He Hc.
  pose proof (div_lt_ceil_div extent bs c Hbs Hc) as Hdiv.
  split; [done|].
  destruct (blk_extent_spec extent bs (c `div` bs) Hbs He Hdiv)
    as (Hx1 & Hx2 & Hx3).
  pose proof (Z.mod_pos_bound c bs Hbs). pose proof (Z.div_mod c bs).
  destruct (decide (c `div` bs = ceil_div extent bs - 1)) as [Hl|Hl].
  - specialize (Hx3 Hl). nia.
  - rewrite Hx2 by lia. lia.
Qed.

Lemma elem_of_block_major_coords (w h bs c r : Z) :
  0 < w → 0 < h → 0 < bs →
  (c, r) ∈ block_major_coords w h bs ↔ (0 ≤ c < w ∧ 0 ≤ r < h).
Proof.
  intros Hw Hh Hbs. unfold block_major_coords. split.
  - intros Hin. unbind. injection Hin as -> ->.
    pose proof (blk_tiling w bs z0 z2 Hbs Hw ltac:(lia) ltac:(lia)).
    pose proof (blk_tiling h bs z z1 Hbs Hh ltac:(lia) ltac:(lia)). lia.
  - intros [Hc Hr].
    destruct (blk_covering w bs c Hbs Hw Hc) as [Hc1 Hc2].
    destruct (blk_covering h bs r Hbs Hh Hr) as [Hr1 Hr2].
    apply list_elem_of_bind. exists (r `div` bs).
    split; [|apply elem_of_seqZ; lia].
    apply list_elem_of_bind. exists (c `div` bs).
    split; [|apply elem_of_seqZ; lia].
    apply list_elem_of_bind. exists (r `mod` bs).
    split; [|apply elem_of_seqZ; lia].
    apply list_elem_of_bind. exists (c `mod` bs).
    split; [|apply elem_of_seqZ; lia].
    apply list_elem_of_singleton. f_equal.
    + pose proof (Z.div_mod c bs). lia.
    + pose proof (Z.div_mod r bs). lia.
Qed.

(** Bring in the tiling facts of every block offset in the context. *)
Ltac tile Hbs He :=
  repeat match goal with
  | Hx : 0 ≤ ?x < 0 + blk_extent ?blk (ceil_div ?e ?bs) ?e ?bs |- _ =>
      let F := fresh "Htile" in
      pose proof (blk_tiling e bs blk x Hbs He ltac:(lia) ltac:(lia))
        as (_ & F & _);
      rewrite Z.add_0_l in Hx
  end.

Lemma NoDup_block_major_coords (w h bs : Z) :
  0 < w → 0 < h → 0 < bs → NoDup (block_major_coords w h bs).
Proof.
  intros Hw Hh Hbs. unfold block_major_coords.
  apply NoDup_bind; [| |apply NoDup_seqZ].
  { intros br1 br2 [c r] Hbr1 Hbr2 H1 H2. unbind.
    injection H1 as -> ->. injection H2 as Hc Hr.
    tile Hbs Hh. congruence. }
  intros br Hbr. apply NoDup_bind; [| |apply NoDup_seqZ].
  { intros bc1 bc2 [c r] Hbc1 Hbc2 H1 H2. unbind.
    injection H1 as -> ->. injection H2 as Hc Hr.
    tile Hbs Hw. congruence. }
  intros bc Hbc. apply NoDup_bind; [| |apply NoDup_seqZ].
  { intros y1 y2 [c r] _ _ H1 H2. unbind.
    injection H1 as -> ->. injection H2; intros; lia. }
  intros y _. apply NoDup_bind; [| |apply NoDup_seqZ].
  { intros x1 x2 [c r] _ _ H1 H2. unbind.
    injection H1 as -> ->. injection H2; intros; lia. }
  intros. apply NoDup_singleton.
Qed.

Lemma block_major_row_major_perm (w h bs : Z) :
  0 < w → 0 < h → 0 < bs →
  block_major_coords w h bs ≡ₚ row_major_coords w h.
Proof.
  intros Hw Hh Hbs. apply NoDup_Permutation;
    [by apply NoDup_block_major_coords | apply NoDup_row_major_coords |].
  intros [c r].
  rewrite elem_of_block_major_coords, elem_of_row_major_coords by done.
  reflexivity.
Qed.

Section UArray2b_map_facts.
Context {E : Type} `{Zero E}.

Lemma UArray2b_map_foldM {S} (a : UArray2b_T E)
    (apply : UArray2b_applyfun E S) (cl : S) :
  UArray2_width (UArray2b_blocks a)
    = ceil_div (UArray2b_width a) (UArray2b_blocksize a) →
  UArray2_height (UArray2b_blocks a)
    = ceil_div (UArray2b_height a) (UArray2b_blocksize a) →
  UArray2b_map a apply cl
  = foldM (λ st cr, UArray2b_visit apply cr.1 cr.2 st)
      (block_major_coords (UArray2b_width a) (UArray2b_height a)
                          (UArray2b_blocksize a)) (a, cl).
Proof.
  intros Hbw Hbh. unfold UArray2b_map, block_major_coords, for_upto.
  rewrite Hbw, Hbh.
  rewrite foldM_bind. apply foldM_ext. intros s1 br _.
  rewrite foldM_bind. apply foldM_ext. intros s2 bc _.
  rewrite foldM_bind. apply foldM_ext. intros s3 y _.
  rewrite foldM_bind. apply foldM_ext. intros s4 x _. simpl.
  destruct (UArray2b_visit _ _ _ _); reflexivity.
Qed.
End UArray2b_map_facts.

Section UArray2b_claims.
Context {E : Type} `{Zero E}.
Implicit Types a : UArray2b_T E.

Lemma UArray2b_at_place a (col row : Z) :
  UArray2b_wf a →
  0 ≤ col < UArray2b_width a → 0 ≤ row < UArray2b_height a →
  UArray2b_at a col row = Ok (UArray2b_place a col row).
Proof.
  intros Hwf Hc Hr. rewrite UArray2b_at_ok by done. unfold UArray2b_place.
  destruct Hwf as (_ & _ & Hbs & _).
  rewrite !Z.quot_div_nonneg, !Z.rem_mod_nonneg by lia. reflexivity.
Qed.

Lemma UArray2b_visit_eq {S} (apply : UArray2b_applyfun E S) a
    (col row : Z) (cl : S) :
  UArray2b_visit apply col row (a, cl)
  = UArray2b_at a col row ≫= λ elem, apply col row a elem cl.
Proof. reflexivity. Qed.

Lemma foldM_record_visit a (l : list (Z * Z))
    (log : list (Z * Z * UArray2b_ptr)) :
  UArray2b_wf a →
  (∀ c r, (c, r) ∈ l →
     0 ≤ c < UArray2b_width a ∧ 0 ≤ r < UArray2b_height a) →
  foldM (λ st cr, UArray2b_visit record_visit cr.1 cr.2 st) l (a, log)
  = Ok (a, log ++ ((λ cr, (cr.1, cr.2, UArray2b_place a cr.1 cr.2)) <$> l)).
Proof.
  intros Hwf. revert log. induction l as [|[c r] l IH]; intros log Hin.
  - simpl. by rewrite app_nil_r.
  - rewrite foldM_cons. cbn [fst snd]. rewrite UArray2b_visit_eq.
    destruct (Hin c r) as [Hc Hr]; [left|].
    rewrite UArray2b_at_place by done. rewrite bind_Ok.
    change (record_visit c r a (UArray2b_place a c r) log)
      with (Ok (a, log ++ [(c, r, UArray2b_place a c r)])
              : res (UArray2b_T E * _)).
    rewrite bind_Ok.
    rewrite IH by (intros; apply Hin; by right).
    rewrite fmap_cons. by rewrite <- app_assoc.
Qed.

(** When [UArray2b_at] fails at a coordinate of the traversal, the
    traversal with the logging callback does not come to its end. *)
Lemma foldM_record_visit_fails (a : UArray2b_T E) (c r : Z) (e : error)
    (l : list (Z * Z)) log0 out :
  (c, r) ∈ l → UArray2b_at a c r = Err e →
  foldM (λ st cr, UArray2b_visit record_visit cr.1 cr.2 st) l (a, log0)
  ≠ Ok out.
Proof.
  revert log0. induction l as [|[c' r'] l IH]; intros log0 Hin Hat.
  - inversion Hin.
  - rewrite foldM_cons. cbv beta.
    set (rest := foldM _ l). unfold UArray2b_visit. cbn [fst snd].
    destruct (UArray2b_at a c' r') as [p|e'] eqn:Hat'; [|discriminate].
    rewrite bind_Ok. unfold record_visit. rewrite bind_Ok.
    apply elem_of_cons in Hin as [[= <- <-]|Hin]; [congruence|].
    by apply IH.
Qed.

(** C1.  For every width > 0, height > 0, element size > 0 and
    blocksize with 1 <= blocksize <= min(width, height) whose square is
    an [int] (a blocksize of at most 46340), the blocked
    array is built and its block-major traversal [UArray2b_map] calls
    the callback on the coordinates [block_major_coords], in that
    order, whatever the callback is: the logging callback is called
    once per entry.  That list has no duplicates, holds exactly the
    coordinates of [0,width) x [0,height), and so is a rearrangement of
    the coordinates of the row-major traversal.  The last block-row is
    [height mod blocksize] cells tall when that is nonzero and
    [blocksize] cells tall otherwise, which ends it at the last row of
    the grid; the same holds for the last block-column and the width. *)
Theorem C1_block_major_visits_every_cell_once (width height size bs : Z) :
  0 < width → 0 < height → 0 < size → 1 ≤ bs ≤ Z.min width height →
  bs * bs ≤ INT_MAX →
  ∃ a, UArray2b_new (E:=E) width height size bs = Ok a ∧
    let coords := block_major_coords width height bs in
    (∀ S (apply : UArray2b_applyfun E S) (cl : S),
       UArray2b_map a apply cl
       = foldM (λ st cr, UArray2b_visit apply cr.1 cr.2 st) coords (a, cl)) ∧
    (∃ log, UArray2b_map a record_visit [] = Ok (a, log) ∧
            log.*1 = coords) ∧
    NoDup coords ∧
    (∀ col row, (col, row) ∈ coords ↔
                (0 ≤ col < width ∧ 0 ≤ row < height)) ∧
    coords ≡ₚ row_major_coords width height ∧
    (let last := ceil_div height bs - 1 in
     let blk_h := blk_extent last (ceil_div height bs) height bs in
     blk_h = (if height `mod` bs =? 0 then bs else height `mod` bs) ∧
     last * bs + blk_h = height) ∧
    (let last := ceil_div width bs - 1 in
     let blk_w := blk_extent last (ceil_div width bs) width bs in
     blk_w = (if width `mod` bs =? 0 then bs else width `mod` bs) ∧
     last * bs + blk_w = width).
Proof.
  intros Hw Hh Hs Hbs Hint. unfold UArray2b_new.
  destruct (UArray2b_init_ok (E:=E) width height size bs)
    as (a & Hinit & Hwf & Haw & Hah & _ & Habs); [lia..|].
  exists a. split; [done|]. simpl.
  pose proof Hwf as (_ & _ & _ & _ & _ & _ & Hbw & Hbh & _).
  assert (0 < bs) as Hbs0 by lia.
  split_and!.
  - intros S apply cl. rewrite UArray2b_map_foldM by done.
    by rewrite Haw, Hah, Habs.
  - eexists. rewrite UArray2b_map_foldM by done.
    rewrite Haw, Hah, Habs. rewrite foldM_record_visit; [|done|].
    + split; [reflexivity|]. simpl. rewrite <- list_fmap_compose.
      rewrite <- (list_fmap_id (block_major_coords _ _ _)) at 2.
      apply list_fmap_ext. by intros i [c r] _.
    + intros c r Hin. rewrite Haw, Hah.
      by apply elem_of_block_major_coords in Hin.
  - by apply NoDup_block_major_coords.
  - intros col row. by apply elem_of_block_major_coords.
  - by apply block_major_row_major_perm.
  - rewrite blk_extent_last, Z.rem_mod_nonneg by lia. done.
  - pose proof (ceil_div_pos height bs Hbs0 Hh).
    by apply (blk_extent_spec height bs (ceil_div height bs - 1));
      [..|lia|].
  - rewrite blk_extent_last, Z.rem_mod_nonneg by lia. done.
  - pose proof (ceil_div_pos width bs Hbs0 Hw).
    by apply (blk_extent_spec width bs (ceil_div width bs - 1));
      [..|lia|].
Qed.
End UArray2b_claims.

Lemma C1_witness :
  ∃ a : UArray2b_T Z,
    UArray2b_new 10 10 1 4 = Ok a ∧
    (∃ log, UArray2b_map a record_visit [] = Ok (a, log) ∧
            log.*1 = block_major_coords 10 10 4) ∧
    block_major_coords 10 10 4 ≡ₚ row_major_coords 10 10.
Proof.
  destruct (C1_block_major_visits_every_cell_once (E:=Z) 10 10 1 4)
    as (a & Hnew & _ & Hlog & _ & _ & Hperm & _);
    [lia | lia | lia | lia | unfold INT_MAX; lia |].
  exists a. split; [exact Hnew|]. split; [exact Hlog | exact Hperm].
Defined.

(** C1, where it fails: at a blocksize whose square is not an [int].
    With a width, a height and a blocksize of 46341 the product
    [blocksize * blocksize] of [cell_init] wraps around to a negative
    [int] and the constructor fails the assertion of [UArray_new]: no
    grid is built, and nothing is traversed.  With a width, a height
    and a blocksize of 65537 the product wraps around to 131073: the
    constructor returns a grid whose one block holds 131073 elements,
    [UArray2b_at] fails at the coordinate (0, 2) of that grid, and the
    block-major traversal does not come to its end. *)
Lemma C1_counterexample :
  (1 ≤ 46341 ≤ Z.min 46341 46341 ∧
   UArray2b_new (E:=Z) 46341 46341 1 46341 = Err Assert_Failed) ∧
  (1 ≤ 65537 ≤ Z.min 65537 65537 ∧
   ∃ a : UArray2b_T Z,
     UArray2b_new 65537 65537 1 65537 = Ok a ∧
     UArray2b_at a 0 2 = Err Assert_Failed ∧
     ∀ log, UArray2b_map a record_visit [] ≠ Ok (a, log)).
Proof.
  split.
  - split; [lia|]. apply UArray2b_init_overflow; try lia.
    vm_compute. reflexivity.
  - split; [lia|].
    destruct (UArray2b_init_capacity (E:=Z) 65537 65537 1 65537)
      as (a & Hinit & Haw & Hah & Has & Habs & Hwf & Hbw & Hbh & Hblk);
      [lia.. | vm_compute; discriminate |].
    change (ceil_div 65537 65537) with 1 in Hbw, Hbh, Hblk.
    change (int_wrap (65537 * 65537)) with 131073 in Hblk.
    exists a. split; [exact Hinit|].
    assert (UArray2b_at a 0 2 = Err Assert_Failed) as Hat.
    { destruct (Hblk 0) as (b & Hb & _ & Hlen); [lia|].
      unfold UArray2b_at. rewrite Haw, Hah, Habs.
      rewrite assert_true by reflexivity. rewrite bind_Ok. cbv zeta.
      change (0 `quot` 65537) with 0. change (2 `quot` 65537) with 0.
      rewrite UArray2_at_ok by (done || lia). rewrite bind_Ok, Hbw.
      change (0 * 1 + 0) with 0. rewrite Hb, bind_Ok.
      change (handle (Some b)) with (Ok b). rewrite bind_Ok.
      unfold UArray_at. rewrite Hlen. reflexivity. }
    split; [exact Hat|]. intros log.
    rewrite UArray2b_map_foldM by (rewrite ?Haw, ?Hah, ?Habs; done).
    apply foldM_record_visit_fails with 0 2 Assert_Failed; [|exact Hat].
    rewrite Haw, Hah, Habs. apply elem_of_block_major_coords; lia.
Qed.

(** The integer forms of the [double] operations of the blocksize
    heuristic say what the real square root says. *)
Lemma sqrt_gt_real (n w : Z) :
  0 ≤ n → sqrt_gt n w = true ↔ (IZR w < sqrt (IZR n))%R.
Proof.
  intros Hn. unfold sqrt_gt.
  destruct (Z.ltb_spec w 0) as [Hw|Hw]; simpl.
  - split; [intros _|done].
    apply Rlt_le_trans with 0%R; [by apply IZR_lt | apply sqrt_pos].
  - rewrite Z.ltb_lt.
    assert (sqrt (IZR (w * w)) = IZR w) as Hsq.
    { rewrite mult_IZR. apply sqrt_square. by apply IZR_le. }
    split.
    + intros Hlt. rewrite <- Hsq. apply sqrt_lt_1_alt.
      split; [apply IZR_le; nia | by apply IZR_lt].
    + intros Hlt. destruct (Z.lt_ge_cases (w * w) n) as [|Hge]; [done|].
      apply IZR_le, sqrt_le_1_alt in Hge. rewrite Hsq in Hge. lra.
Qed.

Lemma int_sqrt_real (n : Z) :
  0 ≤ n → (IZR (int_sqrt n) <= sqrt (IZR n) < IZR (int_sqrt n) + 1)%R.
Proof.
  intros Hn. unfold int_sqrt. pose proof (Z.sqrt_spec n Hn) as [Hlo Hhi].
  pose proof (Z.sqrt_nonneg n) as Hs. unfold Z.succ in Hhi.
  rewrite <- (plus_IZR _ 1). split.
  - rewrite <- (sqrt_square (IZR (Z.sqrt n))) by (by apply IZR_le).
    apply sqrt_le_1_alt. rewrite <- mult_IZR. by apply IZR_le.
  - rewrite <- (sqrt_square (IZR (Z.sqrt n + 1))) by (apply IZR_le; lia).
    apply sqrt_lt_1_alt. split; [by apply IZR_le|].
    rewrite <- mult_IZR. by apply IZR_lt.
Qed.

Section UArray2b_access_claims.
Context {E : Type} `{Zero E}.
Implicit Types a : UArray2b_T E.


Lemma UArray2b_at_rejects_large a (col row : Z) :
  UArray2b_width a ≤ col ∨ UArray2b_height a ≤ row →
  UArray2b_at a col row = Err Assert_Failed.
Proof.
  intros Hout. unfold UArray2b_at.
  replace ((col <? UArray2b_width a) && (row <? UArray2b_height a))
    with false by lia.
  reflexivity.
Qed.

Lemma UArray2b_at_rejects_negative_row a (col row : Z) (p : UArray2b_ptr) :
  0 < UArray2b_blocksize a → row < 0 → UArray2b_at a col row ≠ Ok p.
Proof.
  intros Hbs Hrow Hat. unfold UArray2b_at in Hat. ok_inv Hat.
  apply UArray2_at_inv in Hstep0 as (_ & Hq & _).
  apply UArray_at_inv in Hstep3 as (_ & Hoff).
  set (bs := UArray2b_blocksize a) in *.
  assert (col `rem` bs < bs) as Hcr.
  { destruct (decide (0 ≤ col)).
    - pose proof (Z.rem_bound_pos col bs); lia.
    - replace col with (- - col) by lia. rewrite Z.rem_opp_l by lia.
      pose proof (Z.rem_bound_pos (- col) bs). lia. }
  replace row with (- - row) in Hq, Hoff by lia.
  rewrite Z.quot_opp_l in Hq by lia. rewrite Z.rem_opp_l in Hoff by lia.
  rewrite Z.quot_div_nonneg in Hq by lia.
  rewrite Z.rem_mod_nonneg in Hoff by lia.
  pose proof (Z.div_mod (- row) bs) as Hdm.
  pose proof (Z.div_pos (- row) bs). nia.
Qed.

(** The 64K-budget constructor succeeds on positive arguments, and the
    blocksize it picks is the one of the spec's three cases. *)
Lemma UArray2b_new_64K_block_ok (width height size : Z) :
  0 < width → 0 < height → 0 < size →
  ∃ a, UArray2b_new_64K_block (E:=E) width height size = Ok a ∧
    UArray2b_wf a ∧
    UArray2b_width a = width ∧ UArray2b_height a = height ∧
    UArray2b_size a = size ∧
    UArray2b_blocksize a = blocksize_64K_spec width height size ∧
    (let cells := 64000 `quot` size in
     let bs := UArray2b_blocksize a in
     (cells < 1 → bs = 1) ∧
     (1 ≤ cells → width * width < cells ∨ height * height < cells →
      bs = Z.min width height) ∧
     (1 ≤ cells → cells ≤ width * width → cells ≤ height * height →
      bs * bs ≤ cells < (bs + 1) * (bs + 1))).
Proof.
  intros Hw Hh Hs. unfold UArray2b_new_64K_block, c_div.
  replace (size =? 0) with false by lia. rewrite bind_Ok.
  set (cells := 64000 `quot` size).
  set (bs := if cells <? 1 then 1 else _).
  assert (bs = blocksize_64K_spec width height size) as Hspec.
  { subst bs. unfold blocksize_64K_spec, sqrt_gt, int_sqrt. fold cells.
    replace (width <? 0) with false by lia.
    replace (height <? 0) with false by lia. rewrite !orb_false_l.
    destruct (cells <? 1); [done|].
    destruct (_ || _); [|done].
    destruct (height <? width) eqn:Hlt; lia. }
  assert ((cells < 1 → bs = 1) ∧
          (1 ≤ cells → width * width < cells ∨ height * height < cells →
           bs = Z.min width height) ∧
          (1 ≤ cells → cells ≤ width * width → cells ≤ height * height →
           bs * bs ≤ cells < (bs + 1) * (bs + 1))) as Hcases.
  { rewrite Hspec. unfold blocksize_64K_spec. fold cells.
    split_and!.
    - intros. replace (cells <? 1) with true by lia. done.
    - intros. replace (cells <? 1) with false by lia.
      replace ((width * width <? cells) || (height * height <? cells))
        with true by lia. done.
    - intros. replace (cells <? 1) with false by lia.
      replace ((width * width <? cells) || (height * height <? cells))
        with false by lia.
      pose proof (Z.sqrt_spec cells ltac:(lia)) as Hsq.
      unfold Z.succ in Hsq. lia. }
  assert (0 < bs ∧ bs ≤ width ∧ bs ≤ height) as (Hb0 & Hbw & Hbh).
  { destruct Hcases as (H1 & H2 & H3).
    destruct (decide (cells < 1)); [rewrite H1; lia|].
    destruct (decide (width * width < cells ∨ height * height < cells));
      [rewrite H2; lia|].
    specialize (H3 ltac:(lia) ltac:(lia) ltac:(lia)).
    assert (0 ≤ bs).
    { rewrite Hspec. unfold blocksize_64K_spec.
      repeat case_match; try lia. apply Z.sqrt_nonneg. }
    nia. }
  assert (bs * bs ≤ INT_MAX) as Hint.
  { unfold INT_MAX.
    assert (cells ≤ 64000) as Hcells.
    { unfold cells. rewrite Z.quot_div_nonneg by lia.
      apply Z.div_le_upper_bound; nia. }
    destruct Hcases as (H1 & H2 & H3).
    destruct (decide (cells < 1)); [rewrite H1; lia|].
    destruct (decide (width * width < cells ∨ height * height < cells))
      as [Hex|Hex]; [destruct Hex; nia|].
    specialize (H3 ltac:(lia) ltac:(lia) ltac:(lia)). lia. }
  destruct (UArray2b_init_ok (E:=E) width height size bs)
    as (a & Hinit & Hwf & Haw & Hah & Has & Habs); [lia..|].
  exists a. rewrite Habs. do 6 (split; [done|]). exact Hcases.
Qed.

(** C3.  For every width > 0, height > 0 and element size > 0 the
    64K-budget constructor builds a grid of those dimensions whose
    blocksize is the one of the three cases of the spec, with
    cells = 64000 / elementSize: 1 when cells < 1; else min(width,
    height) when the square root of cells exceeds the width or the
    height; else the integer part of the square root of cells.  An
    element size above 64000 gives 1; element size 1 gives 252 for a
    1000 by 1000 grid and 5 for a grid 5 wide and 1000 high. *)
Theorem C3_blocksize_of_the_64K_constructor (width height size : Z) :
  0 < width → 0 < height → 0 < size →
  ∃ a, UArray2b_new_64K_block (E:=E) width height size = Ok a ∧
    UArray2b_width a = width ∧ UArray2b_height a = height ∧
    UArray2b_size a = size ∧
    UArray2b_blocksize a = blocksize_64K_spec width height size ∧
    (let cells := 64000 `quot` size in
     let bs := UArray2b_blocksize a in
     let exceeds :=
       (IZR width < sqrt (IZR cells) ∨ IZR height < sqrt (IZR cells))%R in
     (cells < 1 → bs = 1) ∧
     (1 ≤ cells → exceeds → bs = Z.min width height) ∧
     (1 ≤ cells → ¬ exceeds →
      (IZR bs <= sqrt (IZR cells) < IZR bs + 1)%R)) ∧
    (64000 < size → UArray2b_blocksize a = 1) ∧
    (size = 1 → width = 1000 → height = 1000 →
     UArray2b_blocksize a = 252) ∧
    (size = 1 → width = 5 → height = 1000 → UArray2b_blocksize a = 5).
Proof.
  intros Hw Hh Hs.
  destruct (UArray2b_new_64K_block_ok width height size Hw Hh Hs)
    as (a & Hnew & _ & Haw & Hah & Has & Hspec & Hcases).
  exists a. do 5 (split; [done|]).
  cbv zeta in Hcases. destruct Hcases as (Hc1 & Hc2 & Hc3).
  set (cells := 64000 `quot` size) in *.
  split; [|split; [|split]].
  - cbv zeta. fold cells. split; [exact Hc1|]. split.
    + intros Hcells Hex. apply Hc2; [done|].
      rewrite <- !sqrt_gt_real in Hex by lia. unfold sqrt_gt in Hex.
      replace (width <? 0) with false in Hex by lia.
      replace (height <? 0) with false in Hex by lia.
      rewrite !orb_false_l, !Z.ltb_lt in Hex. exact Hex.
    + intros Hcells Hex.
      assert (cells ≤ width * width ∧ cells ≤ height * height) as [Hlw Hlh].
      { rewrite <- !sqrt_gt_real in Hex by lia. unfold sqrt_gt in Hex.
        replace (width <? 0) with false in Hex by lia.
        replace (height <? 0) with false in Hex by lia.
        rewrite !orb_false_l, !Z.ltb_lt in Hex. lia. }
      specialize (Hc3 Hcells Hlw Hlh).
      assert (UArray2b_blocksize a = int_sqrt cells) as ->.
      { rewrite Hspec. unfold blocksize_64K_spec. fold cells.
        replace (cells <? 1) with false by lia.
        replace ((width * width <? cells) || (height * height <? cells))
          with false by lia.
        reflexivity. }
      apply int_sqrt_real. lia.
  - intros Hbig. apply Hc1. unfold cells. rewrite Z.quot_small; lia.
  - intros -> -> ->. rewrite Hspec. reflexivity.
  - intros -> -> ->. rewrite Hspec. reflexivity.
Qed.
End UArray2b_access_claims.


Lemma C3_witness :
  (∃ a : UArray2b_T Z,
     UArray2b_new_64K_block 1000 1000 1 = Ok a ∧ UArray2b_blocksize a = 252) ∧
  (∃ a : UArray2b_T Z,
     UArray2b_new_64K_block 5 1000 1 = Ok a ∧ UArray2b_blocksize a = 5) ∧
  (∃ a : UArray2b_T Z,
     UArray2b_new_64K_block 7 9 64001 = Ok a ∧ UArray2b_blocksize a = 1).
Proof.
  split_and!.
  - destruct (C3_blocksize_of_the_64K_constructor (E:=Z) 1000 1000 1)
      as (a & Hnew & _ & _ & _ & _ & _ & _ & Hbs & _); [lia..|].
    exists a. split; [exact Hnew | by apply Hbs].
  - destruct (C3_blocksize_of_the_64K_constructor (E:=Z) 5 1000 1)
      as (a & Hnew & _ & _ & _ & _ & _ & _ & _ & Hbs); [lia..|].
    exists a. split; [exact Hnew | by apply Hbs].
  - destruct (C3_blocksize_of_the_64K_constructor (E:=Z) 7 9 64001)
      as (a & Hnew & _ & _ & _ & _ & _ & Hbs & _); [lia..|].
    exists a. split; [exact Hnew | apply Hbs; lia].
Defined.

(** C7.  [UArray2b_at] checks the coordinate against the width and the
    height only.  On a 4 by 4 grid in blocks of 2 the out-of-range
    coordinate (-1, 1) is not refused: the call returns the pointer to
    the element of coordinate (1, 0). *)
Theorem C7_at_returns_an_element_for_a_negative_column :
  ∃ (a : UArray2b_T Z) (p : UArray2b_ptr),
    UArray2b_new 4 4 1 2 = Ok a ∧
    UArray2b_at a (-1) 1 = Ok p ∧
    UArray2b_at a 1 0 = Ok p.
Proof.
  eexists. exists (0, 1). split; [vm_compute; reflexivity|].
  split; reflexivity.
Qed.

(** ** The plain suite keeps the contract *)

Section plain_contract.
Context {E : Type} `{Zero E}.

Let plain : A2Methods.T E := A2Plain.uarray2_methods_plain_struct.

Lemma plain_offers f :
  A2_offers plain f →
  f = A2Plain.map_row_major ∨ f = A2Plain.map_col_major.
Proof.
  unfold A2_offers. simpl. intros [Hf|[Hf|[Hf|Hf]]];
    try discriminate; injection Hf as <-; auto.
Qed.

Lemma plain_contract : A2_contract plain UArray2_wf.
Proof.
  split.
  - intros a (Hw & Hh & _). done.
  - intros w h s Hw Hh Hs.
    destruct (UArray2_new_ok (E:=E) w h s) as (a & Ha & Hwf & ? & ? & _);
      [done..|].
    exists a. done.
  - done.
  - intros a col row Hwf [Hc Hr]. eexists.
    by apply UArray2_at_ok.
  - intros a c1 r1 c2 r2 p Hwf [Hc1 Hr1] [Hc2 Hr2] H1 H2.
    apply UArray2_at_inv in H1 as (_ & _ & ->).
    apply UArray2_at_inv in H2 as (_ & _ & Heq).
    simpl in *. unfold A2Plain.width in *.
    apply quot_rem_unique in Heq as [-> ->]; done.
  - intros a col row p (Hw & Hh & Hwf & Hlen) [Hc Hr] Hat.
    apply UArray2_at_inv in Hat as (_ & _ & ->).
    simpl in *. unfold A2Plain.width, A2Plain.height in *.
    apply UArray_deref_ok; [done | nia].
  - intros a col row p v Hwf [Hc Hr] Hat.
    apply UArray2_at_inv in Hat as (_ & _ & ->).
    simpl in *. unfold A2Plain.width, A2Plain.height in *.
    destruct (UArray2_assign_ok a (row * UArray2_width a + col) v)
      as (a' & Has).
    { destruct Hwf as (_ & _ & _ & ->). nia. }
    exists a'.
    destruct (UArray2_assign_wf _ _ _ _ Hwf Has) as (? & ? & ? & _).
    split_and!; try done.
    + intros c r. exact (UArray2_at_assign a a' _ v c r Has).
    + rewrite (UArray2_deref_assign _ _ _ _ Hwf Has).
      by rewrite decide_True.
    + intros q Hq. rewrite (UArray2_deref_assign _ _ _ _ Hwf Has).
      by rewrite decide_False.
  - intros f a [->| ->]%plain_offers Hwf.
    + exists (row_major_coords (UArray2_width a) (UArray2_height a)).
      split; [intros; apply elem_of_row_major_coords|].
      intros S apply cl. apply UArray2_map_row_major_foldM.
    + exists (col_major_coords (UArray2_width a) (UArray2_height a)).
      split; [intros; apply elem_of_col_major_coords|].
      intros S apply cl. apply UArray2_map_col_major_foldM.
Qed.
End plain_contract.

(** ** The blocked suite keeps the contract *)

Section blocked_contract.
Context {E : Type} `{Zero E}.

Let blocked : A2Methods.T E := A2Blocked.uarray2_methods_blocked_struct.

Lemma blocked_offers f :
  A2_offers blocked f → f = A2Blocked.map_block_major.
Proof.
  unfold A2_offers. simpl. intros [Hf|[Hf|[Hf|Hf]]];
    try discriminate; by injection Hf as <-.
Qed.

Lemma blocked_contract : A2_contract blocked UArray2b_wf.
Proof.
  split.
  - intros a (Hw & Hh & _). done.
  - intros w h s Hw Hh Hs.
    destruct (UArray2b_new_64K_block_ok (E:=E) w h s)
      as (a & Ha & Hwf & ? & ? & _); [done..|].
    exists a. done.
  - done.
  - intros a col row Hwf [Hc Hr]. eexists.
    by apply UArray2b_at_place.
  - intros a c1 r1 c2 r2 p Hwf [Hc1 Hr1] [Hc2 Hr2] H1 H2.
    by apply (UArray2b_at_inj a c1 r1 c2 r2 p).
  - intros a col row p Hwf [Hc Hr] Hat.
    by apply (UArray2b_deref_ok a col row p).
  - intros a col row p v Hwf [Hc Hr] Hat.
    destruct (UArray2b_assign_ok a col row p v Hwf Hc Hr Hat)
      as (a' & Has & Hwf' & Hw' & Hh' & _ & _ & Hat' & Hderef).
    exists a'. split_and!; try done.
    + etrans; [apply Hderef|]. by rewrite decide_True.
    + intros q Hq. etrans; [apply Hderef|]. by rewrite decide_False.
  - intros f a ->%blocked_offers Hwf.
    exists (block_major_coords (UArray2b_width a) (UArray2b_height a)
                               (UArray2b_blocksize a)).
    pose proof Hwf as (Hw & Hh & Hbs & _ & _ & _ & Hbw & Hbh & _).
    split; [intros; by apply elem_of_block_major_coords|].
    intros S apply cl. by apply UArray2b_map_foldM.
Qed.
End blocked_contract.

(** ** The transform callbacks *)

Lemma dest_coord_in_bounds (op : operation) (W H col row : Z) :
  0 ≤ col < W → 0 ≤ row < H →
  0 ≤ (dest_coord op W H col row).1 < (dest_dims op W H).1 ∧
  0 ≤ (dest_coord op W H col row).2 < (dest_dims op W H).2.
Proof. intros Hc Hr. destruct op; simpl; lia. Qed.

Lemma dest_coord_inj (op : operation) (W H c1 r1 c2 r2 : Z) :
  dest_coord op W H c1 r1 = dest_coord op W H c2 r2 → c1 = c2 ∧ r1 = r2.
Proof. destruct op; simpl; intros [= ? ?]; lia. Qed.

Section transform_facts.
Context {m : Ppmtrans.A2Methods_T} {valid : A2Methods.A2 m → Prop}.
Context (L : A2_contract m valid).

Import Ppmtrans.

Lemma transform_init_requests (op : operation) (type mag : Z) :
  requests op type mag →
  ∃ cb, transform_init (methods:=m) None type = Some cb ∧
    ∀ col row source ptr info, magnitude info = mag →
      cb col row source ptr info
      = (let dc := dest_coord op (A2Methods.width m source)
                              (A2Methods.height m source) col row in
         q ← A2Methods.at_ m (destination_map info) dc.1 dc.2;
         copy_pixel source ptr info (Some q)).
Proof.
  intros Hreq.
  destruct op; simpl in Hreq;
    [> destruct Hreq as [-> ->] .. | subst type];
    (eexists; split; [reflexivity|]);
    intros col row source ptr info Hmag;
    unfold rotate_map, rotate_dest_pixel, flip_map, flip_dest_pixel,
      transpose_map; rewrite ?Hmag; simpl;
    try (destruct (A2Methods.at_ m _ _ _); reflexivity).
Qed.

Lemma callback_step (op : operation) (type mag : Z) cb
    (source destination : A2 m) (col row : Z) (ptr : object m) :
  requests op type mag →
  transform_init (methods:=m) None type = Some cb →
  valid source → valid destination →
  (A2Methods.width m destination, A2Methods.height m destination)
    = dest_dims op (A2Methods.width m source) (A2Methods.height m source) →
  A2_in_bounds m source col row →
  A2Methods.at_ m source col row = Ok ptr →
  let dc := dest_coord op (A2Methods.width m source)
              (A2Methods.height m source) col row in
  ∃ destination' v,
    cb col row source ptr (Result destination mag)
      = Ok (source, Result destination' mag) ∧
    valid destination' ∧
    A2Methods.width m destination' = A2Methods.width m destination ∧
    A2Methods.height m destination' = A2Methods.height m destination ∧
    (∀ c r, A2Methods.at_ m destination' c r
            = A2Methods.at_ m destination c r) ∧
    A2_get m source col row = Ok v ∧
    A2_get m destination' dc.1 dc.2 = Ok v ∧
    ∀ c r, A2_in_bounds m destination c r → (c, r) ≠ dc →
           A2_get m destination' c r = A2_get m destination c r.
Proof.
  intros Hreq Hinit Hvs Hvd Hdims [Hc Hr] Hat dc.
  destruct (transform_init_requests op type mag Hreq) as (cb' & Hcb & Heq).
  rewrite Hinit in Hcb. injection Hcb as <-.
  rewrite Heq by reflexivity. cbv zeta. fold dc. cbn [destination_map].
  pose proof (dest_coord_in_bounds op _ _ col row Hc Hr) as Hdc.
  fold dc in Hdc. rewrite <- Hdims in Hdc. cbn [fst snd] in Hdc.
  destruct (contract_at m valid L destination dc.1 dc.2 Hvd Hdc)
    as (q & Hq).
  destruct (contract_deref m valid L source col row ptr Hvs
              (conj Hc Hr) Hat) as (v & Hv).
  destruct (contract_assign m valid L destination dc.1 dc.2 q v Hvd Hdc Hq)
    as (d' & Has & Hvd' & Hw' & Hh' & Hat' & Hrd & Hother).
  exists d', v. rewrite Hq, bind_Ok. unfold copy_pixel.
  rewrite Hv, bind_Ok. cbn [destination_map magnitude].
  rewrite Has, bind_Ok. split_and!; try done.
  - unfold A2_get. by rewrite Hat, bind_Ok.
  - unfold A2_get. by rewrite Hat', Hq, bind_Ok.
  - intros c r Hin Hne. unfold A2_get. rewrite Hat'.
    destruct (contract_at m valid L destination c r Hvd Hin) as (q' & Hq').
    rewrite Hq', !bind_Ok. apply Hother. intros ->.
    destruct (contract_at_inj m valid L destination c r dc.1 dc.2 q)
      as [? ?]; try done.
    apply Hne. destruct dc. simpl in *. congruence.
Qed.
End transform_facts.

(** ** The transform engine *)

Section transform_engine.
Context {m : Ppmtrans.A2Methods_T} {valid : A2Methods.A2 m → Prop}.
Context (L : A2_contract m valid).

Import Ppmtrans.

Lemma create_image_requests (op : operation) (type mag : Z)
    (ppm : Pnm_ppm m) :
  requests op type mag →
  create_image ppm type mag
  = (let d := dest_dims op (width ppm) (height ppm) in
     image ← A2Methods.new m d.1 d.2 sizeof_Pnm_rgb;
     Ok (Ppm d.1 d.2 (denominator ppm) (pixels ppm), image)).
Proof.
  intros Hreq. unfold create_image.
  destruct op; simpl in Hreq;
    [> destruct Hreq as [-> ->] .. | subst type]; simpl;
    rewrite ?orb_true_r; try reflexivity.
  all: by destruct ppm.
Qed.

(** What one transform does to an image. *)
Lemma transform_spec (op : operation) (type mag : Z) f (ppm : Pnm_ppm m) :
  requests op type mag → A2_offers m f → Pnm_ppm_wf valid ppm →
  ∃ ppm',
    transform ppm (Some f) type mag = Ok ppm' ∧
    Pnm_ppm_wf valid ppm' ∧
    (width ppm', height ppm') = dest_dims op (width ppm) (height ppm) ∧
    denominator ppm' = denominator ppm ∧
    ∀ col row, 0 ≤ col < width ppm → 0 ≤ row < height ppm →
      let dc := dest_coord op (width ppm) (height ppm) col row in
      ∃ v, A2_get m (pixels ppm) col row = Ok v ∧
           A2_get m (pixels ppm') dc.1 dc.2 = Ok v.
Proof.
  intros Hreq Hf (Hvs & HW & HH).
  set (src := pixels ppm) in *.
  destruct (contract_dims m valid L src Hvs) as [HWpos HHpos].
  unfold transform. rewrite (create_image_requests op type mag ppm Hreq).
  cbv zeta.
  set (d := dest_dims op (width ppm) (height ppm)).
  assert (0 < d.1 ∧ 0 < d.2) as [Hd1 Hd2].
  { unfold d. rewrite HW, HH. destruct op; simpl; lia. }
  destruct (contract_new m valid L d.1 d.2 sizeof_Pnm_rgb)
    as (dest0 & Hnew & Hvd0 & Hdw & Hdh); [done | done | done |].
  rewrite Hnew, !bind_Ok. cbv beta iota.
  destruct (transform_init_requests (m:=m) op type mag Hreq)
    as (cb & Hcb & _).
  rewrite Hcb. unfold transform_image, result_init. cbn [pixels].
  fold src.
  destruct (contract_map m valid L f src Hf Hvs) as (coords & Hcoords & Hmap).
  rewrite Hmap. cbn [call_apply].
  assert ((A2Methods.width m dest0, A2Methods.height m dest0)
          = dest_dims op (A2Methods.width m src) (A2Methods.height m src))
    as Hdims.
  { rewrite Hdw, Hdh, <- HW, <- HH. fold d. by destruct d. }
  destruct (foldM_invariant (A2_visit m cb)
    (λ done st,
       st.1 = src ∧ magnitude st.2 = mag ∧ valid (destination_map st.2) ∧
       A2Methods.width m (destination_map st.2) = A2Methods.width m dest0 ∧
       A2Methods.height m (destination_map st.2)
         = A2Methods.height m dest0 ∧
       (∀ c r, A2Methods.at_ m (destination_map st.2) c r
               = A2Methods.at_ m dest0 c r) ∧
       ∀ c r, (c, r) ∈ done →
         A2_in_bounds m src c r ∧
         let dc := dest_coord op (A2Methods.width m src)
                     (A2Methods.height m src) c r in
         ∃ v, A2_get m src c r = Ok v ∧
              A2_get m (destination_map st.2) dc.1 dc.2 = Ok v)
    coords (src, Result dest0 mag))
    as ([src' info] & Hfold & Hsrc & Hmag & Hvd & Hw' & Hh' & _ & Hall).
  { cbn [fst snd destination_map magnitude]. split_and!; try done.
    intros c r Hin. inversion Hin. }
  { intros done [c r] [s0 info0] Hin
      (Hs0 & Hmag0 & Hvd1 & Hw1 & Hh1 & Hat1 & Hdone).
    cbn [fst snd] in *. subst s0. destruct info0 as [dest1 mag1].
    cbn [destination_map magnitude] in *. subst mag1.
    apply Hcoords in Hin.
    destruct (contract_at m valid L src c r Hvs Hin) as (p & Hp).
    destruct (callback_step L op type mag cb src dest1 c r p)
      as (dest2 & v & Hcall & Hvd2 & Hw2 & Hh2 & Hat2 & Hsv & Hdv & Hoth);
      try done.
    { rewrite Hw1, Hh1. done. }
    exists (src, Result dest2 mag). unfold A2_visit. cbn [fst snd].
    rewrite Hp, bind_Ok. split; [exact Hcall|].
    cbn [fst snd destination_map magnitude].
    split_and!; try done; try congruence.
    intros c' r' Hin'. apply elem_of_app in Hin' as [Hin'|Hin'].
    - destruct (Hdone c' r' Hin') as (Hb' & v' & Hsv' & Hdv').
      split; [done|]. exists v'. split; [done|].
      destruct (decide ((c', r') = (c, r))) as [[= -> ->]|Hne].
      + congruence.
      + rewrite Hoth; [done| |].
        * unfold A2_in_bounds. rewrite Hw1, Hh1.
          pose proof (dest_coord_in_bounds op _ _ c' r'
                        (proj1 Hb') (proj2 Hb')) as Hdc.
          rewrite <- Hdims in Hdc. exact Hdc.
        * intros Heq. apply Hne.
          destruct (dest_coord_inj op (A2Methods.width m src)
                      (A2Methods.height m src) c' r' c r) as [-> ->];
            [|done].
          rewrite <- Heq. apply surjective_pairing.
    - apply list_elem_of_singleton in Hin'. injection Hin' as -> ->.
      split; [done|]. exists v. done. }
  cbn [fst snd] in *. subst src'.
  match goal with
  | |- context [foldM ?g ?l ?s] =>
      change (foldM g l s) with (foldM (A2_visit m cb) coords
                                   (src, Result dest0 mag))
  end.
  rewrite Hfold, bind_Ok. cbv beta iota.
  rewrite bind_Ok. cbv beta iota. unfold reassign. cbn [pixels].
  rewrite (contract_free m valid L src Hvs), bind_Ok.
  eexists. split; [reflexivity|].
  unfold Pnm_ppm_wf. cbn [pixels width height denominator].
  split_and!; try done; try congruence.
  - by destruct d.
  - intros col row Hc Hr.
    destruct (Hall col row) as (_ & v & Hsv & Hdv).
    { apply Hcoords. split; [by rewrite <- HW | by rewrite <- HH]. }
    exists v. rewrite HW, HH. done.
Qed.
End transform_engine.

Section transform_claims.
Context {m : Ppmtrans.A2Methods_T} {valid : A2Methods.A2 m → Prop}.
Context (L : A2_contract m valid).

Import Ppmtrans.

Lemma transform_init_callback_of (op : operation) (type mag : Z) :
  requests op type mag →
  transform_init (methods:=m) None type = Some (callback_of op).
Proof.
  intros Hreq. destruct op; simpl in Hreq;
    [> destruct Hreq as [-> ->] .. | subst type]; reflexivity.
Qed.

(** C2.  Over a suite that keeps its contract, for a source grid of
    width W and height H, a destination grid of the dimensions of the
    operation and an in-bounds source coordinate (col, row): the
    callback of each of the seven operations (rotate 0, 90, 180, 270,
    flip horizontal and vertical, transpose) returns, leaves the source
    as it is, and leaves a destination in which the coordinate of the
    spec's table holds the source element and every other coordinate
    holds what it held. *)
Theorem C2_callback_writes_the_table_coordinate (op : operation)
    (type mag : Z) (source destination : A2 m) (col row : Z)
    (ptr : object m) :
  requests op type mag →
  valid source → valid destination →
  (A2Methods.width m destination, A2Methods.height m destination)
    = dest_dims op (A2Methods.width m source) (A2Methods.height m source) →
  A2_in_bounds m source col row →
  A2Methods.at_ m source col row = Ok ptr →
  let dc := dest_coord op (A2Methods.width m source)
              (A2Methods.height m source) col row in
  transform_init (methods:=m) None type = Some (callback_of op) ∧
  ∃ destination' v,
    callback_of op col row source ptr (Result destination mag)
      = Ok (source, Result destination' mag) ∧
    A2_get m source col row = Ok v ∧
    A2_get m destination' dc.1 dc.2 = Ok v ∧
    ∀ c r, A2_in_bounds m destination c r → (c, r) ≠ dc →
           A2_get m destination' c r = A2_get m destination c r.
Proof.
  intros Hreq Hvs Hvd Hdims Hin Hat dc.
  pose proof (transform_init_callback_of op type mag Hreq) as Hinit.
  split; [exact Hinit|].
  destruct (callback_step L op type mag (callback_of op) source destination
              col row ptr Hreq Hinit Hvs Hvd Hdims Hin Hat)
    as (d' & v & Hcall & _ & _ & _ & _ & Hsv & Hdv & Hoth).
  exists d', v. done.
Qed.

(** C5.  Over a suite that keeps its contract, for a source image of
    width W and height H, [create_image] allocates the destination with
    [new (H, W)], a grid of width H and height W, for rotate 90,
    rotate 270 and transpose, and with [new (W, H)], a grid of width W
    and height H, for rotate 0, rotate 180 and the two flips. *)
Theorem C5_create_image_sizes_the_destination (op : operation)
    (type mag : Z) (ppm : Pnm_ppm m) :
  requests op type mag → Pnm_ppm_wf valid ppm →
  let W := width ppm in
  let H := height ppm in
  ∃ ppm' image,
    create_image ppm type mag = Ok (ppm', image) ∧
    match op with
    | Rotate90 | Rotate270 | Transpose =>
        A2Methods.new m H W sizeof_Pnm_rgb = Ok image ∧
        A2Methods.width m image = H ∧ A2Methods.height m image = W
    | Rotate0 | Rotate180 | FlipHorizontal | FlipVertical =>
        A2Methods.new m W H sizeof_Pnm_rgb = Ok image ∧
        A2Methods.width m image = W ∧ A2Methods.height m image = H
    end ∧
    (A2Methods.width m image, A2Methods.height m image) = dest_dims op W H.
Proof.
  intros Hreq (Hv & HW & HH) W H.
  destruct (contract_dims m valid L _ Hv) as [HWpos HHpos].
  rewrite (create_image_requests op type mag ppm Hreq). cbv zeta.
  fold W H. rewrite <- HW, <- HH in *. fold W H in HWpos, HHpos.
  destruct (contract_new m valid L (dest_dims op W H).1 (dest_dims op W H).2
              sizeof_Pnm_rgb) as (image & Hnew & _ & Hw & Hh);
    [destruct op; simpl; lia | destruct op; simpl; lia | done |].
  rewrite Hnew, bind_Ok. eexists _, image. split; [reflexivity|].
  rewrite Hw, Hh. split; [|by destruct (dest_dims op W H)].
  destruct op; simpl in *; done.
Qed.

(** C6.  Over a suite that keeps its contract, with any traversal that
    the suite offers: rotating an image by 90 degrees four times in a
    row succeeds and gives an image of the width and the height of the
    original in which every coordinate holds the element that the
    original holds there. *)
Theorem C6_four_quarter_turns_give_the_image_back f (ppm : Pnm_ppm m) :
  A2_offers m f → Pnm_ppm_wf valid ppm →
  ∃ ppm4,
    transform_four_times f ROTATE 90 ppm = Ok ppm4 ∧
    width ppm4 = width ppm ∧ height ppm4 = height ppm ∧
    A2Methods.width m (pixels ppm4) = A2Methods.width m (pixels ppm) ∧
    A2Methods.height m (pixels ppm4) = A2Methods.height m (pixels ppm) ∧
    ∀ col row, 0 ≤ col < width ppm → 0 ≤ row < height ppm →
      ∃ v, A2_get m (pixels ppm) col row = Ok v ∧
           A2_get m (pixels ppm4) col row = Ok v.
Proof.
  intros Hf Hwf0.
  assert (requests Rotate90 ROTATE 90) as Hreq by done.
  destruct (transform_spec L Rotate90 ROTATE 90 f ppm Hreq Hf Hwf0)
    as (p1 & Ht1 & Hwf1 & Hd1 & _ & Hpix1).
  destruct (transform_spec L Rotate90 ROTATE 90 f p1 Hreq Hf Hwf1)
    as (p2 & Ht2 & Hwf2 & Hd2 & _ & Hpix2).
  destruct (transform_spec L Rotate90 ROTATE 90 f p2 Hreq Hf Hwf2)
    as (p3 & Ht3 & Hwf3 & Hd3 & _ & Hpix3).
  destruct (transform_spec L Rotate90 ROTATE 90 f p3 Hreq Hf Hwf3)
    as (p4 & Ht4 & Hwf4 & Hd4 & _ & Hpix4).
  simpl in Hd1, Hd2, Hd3, Hd4.
  injection Hd1 as Hw1 Hh1. injection Hd2 as Hw2 Hh2.
  injection Hd3 as Hw3 Hh3. injection Hd4 as Hw4 Hh4.
  exists p4. unfold transform_four_times.
  erewrite bind_eq_Ok by exact Ht1. erewrite bind_eq_Ok by exact Ht2.
  erewrite bind_eq_Ok by exact Ht3.
  destruct Hwf0 as (_ & HW0 & HH0). destruct Hwf4 as (_ & HW4 & HH4).
  split; [exact Ht4|]. split_and!; try congruence.
  intros col row Hc Hr.
  destruct (Hpix1 col row Hc Hr) as (v & Hv0 & Hv1). simpl in Hv1.
  destruct (Hpix2 (height ppm - row - 1) col) as (v2 & Hv1' & Hv2);
    [lia..|]. simpl in Hv2.
  destruct (Hpix3 (height p1 - col - 1) (height ppm - row - 1))
    as (v3 & Hv2' & Hv3); [lia..|]. simpl in Hv3.
  destruct (Hpix4 (height p2 - (height ppm - row - 1) - 1)
                  (height p1 - col - 1))
    as (v4 & Hv3' & Hv4); [lia..|]. simpl in Hv4.
  exists v. split; [done|].
  assert (height p3 - (height p1 - col - 1) - 1 = col) as Ecol by lia.
  assert (height p2 - (height ppm - row - 1) - 1 = row) as Erow by lia.
  rewrite ?Ecol, ?Erow in Hv3, Hv3', Hv4.
  assert (Ok v = Ok v2) as [= <-] by (rewrite <- Hv1; exact Hv1').
  assert (Ok v = Ok v3) as [= <-] by (rewrite <- Hv2; exact Hv2').
  assert (Ok v = Ok v4) as [= <-] by (rewrite <- Hv3; exact Hv3').
  rewrite ?Ecol, ?Erow in Hv4. exact Hv4.
Qed.
End transform_claims.

Section transform_witnesses.
Import Ppmtrans.

Let plain : A2Methods_T := A2Plain.uarray2_methods_plain_struct.
Let blocked : A2Methods_T := A2Blocked.uarray2_methods_blocked_struct.

Lemma C2_witness :
  ∃ (source destination destination' : UArray2_T Pnm_rgb) (v : Pnm_rgb),
    UArray2_new 2 3 12 = Ok source ∧ UArray2_new 3 2 12 = Ok destination ∧
    rotate_map (methods:=plain) 1 2 source 5
        (Result (methods:=plain) destination 90)
      = Ok (source, Result (methods:=plain) destination' 90) ∧
    A2_get plain source 1 2 = Ok v ∧ A2_get plain destination' 0 1 = Ok v.
Proof.
  destruct (UArray2_new_ok (E:=Pnm_rgb) 2 3 12)
    as (src & Hs & Hvs & Hsw & Hsh & _); [lia..|].
  destruct (UArray2_new_ok (E:=Pnm_rgb) 3 2 12)
    as (dst & Hd & Hvd & Hdw & Hdh & _); [lia..|].
  destruct (C2_callback_writes_the_table_coordinate (m:=plain)
              plain_contract Rotate90 ROTATE 90 src dst 1 2 5)
    as (_ & dst' & v & Hcall & Hsv & Hdv & _).
  - split; reflexivity.
  - exact Hvs.
  - exact Hvd.
  - simpl. unfold A2Plain.width, A2Plain.height.
    rewrite Hsw, Hsh, Hdw, Hdh. reflexivity.
  - unfold A2_in_bounds. simpl. unfold A2Plain.width, A2Plain.height.
    rewrite Hsw, Hsh. lia.
  - simpl. unfold A2Plain.at_. rewrite UArray2_at_ok by (done || lia).
    rewrite Hsw. reflexivity.
  - exists src, dst, dst', v. simpl in Hdv.
    unfold A2Plain.width, A2Plain.height in Hdv. rewrite Hsh in Hdv.
    split; [exact Hs|]. split; [exact Hd|]. split; [exact Hcall|].
    split; [exact Hsv | exact Hdv].
Defined.

Lemma C5_witness :
  ∃ (source image : UArray2_T Pnm_rgb) (ppm' : Pnm_ppm plain),
    UArray2_new 2 3 12 = Ok source ∧
    create_image (methods:=plain) (Ppm (methods:=plain) 2 3 255 source)
        ROTATE 90
      = Ok (ppm', image) ∧
    UArray2_width image = 3 ∧ UArray2_height image = 2.
Proof.
  destruct (UArray2_new_ok (E:=Pnm_rgb) 2 3 12)
    as (src & Hs & Hvs & Hsw & Hsh & _); [lia..|].
  destruct (C5_create_image_sizes_the_destination (m:=plain)
              plain_contract Rotate90 ROTATE 90
              (Ppm (methods:=plain) 2 3 255 src))
    as (ppm' & image & Hci & (_ & Hw & Hh) & _).
  - split; reflexivity.
  - split; [exact Hvs|]. simpl. unfold A2Plain.width, A2Plain.height.
    rewrite Hsw, Hsh. split; reflexivity.
  - exists src, image, ppm'. split; [exact Hs|]. split; [exact Hci|].
    split; [exact Hw | exact Hh].
Defined.

Lemma C6_witness :
  (∃ (source : UArray2_T Pnm_rgb) (ppm4 : Pnm_ppm plain),
     UArray2_new 2 3 12 = Ok source ∧
     transform_four_times (m:=plain) A2Plain.map_row_major ROTATE 90
       (Ppm (methods:=plain) 2 3 255 source) = Ok ppm4 ∧
     width ppm4 = 2 ∧ height ppm4 = 3) ∧
  (∃ (source : UArray2b_T Pnm_rgb) (ppm4 : Pnm_ppm blocked),
     UArray2b_new_64K_block 2 3 12 = Ok source ∧
     transform_four_times (m:=blocked) A2Blocked.map_block_major ROTATE 90
       (Ppm (methods:=blocked) 2 3 255 source) = Ok ppm4 ∧
     width ppm4 = 2 ∧ height ppm4 = 3).
Proof.
  split.
  - destruct (UArray2_new_ok (E:=Pnm_rgb) 2 3 12)
      as (src & Hs & Hvs & Hsw & Hsh & _); [lia..|].
    destruct (C6_four_quarter_turns_give_the_image_back (m:=plain)
                plain_contract A2Plain.map_row_major
                (Ppm (methods:=plain) 2 3 255 src))
      as (ppm4 & Hrun & Hw & Hh & _).
    + left. reflexivity.
    + split; [exact Hvs|]. simpl. unfold A2Plain.width, A2Plain.height.
      rewrite Hsw, Hsh. split; reflexivity.
    + exists src, ppm4. split; [exact Hs|]. split; [exact Hrun|].
      split; [exact Hw | exact Hh].
  - destruct (UArray2b_new_64K_block_ok (E:=Pnm_rgb) 2 3 12)
      as (src & Hs & Hvs & Hsw & Hsh & _); [lia..|].
    destruct (C6_four_quarter_turns_give_the_image_back (m:=blocked)
                blocked_contract A2Blocked.map_block_major
                (Ppm (methods:=blocked) 2 3 255 src))
      as (ppm4 & Hrun & Hw & Hh & _).
    + right. right. left. reflexivity.
    + split; [exact Hvs|]. simpl. unfold A2Blocked.width, A2Blocked.height.
      rewrite Hsw, Hsh. split; reflexivity.
    + exists src, ppm4. split; [exact Hs|]. split; [exact Hrun|].
      split; [exact Hw | exact Hh].
Defined.
End transform_witnesses.

(** ** The command line *)

Section command_line.
Import Ppmtrans.

Context (blocked : option A2Methods_T).
Context (strtol : string → Z * string).

Lemma SET_METHODS_fields progname METHODS MAP WHAT (st st' : cli) :
  SET_METHODS progname METHODS MAP WHAT st = Ok st' →
  transform_type st' = transform_type st ∧
  magnitude_arg st' = magnitude_arg st ∧
  is_Some (map st').
Proof.
  unfold SET_METHODS. intros Hset. ok_inv Hset.
  destruct (MAP a) as [f|]; [|discriminate].
  injection Hset as <-. simpl. eauto.
Qed.

(** One round of the loop moves the index on by at most one argument
    and keeps the request servable and the traversal present. *)
Lemma loop_body_spec (argv : list string) (i i' : nat) (st st' : cli) :
  loop_body blocked strtol argv i st = Ok (i', st') →
  (i ≤ i' ≤ i + 1)%nat ∧
  (request_ok st → request_ok st') ∧
  (is_Some (map st) → is_Some (map st')).
Proof.
  unfold loop_body.
  repeat match goal with
  | |- context [String.eqb ?a ?b] => destruct (String.eqb a b)
  end.
  all: try match goal with
  | |- context [strtol ?s] => destruct (strtol s) as [v endptr]
  end.
  all: repeat match goal with
  | |- (if ?b then _ else _) = _ → _ => destruct b eqn:?
  end.
  all: intros Hbody; try discriminate.
  all: try (ok_inv Hbody; subst;
            apply SET_METHODS_fields in Hstep as (Ht & Hm & Hs);
            split; [lia|]; split; [|done];
            unfold request_ok; rewrite Ht, Hm; done).
  all: injection Hbody as <- <-; split; [lia|]; split; [|done].
  all: unfold request_ok; simpl; try done; intros _.
  - left. split; [done|]. rewrite !elem_of_cons. lia.
  - right. left. split; [done|]. apply list_elem_of_here.
  - right. left. split; [done|]. apply list_elem_of_further, list_elem_of_here.
  - right. right. done.
Qed.

Lemma SET_METHODS_fuel progname METHODS MAP WHAT (st : cli) :
  SET_METHODS progname METHODS MAP WHAT st ≠ Err Out_Of_Fuel.
Proof.
  unfold SET_METHODS. destruct METHODS as [m|]; simpl; [|discriminate].
  destruct (MAP m); discriminate.
Qed.

Lemma loop_body_fuel (argv : list string) (i : nat) (st : cli) :
  loop_body blocked strtol argv i st ≠ Err Out_Of_Fuel.
Proof.
  unfold loop_body, usage.
  repeat match goal with
  | |- context [String.eqb ?a ?b] => destruct (String.eqb a b)
  end.
  all: try match goal with
  | |- context [strtol ?s] => destruct (strtol s) as [v endptr]
  end.
  all: repeat match goal with
  | |- (if ?b then _ else _) ≠ _ => destruct b
  end.
  all: try discriminate.
  all: match goal with
  | |- SET_METHODS ?p ?M ?MAP ?W ?st ≫= _ ≠ _ =>
      pose proof (SET_METHODS_fuel p M MAP W st);
      destruct (SET_METHODS p M MAP W st) as [?|[]]; done
  end.
Qed.

Lemma loop_done (argv : list string) (fuel i : nat) (st : cli) :
  (length argv ≤ i)%nat → loop blocked strtol fuel argv i st = Ok st.
Proof.
  intros Hi. destruct fuel; cbn [loop];
    rewrite (proj2 (Nat.ltb_ge i (length argv))) by lia; reflexivity.
Qed.

Lemma loop_round (argv : list string) (fuel i : nat) (st : cli) :
  (i < length argv)%nat →
  loop blocked strtol (S fuel) argv i st
  = loop_body blocked strtol argv i st
    ≫= λ '(i, st), loop blocked strtol fuel argv (i + 1) st.
Proof.
  intros Hi. cbn [loop].
  rewrite (proj2 (Nat.ltb_lt i (length argv))) by lia. reflexivity.
Qed.

(** [argc] rounds are enough: the loop never stops for want of fuel,
    and more fuel does not change its outcome. *)
Lemma loop_fuel (argv : list string) (fuel1 fuel2 i : nat) (st : cli) :
  (length argv ≤ fuel1 + i)%nat → (length argv ≤ fuel2 + i)%nat →
  loop blocked strtol fuel1 argv i st = loop blocked strtol fuel2 argv i st ∧
  loop blocked strtol fuel1 argv i st ≠ Err Out_Of_Fuel.
Proof.
  revert fuel2 i st. induction fuel1 as [|fuel1 IH]; intros fuel2 i st H1 H2.
  - rewrite !loop_done by lia. done.
  - destruct (decide (i < length argv)%nat) as [Hi|Hi].
    + destruct fuel2 as [|fuel2]; [lia|]. rewrite !loop_round by done.
      destruct (loop_body blocked strtol argv i st) as [[i' st']|e] eqn:Hb.
      * apply loop_body_spec in Hb as (Hi' & _).
        rewrite !bind_Ok. apply IH; lia.
      * rewrite !bind_Err. split; [done|].
        intros [= ->]. by apply loop_body_fuel in Hb.
    + rewrite !loop_done by lia. done.
Qed.

Lemma loop_invariant (P : cli → Prop) (argv : list string) :
  (∀ i st i' st', P st → loop_body blocked strtol argv i st = Ok (i', st') →
                  P st') →
  ∀ fuel i st st',
    P st → loop blocked strtol fuel argv i st = Ok st' → P st'.
Proof.
  intros Hbody. induction fuel as [|fuel IH]; intros i st st' HP;
    (destruct (decide (i < length argv)%nat) as [Hi|Hi];
     [|rewrite loop_done by lia; by intros [= <-]]).
  - cbn [loop]. rewrite (proj2 (Nat.ltb_lt i (length argv))) by lia.
    discriminate.
  - rewrite loop_round by done. intros Hloop.
    apply bind_Ok_inv in Hloop as ([i1 st1] & Hb & Hloop).
    eapply IH; [|exact Hloop]. eapply Hbody; eauto.
Qed.

Lemma reaches_loop (argv : list string) (i j : nat) (st st' : cli) :
  reaches blocked strtol argv i st j st' →
  ∀ fuel, (length argv ≤ fuel + i)%nat →
    (i ≤ j)%nat ∧
    loop blocked strtol fuel argv i st
    = loop blocked strtol (length argv) argv j st'.
Proof.
  induction 1 as [i st|i st i' st' j st'' Hi Hb Hreach IH]; intros fuel Hf.
  - split; [lia|]. apply loop_fuel; lia.
  - pose proof Hb as (Hi' & _)%loop_body_spec.
    destruct fuel as [|fuel]; [lia|].
    destruct (IH fuel) as [Hle Heq]; [lia|]. split; [lia|].
    rewrite loop_round by done. rewrite Hb, bind_Ok. exact Heq.
Qed.

Lemma loop_body_block_major_absent (argv : list string) (i : nat)
    (st : cli) (b : A2Methods_T) :
  blocked = Some b → A2Methods.map_block_major b = None →
  argv_at argv i = "-block-major" →
  loop_body blocked strtol argv i st
  = Err (Exit 1 (no_block_major (argv_at argv 0))).
Proof.
  intros -> Hnone Harg. unfold loop_body. rewrite Harg.
  change (String.eqb "-block-major" "-row-major") with false.
  change (String.eqb "-block-major" "-col-major") with false.
  change (String.eqb "-block-major" "-block-major") with true.
  cbv iota. unfold SET_METHODS. simpl. rewrite Hnone. reflexivity.
Qed.
End command_line.

Section command_line_claims.
Import Ppmtrans.

(** C8.  The plain suite holds no block-major traversal in either
    family of slots.  And whatever the command line, when the loop of
    [main] comes to examine an argument [-block-major] and the blocked
    suite holds no block-major traversal, the loop, and with it [main],
    exits with status 1 and the diagnostic of [SET_METHODS]: the image
    is not read and no traversal is called.  A command line that the
    loop accepts leaves a traversal that is present. *)
Theorem C8_absent_block_major_slot_ends_the_run :
  (∀ (E : Type) (Z0 : Zero E),
     A2Methods.map_block_major
       (A2Plain.uarray2_methods_plain_struct (E:=E)) = None ∧
     A2Methods.small_map_block_major
       (A2Plain.uarray2_methods_plain_struct (E:=E)) = None) ∧
  (∀ (suite : A2Methods_T) strtol (FILE : Type) (stdin : FILE) fopen
     Pnm_ppmread (float : Type) (CPUTime_Stop : float) timing_report
     (argv : list string) (st0 st : cli) (j : nat),
     A2Methods.map_block_major suite = None →
     main_init = Ok st0 →
     reaches (Some suite) strtol argv 1 st0 j st →
     (j < length argv)%nat →
     argv_at argv j = "-block-major" →
     parse_args (Some suite) strtol argv st0
       = Err (Exit 1 (no_block_major (argv_at argv 0))) ∧
     main (Some suite) strtol FILE stdin fopen Pnm_ppmread
          float CPUTime_Stop timing_report argv
       = Err (Exit 1 (no_block_major (argv_at argv 0)))) ∧
  (∀ blocked strtol (argv : list string) (st0 st : cli),
     main_init = Ok st0 →
     parse_args blocked strtol argv st0 = Ok st → is_Some (map st)).
Proof.
  split; [done|]. split.
  - intros suite strtol FILE stdin fopen Pnm_ppmread float CPUTime_Stop
      timing_report argv st0 st j Hnone Hinit Hreach Hj Harg.
    assert (parse_args (Some suite) strtol argv st0
            = Err (Exit 1 (no_block_major (argv_at argv 0)))) as Hparse.
    { unfold parse_args.
      destruct (reaches_loop _ _ _ _ _ _ _ Hreach (length argv)) as [_ ->];
        [lia|].
      destruct (length argv) as [|fuel] eqn:Hlen; [lia|].
      rewrite loop_round by lia.
      by rewrite (loop_body_block_major_absent _ _ _ _ _ suite). }
    split; [exact Hparse|]. unfold main. rewrite Hinit, bind_Ok.
    by rewrite Hparse.
  - intros blocked strtol argv st0 st Hinit.
    apply (loop_invariant blocked strtol (λ st, is_Some (map st))).
    + intros i s i' s' Hs Hb. by apply loop_body_spec in Hb as (_ & _ & Hm);
        apply Hm.
    + unfold main_init in Hinit. simpl in Hinit. injection Hinit as <-.
      simpl. eauto.
Qed.


(** C10.  In the plain suite the default traversal is the row-major
    traversal, in both callback families: the default slots hold the
    functions of the row-major slots, [map_row_major] and
    [small_map_row_major], so a traversal in default order makes the
    calls of [UArray2_map_row_major], one per coordinate of the grid in
    row-major order. *)
Theorem C10_plain_default_traversal_is_row_major (E : Type) (Z0 : Zero E) :
  let plain := A2Plain.uarray2_methods_plain_struct (E:=E) in
  A2Methods.map_default plain = A2Methods.map_row_major plain ∧
  A2Methods.small_map_default plain = A2Methods.small_map_row_major plain ∧
  A2Methods.map_default plain = Some A2Plain.map_row_major ∧
  A2Methods.small_map_default plain = Some A2Plain.small_map_row_major ∧
  (∀ S (a : UArray2_T E) apply (cl : S),
     A2Plain.map_row_major S a apply cl
     = foldM (λ st cr, UArray2_visit apply cr.1 cr.2 st)
         (row_major_coords (UArray2_width a) (UArray2_height a)) (a, cl)) ∧
  (∀ S (a : UArray2_T E) apply (cl : S),
     A2Plain.small_map_row_major S a apply cl
     = foldM (λ st cr, UArray2_visit A2Plain.apply_small cr.1 cr.2 st)
         (row_major_coords (UArray2_width a) (UArray2_height a))
         (a, A2Plain.Small_closure S apply cl)
       ≫= λ '(a2, mycl), Ok (a2, A2Plain.small_closure_cl mycl)).
Proof.
  intros plain. split_and!; try reflexivity.
  - intros S a apply cl. apply UArray2_map_row_major_foldM.
  - intros S a apply cl. unfold A2Plain.small_map_row_major.
    by rewrite UArray2_map_row_major_foldM.
Qed.
End command_line_claims.

Section command_line_witnesses.
Import Ppmtrans.

Let plain : A2Methods_T := A2Plain.uarray2_methods_plain_struct.
Let st0 : cli := Cli plain (Some A2Plain.map_row_major) ROTATE 0 None None.
Let no_file : string → string → option unit := λ _ _, None.
Let no_timing : unit → Z → string := λ _ _, EmptyString.
Let no_image : unit → ∀ m : A2Methods_T, res (Pnm_ppm m) :=
  λ _ _, Err Assert_Failed.

Lemma C8_witness :
  main (Some plain) strtol_dec unit tt no_file no_image unit tt no_timing
    ["ppmtrans"; "-transpose"; "-block-major"; "image.ppm"]
  = Err (Exit 1 (no_block_major "ppmtrans")).
Proof.
  destruct C8_absent_block_major_slot_ends_the_run as (_ & Hexit & _).
  refine (proj2 (Hexit plain strtol_dec unit tt no_file no_image
    unit tt no_timing
    ["ppmtrans"; "-transpose"; "-block-major"; "image.ppm"] st0
    (Cli plain (Some A2Plain.map_row_major) TRANSPOSE 0 None None)
    2%nat _ _ _ _ _)).
  - reflexivity.
  - reflexivity.
  - eapply (reaches_round _ _ _ 1%nat st0 1%nat).
    + simpl. lia.
    + reflexivity.
    + apply reaches_here.
  - simpl. lia.
  - reflexivity.
Defined.

End command_line_witnesses.

(** * Further properties of the code *)

(** ** Construction of the blocked array *)

Lemma bind_Err_inv {A B} (x : res A) (k : A → res B) (e : error) :
  x ≫= k = Err e → x = Err e ∨ ∃ a, x = Ok a ∧ k a = Err e.
Proof.
  destruct x as [a|e']; simpl; intros Hx; [right; eauto | left; congruence].
Qed.

(** The first assertion of a sequence holds, or fails. *)
Ltac assertion_holds :=
  match goal with
  | |- assert ?b ≫= _ = _ => rewrite (assert_true b) by lia; rewrite bind_Ok
  end.

Ltac assertion_fails :=
  match goal with
  | |- assert ?b ≫= _ = _ => rewrite (assert_false b) by lia; reflexivity
  end.

Section UArray2b_construction.
Context {E : Type} `{Zero E}.
Implicit Types a : UArray2b_T E.

(** X1.  The arguments that [UArray2b_new] accepts are those that pass
    the two assertions of [UArray2b_init]: a width, a height, an
    element size and a blocksize that are positive, with a blocksize
    that exceeds neither dimension.  For every other argument tuple one
    of the assertions fails and no grid is built.  For arguments that
    pass them and a blocksize whose square is an [int], the constructor
    builds a grid that records the four arguments and satisfies the
    representation invariant. *)
Theorem X1_new_refuses_bad_arguments (width height size blocksize : Z) :
  let good := 0 < width ∧ 0 < height ∧ 0 < size ∧ 0 < blocksize ∧
              blocksize ≤ width ∧ blocksize ≤ height in
  (good → blocksize * blocksize ≤ INT_MAX →
   ∃ a, UArray2b_new (E:=E) width height size blocksize = Ok a ∧
        UArray2b_wf a ∧
        UArray2b_width a = width ∧ UArray2b_height a = height ∧
        UArray2b_size a = size ∧ UArray2b_blocksize a = blocksize) ∧
  (¬ good →
   UArray2b_new (E:=E) width height size blocksize = Err Assert_Failed).
Proof.
  intros good. subst good. split.
  - intros (Hw & Hh & Hs & Hbs & Hbw & Hbh) Hint.
    destruct (UArray2b_init_ok (E:=E) width height size blocksize)
      as (a & Hinit & Hrest); [done..|].
    exists a. done.
  - intros Hbad. unfold UArray2b_new, UArray2b_init.
    destruct (decide (0 < width ∧ 0 < height ∧ 0 < size ∧ 0 < blocksize))
      as [Hpos|Hpos].
    + assertion_holds. assertion_fails.
    + assertion_fails.
Qed.

(** X2.  [UArray2b_new_64K_block] builds a grid exactly when the width,
    the height and the element size are positive, and the blocksize it
    picks is then between 1 and the smaller dimension.  An element size
    of 0 is a division by zero; any other argument that is not positive
    fails the first assertion of [UArray2b_init], whatever blocksize the
    heuristic came to. *)
Theorem X2_new_64K_block_refuses_bad_arguments (width height size : Z) :
  (0 < width ∧ 0 < height ∧ 0 < size →
   ∃ a, UArray2b_new_64K_block (E:=E) width height size = Ok a ∧
        UArray2b_width a = width ∧ UArray2b_height a = height ∧
        UArray2b_size a = size ∧
        1 ≤ UArray2b_blocksize a ≤ Z.min width height) ∧
  (size = 0 →
   UArray2b_new_64K_block (E:=E) width height size = Err Div_By_Zero) ∧
  (size ≠ 0 → ¬ (0 < width ∧ 0 < height ∧ 0 < size) →
   UArray2b_new_64K_block (E:=E) width height size = Err Assert_Failed).
Proof.
  split_and!.
  - intros (Hw & Hh & Hs).
    destruct (UArray2b_new_64K_block_ok (E:=E) width height size Hw Hh Hs)
      as (a & Hnew & Hwf & Haw & Hah & Has & _).
    exists a. split_and!; try done.
    + destruct Hwf as (_ & _ & ? & _). lia.
    + destruct Hwf as (_ & _ & _ & ? & ? & _). lia.
  - intros ->. reflexivity.
  - intros Hs Hbad. unfold UArray2b_new_64K_block, c_div.
    replace (size =? 0) with false by lia. rewrite bind_Ok.
    unfold UArray2b_init. assertion_fails.
Qed.

(** X3.  The blocksize of [UArray2b_new_64K_block] keeps a block within
    the budget and is the largest that does: for an element size of at
    most 64000 bytes a block of blocksize * blocksize elements occupies
    at most 64000 bytes; a larger element gets blocks of one cell; and
    every larger blocksize that the grid would admit takes a block over
    64000 bytes. *)
Theorem X3_64K_block_fits_the_budget (width height size : Z) :
  0 < width → 0 < height → 0 < size →
  ∃ a, UArray2b_new_64K_block (E:=E) width height size = Ok a ∧
    let bs := UArray2b_blocksize a in
    (size ≤ 64000 → bs * bs * size ≤ 64000) ∧
    (64000 < size → bs = 1) ∧
    (∀ bs', bs < bs' ≤ Z.min width height → 64000 < bs' * bs' * size).
Proof.
  intros Hw Hh Hs.
  destruct (UArray2b_new_64K_block_ok (E:=E) width height size Hw Hh Hs)
    as (a & Hnew & Hwf & _ & _ & _ & _ & Hc1 & Hc2 & Hc3).
  exists a. split; [done|]. cbv zeta.
  set (bs := UArray2b_blocksize a) in *.
  set (cells := 64000 `quot` size) in *.
  assert (0 < bs) as Hbs by (destruct Hwf as (_ & _ & ? & _); done).
  assert (cells * size ≤ 64000 < (cells + 1) * size) as Hcells.
  { unfold cells. rewrite Z.quot_div_nonneg by lia.
    pose proof (Z.div_mod 64000 size). pose proof (Z.mod_pos_bound 64000 size).
    nia. }
  assert (0 ≤ cells) as Hcells0 by (apply Z.quot_pos; lia).
  split_and!.
  - intros Hfit. assert (1 ≤ cells) as Hc by nia.
    destruct (decide (width * width < cells ∨ height * height < cells))
      as [Hex|Hex].
    + pose proof (Hc2 Hc Hex) as Hmin.
      assert (bs ≤ width ∧ bs ≤ height) as [Hbw Hbh] by lia.
      assert (bs * bs ≤ cells) by (destruct Hex; nia). nia.
    + specialize (Hc3 Hc ltac:(lia) ltac:(lia)). nia.
  - intros Hbig. apply Hc1. nia.
  - intros bs' Hbs'.
    destruct (decide (cells < 1)) as [Hc|Hc]; [nia|].
    destruct (decide (width * width < cells ∨ height * height < cells))
      as [Hex|Hex].
    + rewrite (Hc2 ltac:(lia) Hex) in Hbs'. lia.
    + specialize (Hc3 ltac:(lia) ltac:(lia) ltac:(lia)). nia.
Qed.

(** X4.  [blocks_init] and [cell_init] lay out the storage of a grid as
    a block grid of [n_w] by [n_h] blocks, the least numbers of blocks
    of side blocksize that cover the width and the height, and give
    every block, the clipped blocks of the last block-row and
    block-column included, a buffer of blocksize * blocksize elements,
    for every blocksize whose square is an [int].  So the capacity is
    at least width * height and less than
    (width + blocksize) * (height + blocksize). *)
Theorem X4_every_block_has_full_capacity (width height size bs : Z) :
  0 < width → 0 < height → 0 < size → 1 ≤ bs ≤ Z.min width height →
  bs * bs ≤ INT_MAX →
  ∃ a, UArray2b_new (E:=E) width height size bs = Ok a ∧
    let blocks := UArray2b_blocks a in
    let n_w := UArray2_width blocks in
    let n_h := UArray2_height blocks in
    (n_w - 1) * bs < width ≤ n_w * bs ∧
    (n_h - 1) * bs < height ≤ n_h * bs ∧
    (∀ blk_col blk_row, 0 ≤ blk_col < n_w → 0 ≤ blk_row < n_h →
       ∃ block, UArray2_get blocks blk_col blk_row = Ok (Some block) ∧
                UArray_length block = bs * bs) ∧
    width * height ≤ n_w * n_h * (bs * bs) < (width + bs) * (height + bs).
Proof.
  intros Hw Hh Hs Hbs Hint.
  destruct (UArray2b_init_ok (E:=E) width height size bs)
    as (a & Hinit & Hwf & Haw & Hah & _ & Habs); [lia..|].
  exists a. split; [done|]. cbv zeta.
  destruct Hwf as (_ & _ & _ & _ & _ & Hwf2 & Hbw & Hbh & Hblk).
  rewrite Haw, Hah, Habs in *.
  pose proof (ceil_div_bounds width bs ltac:(lia)) as Hcw.
  pose proof (ceil_div_bounds height bs ltac:(lia)) as Hch.
  pose proof (ceil_div_pos width bs ltac:(lia) Hw) as Hcw0.
  pose proof (ceil_div_pos height bs ltac:(lia) Hh) as Hch0.
  rewrite Hbw, Hbh in *. split_and!; try lia.
  - intros bc br Hbc Hbr. unfold UArray2_get.
    rewrite UArray2_at_ok by (done || lia). rewrite bind_Ok.
    destruct (Hblk (br * UArray2_width (UArray2b_blocks a) + bc))
      as (b & Hb & _ & Hlen); [rewrite Hbw; nia|].
    exists b. done.
  - nia.
  - nia.
Qed.
End UArray2b_construction.

Lemma X1_witness :
  (∃ a : UArray2b_T Z,
     UArray2b_new 10 10 1 4 = Ok a ∧ UArray2b_blocksize a = 4) ∧
  UArray2b_new (E:=Z) 10 3 1 4 = Err Assert_Failed.
Proof.
  split.
  - destruct (proj1 (X1_new_refuses_bad_arguments (E:=Z) 10 10 1 4))
      as (a & Hnew & _ & _ & _ & _ & Hbs); [lia | unfold INT_MAX; lia |].
    exists a. split; [exact Hnew | exact Hbs].
  - apply (proj2 (X1_new_refuses_bad_arguments (E:=Z) 10 3 1 4)). lia.
Defined.

Lemma X2_witness :
  (∃ a : UArray2b_T Z,
     UArray2b_new_64K_block 5 1000 1 = Ok a ∧
     1 ≤ UArray2b_blocksize a ≤ 5) ∧
  UArray2b_new_64K_block (E:=Z) 5 5 0 = Err Div_By_Zero ∧
  UArray2b_new_64K_block (E:=Z) 0 5 1 = Err Assert_Failed.
Proof.
  destruct (X2_new_64K_block_refuses_bad_arguments (E:=Z) 5 1000 1)
    as (Hok & _ & _).
  destruct (X2_new_64K_block_refuses_bad_arguments (E:=Z) 5 5 0)
    as (_ & Hzero & _).
  destruct (X2_new_64K_block_refuses_bad_arguments (E:=Z) 0 5 1)
    as (_ & _ & Hbad).
  split_and!.
  - destruct Hok as (a & Hnew & _ & _ & _ & Hbs); [lia|].
    exists a. split; [exact Hnew | exact Hbs].
  - apply Hzero. reflexivity.
  - apply Hbad; lia.
Defined.

Lemma X3_witness :
  ∃ a : UArray2b_T Z,
    UArray2b_new_64K_block 1000 1000 12 = Ok a ∧
    UArray2b_blocksize a * UArray2b_blocksize a * 12 ≤ 64000.
Proof.
  destruct (X3_64K_block_fits_the_budget (E:=Z) 1000 1000 12)
    as (a & Hnew & Hfit & _); [lia..|].
  exists a. split; [exact Hnew | apply Hfit; lia].
Defined.

Lemma X4_witness :
  ∃ a : UArray2b_T Z,
    UArray2b_new 10 10 1 4 = Ok a ∧
    UArray2_width (UArray2b_blocks a) = 3 ∧
    UArray2_height (UArray2b_blocks a) = 3.
Proof.
  destruct (X4_every_block_has_full_capacity (E:=Z) 10 10 1 4)
    as (a & Hnew & Hnw & Hnh & _); [lia.. | unfold INT_MAX; lia |].
  exists a. split; [exact Hnew|]. lia.
Defined.

(** ** Random access outside the grid *)





Section UArray2b_access.
Context {E : Type} `{Zero E}.
Implicit Types a : UArray2b_T E.

End UArray2b_access.


(** ** The order of the block-major traversal *)

Lemma StronglySorted_bind {A B} (R : relation B) (R' : relation A)
    (g : A → list B) (l : list A) :
  StronglySorted R' l →
  (∀ x, x ∈ l → StronglySorted R (g x)) →
  (∀ x y u v, x ∈ l → y ∈ l → R' x y → u ∈ g x → v ∈ g y → R u v) →
  StronglySorted R (l ≫= g).
Proof.
  induction 1 as [|x l Hl IH Hx]; intros Hin Hcross; [constructor|].
  rewrite bind_cons. apply StronglySorted_app_2.
  - intros u v Hu (y & Hv & Hy)%list_elem_of_bind.
    rewrite Forall_forall in Hx.
    apply (Hcross x y); [left | by right | by apply Hx | done | done].
  - apply Hin. left.
  - apply IH.
    + intros y Hy. apply Hin. by right.
    + intros y z u v Hy Hz. apply Hcross; by right.
Qed.

Lemma StronglySorted_seqZ (m n : Z) : StronglySorted Z.lt (seqZ m n).
Proof.
  remember (Z.to_nat n) as k eqn:Hk. revert m n Hk.
  induction k as [|k IH]; intros m n Hk.
  - rewrite seqZ_nil by lia. constructor.
  - rewrite seqZ_cons by lia. constructor.
    + apply IH. lia.
    + apply Forall_forall. intros x Hx%elem_of_seqZ. lia.
Qed.

Lemma StronglySorted_impl_elem_of {A} (R R' : relation A) (l : list A) :
  (∀ x y, x ∈ l → y ∈ l → R x y → R' x y) →
  StronglySorted R l → StronglySorted R' l.
Proof.
  intros Himpl Hl. induction Hl as [|x l Hl IH Hx]; constructor.
  - apply IH. intros y z Hy Hz. apply Himpl; by right.
  - apply Forall_forall. intros y Hy.
    apply Himpl; [left | by right |].
    by apply (proj1 (Forall_forall _ _) Hx).
Qed.




(** The block-major place of a cell of a block. *)
Lemma block_major_key_cell (w h bs br bc y x : Z) :
  0 < w → 0 < h → 0 < bs →
  0 ≤ br < ceil_div h bs → 0 ≤ bc < ceil_div w bs →
  0 ≤ y < blk_extent br (ceil_div h bs) h bs →
  0 ≤ x < blk_extent bc (ceil_div w bs) w bs →
  block_major_key bs (bc * bs + x, br * bs + y) = (br, bc, y, x).
Proof.
  intros Hw Hh Hbs Hbr Hbc Hy Hx. unfold block_major_key. cbn [fst snd].
  destruct (blk_tiling w bs bc x Hbs Hw Hbc Hx) as (_ & -> & ->).
  destruct (blk_tiling h bs br y Hbs Hh Hbr Hy) as (_ & -> & ->).
  reflexivity.
Qed.

Lemma StronglySorted_block_major_coords (w h bs : Z) :
  0 < w → 0 < h → 0 < bs →
  StronglySorted (block_major_before bs) (block_major_coords w h bs).
Proof.
  intros Hw Hh Hbs. unfold block_major_coords, block_major_before.
  apply (StronglySorted_bind _ Z.lt); [apply StronglySorted_seqZ| |].
  2:{ intros br br' u v Hbr Hbr' Hlt Hu Hv. unbind. subst u v.
      rewrite !(block_major_key_cell w h) by lia. simpl. lia. }
  intros br Hbr.
  apply (StronglySorted_bind _ Z.lt); [apply StronglySorted_seqZ| |].
  2:{ intros bc bc' u v Hbc Hbc' Hlt Hu Hv. unbind. subst u v.
      rewrite !(block_major_key_cell w h) by lia. simpl. lia. }
  intros bc Hbc.
  apply (StronglySorted_bind _ Z.lt); [apply StronglySorted_seqZ| |].
  2:{ intros y y' u v Hy Hy' Hlt Hu Hv. unbind. subst u v.
      rewrite !(block_major_key_cell w h) by lia. simpl. lia. }
  intros y Hy.
  apply (StronglySorted_bind _ Z.lt); [apply StronglySorted_seqZ| |].
  2:{ intros x x' u v Hx Hx' Hlt Hu Hv. unbind. subst u v.
      rewrite !(block_major_key_cell w h) by lia. simpl. lia. }
  intros x Hx. repeat constructor.
Qed.

Lemma StronglySorted_row_major_coords (w h : Z) :
  StronglySorted row_major_before (row_major_coords w h).
Proof.
  unfold row_major_coords, row_major_before.
  apply (StronglySorted_bind _ Z.lt); [apply StronglySorted_seqZ| |].
  2:{ intros r r' u v Hr Hr' Hlt Hu Hv. unbind. subst u v. simpl. lia. }
  intros r Hr.
  apply (StronglySorted_bind _ Z.lt); [apply StronglySorted_seqZ| |].
  2:{ intros c c' u v Hc Hc' Hlt Hu Hv. unbind. subst u v. simpl. lia. }
  intros c Hc. repeat constructor.
Qed.

(** In blocks of one cell, and in blocks as wide as the grid, the
    block-major order is the row-major order. *)
Lemma block_major_coords_row_major (w h bs : Z) :
  0 < w → 0 < h → bs = 1 ∨ bs = w →
  block_major_coords w h bs = row_major_coords w h.
Proof.
  intros Hw Hh Hbs. assert (0 < bs) as Hbs0 by lia.
  apply (StronglySorted_unique_strong row_major_before).
  - unfold row_major_before. intros [c1 r1] [c2 r2] _ _. simpl. lia.
  - eapply StronglySorted_impl_elem_of;
      [|by apply StronglySorted_block_major_coords].
    intros [c1 r1] [c2 r2] H1 H2.
    apply elem_of_block_major_coords in H1, H2; try done.
    unfold block_major_before, block_major_key, row_major_before. simpl.
    destruct Hbs as [->| ->].
    + rewrite !Z.div_1_r, !Z.mod_1_r. lia.
    + rewrite !(Z.div_small c1), !(Z.div_small c2),
        !(Z.mod_small c1), !(Z.mod_small c2) by lia.
      pose proof (Z.div_mod r1 w). pose proof (Z.div_mod r2 w).
      pose proof (Z.mod_pos_bound r1 w). pose proof (Z.mod_pos_bound r2 w).
      intros Hlex. nia.
  - apply StronglySorted_row_major_coords.
  - by apply block_major_row_major_perm.
Qed.


(** A loop over items without repeats keeps an invariant that may rely
    on the item at hand being new. *)
Lemma foldM_invariant_fresh {A S} (f : S → A → res S)
    (I : list A → S → Prop) (l : list A) (s : S) :
  NoDup l → I [] s →
  (∀ done x s, x ∈ l → x ∉ done → I done s →
     ∃ s', f s x = Ok s' ∧ I (done ++ [x]) s') →
  ∃ s', foldM f l s = Ok s' ∧ I l s'.
Proof.
  intros Hnd Hs Hstep.
  cut (∀ todo done s, NoDup (done ++ todo) → (∀ x, x ∈ todo → x ∈ l) →
         I done s → ∃ s', foldM f todo s = Ok s' ∧ I (done ++ todo) s').
  { intros Hcut. apply (Hcut l [] s); auto. }
  clear s Hs. induction todo as [|x todo IH]; intros done s Hnd' Hin Hd.
  - exists s. rewrite app_nil_r. auto.
  - destruct (Hstep done x s) as (s1 & Hf & H1); [apply Hin; left| |done|].
    { apply NoDup_app in Hnd' as (_ & Hdisj & _). intros Hx.
      apply (Hdisj x Hx). left. }
    destruct (IH (done ++ [x]) s1) as (s2 & Hf2 & H2); [| |done|].
    { by rewrite <- app_assoc. }
    { intros y Hy. apply Hin. by right. }
    exists s2. simpl. rewrite Hf. simpl. rewrite <- app_assoc in H2. auto.
Qed.

(** ** Traversals that write *)

Section traversal_writes.
Context {E : Type} {m : A2Methods.T E} {valid : A2Methods.A2 m → Prop}.
Context (L : A2_contract m valid).

Lemma A2_map_fill f (a : A2Methods.A2 m) (g : Z → Z → E) :
  A2_offers m f → valid a →
  ∃ a', f unit a (A2_fill m g) tt = Ok (a', tt) ∧ valid a' ∧
    A2Methods.width m a' = A2Methods.width m a ∧
    A2Methods.height m a' = A2Methods.height m a ∧
    ∀ col row, A2_in_bounds m a col row →
      A2_get m a' col row = Ok (g col row).
Proof.
  intros Hf Hv.
  destruct (contract_map m valid L f a Hf Hv) as (coords & Hcoords & Hmap).
  rewrite Hmap.
  destruct (foldM_invariant (A2_visit m (A2_fill m g))
    (λ done st,
       valid st.1 ∧
       A2Methods.width m st.1 = A2Methods.width m a ∧
       A2Methods.height m st.1 = A2Methods.height m a ∧
       (∀ c r, A2Methods.at_ m st.1 c r = A2Methods.at_ m a c r) ∧
       ∀ c r, (c, r) ∈ done →
         A2_in_bounds m a c r ∧ A2_get m st.1 c r = Ok (g c r))
    coords (a, tt)) as ([a' []] & Hfold & Hv' & Hw' & Hh' & _ & Hall).
  { cbn [fst snd]. split_and!; try done. intros c r Hin. inversion Hin. }
  { intros done [c r] [a0 []] Hin (Hv0 & Hw0 & Hh0 & Hat0 & Hdone).
    cbn [fst snd] in *. apply Hcoords in Hin.
    destruct (contract_at m valid L a c r Hv Hin) as (p & Hp).
    assert (A2_in_bounds m a0 c r) as Hin0.
    { unfold A2_in_bounds. by rewrite Hw0, Hh0. }
    destruct (contract_assign m valid L a0 c r p (g c r) Hv0 Hin0)
      as (a1 & Has & Hv1 & Hw1 & Hh1 & Hat1 & Hrd & Hoth).
    { by rewrite Hat0. }
    exists (a1, tt). unfold A2_visit, A2_fill. cbn [fst snd].
    rewrite Hat0, Hp, bind_Ok, Has, bind_Ok. split; [reflexivity|].
    cbn [fst snd]. split_and!; try congruence.
    intros c' r' Hin'.
    assert (A2_in_bounds m a c' r') as Hb'.
    { apply elem_of_app in Hin' as [Hin'|Hin']; [by apply Hdone|].
      apply list_elem_of_singleton in Hin'. by injection Hin' as -> ->. }
    split; [done|].
    destruct (contract_at m valid L a c' r' Hv Hb') as (q & Hq).
    unfold A2_get. rewrite Hat1, Hat0, Hq, bind_Ok.
    destruct (decide ((c', r') = (c, r))) as [[= -> ->]|Hne].
    - assert (q = p) as -> by congruence. done.
    - rewrite Hoth.
      + apply elem_of_app in Hin' as [Hin'|Hin'].
        * destruct (Hdone c' r' Hin') as [_ Hget]. unfold A2_get in Hget.
          by rewrite Hat0, Hq, bind_Ok in Hget.
        * apply list_elem_of_singleton in Hin'. congruence.
      + intros ->. apply Hne.
        destruct (contract_at_inj m valid L a c' r' c r p) as [-> ->];
          done. }
  cbn [fst snd] in *. exists a'. split_and!; try done.
  intros col row Hin. by apply Hall, Hcoords.
Qed.
End traversal_writes.

Section UArray2b_traversal.
Context {E : Type} `{Zero E}.
Implicit Types a : UArray2b_T E.


(** X7.  On a grid with a blocksize of 1, and on a grid whose blocksize
    is its width, [UArray2b_map] is a row-major traversal: it makes the
    calls of a traversal of the rows from top to bottom, each from left
    to right, in that order, whatever the callback. *)
Theorem X7_blocks_of_one_cell_or_full_width_are_row_major (S : Type) a
    (apply : UArray2b_applyfun E S) (cl : S) :
  UArray2b_wf a →
  UArray2b_blocksize a = 1 ∨ UArray2b_blocksize a = UArray2b_width a →
  UArray2b_map a apply cl
  = foldM (λ st cr, UArray2b_visit apply cr.1 cr.2 st)
      (row_major_coords (UArray2b_width a) (UArray2b_height a)) (a, cl).
Proof.
  intros Hwf Hbs.
  pose proof Hwf as (Hw & Hh & _ & _ & _ & _ & Hbw & Hbh & _).
  rewrite UArray2b_map_foldM by done.
  by rewrite block_major_coords_row_major.
Qed.

(** X8.  A traversal with [UArray2b_map] whose callback writes a value
    computed from the coordinate through the element pointer it is
    handed returns a grid of the same shape in which every coordinate
    reads back the value written for it. *)
Theorem X8_traversal_that_writes_fills_the_grid a (g : Z → Z → E) :
  UArray2b_wf a →
  ∃ a', UArray2b_map a (UArray2b_fill g) tt = Ok (a', tt) ∧
    UArray2b_wf a' ∧
    UArray2b_width a' = UArray2b_width a ∧
    UArray2b_height a' = UArray2b_height a ∧
    ∀ col row, 0 ≤ col < UArray2b_width a → 0 ≤ row < UArray2b_height a →
      UArray2b_get a' col row = Ok (g col row).
Proof.
  intros Hwf.
  destruct (A2_map_fill (m:=A2Blocked.uarray2_methods_blocked_struct)
              blocked_contract A2Blocked.map_block_major a g)
    as (a' & Hmap & Hwf' & Hw' & Hh' & Hall); [|done|].
  { right. right. left. reflexivity. }
  exists a'. split_and!; try done.
  intros col row Hc Hr. by apply (Hall col row).
Qed.

Lemma blocks_free_all a :
  UArray2b_wf a →
  ∃ blocks,
    UArray2_map_row_major (UArray2b_blocks a) blocks_free tt
      = Ok (blocks, tt) ∧
    UArray2_width blocks = UArray2_width (UArray2b_blocks a) ∧
    UArray2_height blocks = UArray2_height (UArray2b_blocks a) ∧
    ∀ blk_col blk_row,
      0 ≤ blk_col < UArray2_width blocks →
      0 ≤ blk_row < UArray2_height blocks →
      UArray2_get blocks blk_col blk_row = Ok None.
Proof.
  intros (_ & _ & _ & _ & _ & Hwf & _ & _ & Hblk).
  set (b0 := UArray2b_blocks a) in *.
  pose proof Hwf as (Hw0 & Hh0 & _).
  rewrite UArray2_map_row_major_foldM.
  destruct (foldM_invariant_fresh
    (λ st cr, UArray2_visit blocks_free cr.1 cr.2 st)
    (λ done st,
       UArray2_wf st.1 ∧
       UArray2_width st.1 = UArray2_width b0 ∧
       UArray2_height st.1 = UArray2_height b0 ∧
       ∀ c r, 0 ≤ c < UArray2_width b0 → 0 ≤ r < UArray2_height b0 →
         UArray2_deref st.1 (r * UArray2_width b0 + c)
         = if decide ((c, r) ∈ done) then Ok None
           else UArray2_deref b0 (r * UArray2_width b0 + c))
    (row_major_coords (UArray2_width b0) (UArray2_height b0)) (b0, tt))
    as ([blocks []] & Hfold & Hwf' & Hw' & Hh' & Hdone).
  { apply NoDup_row_major_coords. }
  { cbn [fst snd]. split_and!; done. }
  { intros done [c r] [b1 []] Hin Hfresh (Hwf1 & Hw1 & Hh1 & Hd1).
    cbn [fst snd] in *. apply elem_of_row_major_coords in Hin as [Hc Hr].
    unfold UArray2_visit. cbn [fst snd].
    rewrite UArray2_at_ok by (rewrite ?Hw1, ?Hh1; done). rewrite bind_Ok.
    rewrite Hw1. unfold blocks_free.
    rewrite Hd1 by done. rewrite decide_False by done.
    destruct (Hblk (r * UArray2_width b0 + c)) as (b & -> & _); [nia|].
    rewrite bind_Ok. unfold UArray_free.
    change (handle (Some b)) with (Ok b). rewrite !bind_Ok.
    destruct (UArray2_assign_ok b1 (r * UArray2_width b0 + c) None)
      as (b2 & Has).
    { destruct Hwf1 as (_ & _ & _ & ->). rewrite Hw1, Hh1. nia. }
    rewrite Has, bind_Ok. eexists. split; [reflexivity|]. cbn [fst snd].
    destruct (UArray2_assign_wf _ _ _ _ Hwf1 Has) as (? & ? & ? & ?).
    split_and!; try congruence.
    intros c' r' Hc' Hr'. rewrite (UArray2_deref_assign _ _ _ _ Hwf1 Has).
    case_decide as Heq.
    - apply quot_rem_unique in Heq as [-> ->]; [|lia..].
      rewrite decide_True; [done|]. apply elem_of_app. right.
      apply list_elem_of_here.
    - rewrite Hd1 by done.
      destruct (decide ((c', r') ∈ done)) as [Hin'|Hnin'].
      + rewrite decide_True; [done|]. apply elem_of_app. by left.
      + rewrite decide_False; [done|]. intros [Hin'|Hin']%elem_of_app;
          [done|]. apply list_elem_of_singleton in Hin'. congruence. }
  cbn [fst snd] in *. exists blocks. split_and!; try done.
  intros bc br Hbc Hbr. unfold UArray2_get.
  rewrite UArray2_at_ok by done. rewrite bind_Ok, Hw'.
  rewrite Hdone by lia. rewrite decide_True; [done|].
  apply elem_of_row_major_coords. lia.
Qed.

(** X9.  [UArray2b_free] of a grid that satisfies what the constructors
    establish fails no assertion and leaves the handle NULL.  Its
    traversal with [blocks_free] releases the buffer of every block and
    leaves every cell of the block grid NULL, so that [blocks_free] on
    any cell after it would fail the assertion of the buffer's free: each
    buffer is released once.  [UArray2b_free] of a NULL handle fails its
    assertion. *)
Theorem X9_free_releases_every_block_once a :
  UArray2b_wf a →
  UArray2b_free (Some a) = Ok None ∧
  (∃ blocks,
     UArray2_map_row_major (UArray2b_blocks a) blocks_free tt
       = Ok (blocks, tt) ∧
     ∀ blk_col blk_row,
       0 ≤ blk_col < UArray2_width (UArray2b_blocks a) →
       0 ≤ blk_row < UArray2_height (UArray2b_blocks a) →
       UArray2_get blocks blk_col blk_row = Ok None ∧
       blocks_free blk_col blk_row blocks
         (blk_row * UArray2_width blocks + blk_col) tt
       = Err Assert_Failed) ∧
  UArray2b_free (E:=E) None = Err Assert_Failed.
Proof.
  intros Hwf.
  destruct (blocks_free_all a Hwf) as (blocks & Hmap & Hw & Hh & Hnone).
  split_and!.
  - unfold UArray2b_free. change (handle (Some a)) with (Ok a).
    rewrite bind_Ok, Hmap. reflexivity.
  - exists blocks. split; [done|]. intros bc br Hbc Hbr.
    pose proof (Hnone bc br ltac:(lia) ltac:(lia)) as Hget.
    split; [done|]. unfold UArray2_get in Hget.
    apply bind_Ok_inv in Hget as (p & Hat & Hderef).
    apply UArray2_at_inv in Hat as (_ & _ & ->).
    unfold blocks_free. rewrite Hderef. reflexivity.
  - reflexivity.
Qed.
End UArray2b_traversal.


Lemma X7_witness :
  ∃ a : UArray2b_T Z,
    UArray2b_new 3 5 1 3 = Ok a ∧
    UArray2b_map a record_visit []
    = foldM (λ st cr, UArray2b_visit record_visit cr.1 cr.2 st)
        (row_major_coords 3 5) (a, []).
Proof.
  destruct (UArray2b_init_ok (E:=Z) 3 5 1 3)
    as (a & Hnew & Hwf & Hw & Hh & _ & Hbs); [lia.. | unfold INT_MAX; lia |].
  exists a. split; [exact Hnew|].
  rewrite (X7_blocks_of_one_cell_or_full_width_are_row_major
             _ a record_visit [] Hwf); [|right; congruence].
  rewrite Hw, Hh. reflexivity.
Defined.

Lemma X8_witness :
  ∃ a a' : UArray2b_T Z,
    UArray2b_new 10 10 1 4 = Ok a ∧
    UArray2b_map a (UArray2b_fill (λ col row, 10 * row + col)) tt
      = Ok (a', tt) ∧
    UArray2b_get a' 9 6 = Ok 69.
Proof.
  destruct (UArray2b_init_ok (E:=Z) 10 10 1 4)
    as (a & Hnew & Hwf & Hw & Hh & _); [lia.. | unfold INT_MAX; lia |].
  destruct (X8_traversal_that_writes_fills_the_grid a
              (λ col row, 10 * row + col) Hwf)
    as (a' & Hmap & _ & _ & _ & Hget).
  exists a, a'. split; [exact Hnew|]. split; [exact Hmap|].
  apply (Hget 9 6); lia.
Defined.

Lemma X9_witness :
  ∃ a : UArray2b_T Z,
    UArray2b_new 10 10 1 4 = Ok a ∧ UArray2b_free (Some a) = Ok None.
Proof.
  destruct (UArray2b_init_ok (E:=Z) 10 10 1 4)
    as (a & Hnew & Hwf & _); [lia.. | unfold INT_MAX; lia |].
  exists a. split; [exact Hnew|].
  exact (proj1 (X9_free_releases_every_block_once a Hwf)).
Defined.

(** ** The small traversals of the plain suite *)

Section small_traversals.
Context {E : Type} `{Zero E}.

Lemma UArray2_visit_eq {S} (apply : UArray2_applyfun E S) (a : UArray2_T E)
    (col row : Z) (cl : S) :
  UArray2_visit apply col row (a, cl)
  = UArray2_at a col row ≫= λ elem, apply col row a elem cl.
Proof. reflexivity. Qed.

Lemma foldM_apply_small {S} (l : list (Z * Z)) (a : UArray2_T E)
    (apply : A2Methods.smallapplyfun (UArray2_T E) Z S) (cl : S) :
  foldM (λ st cr, UArray2_visit A2Plain.apply_small cr.1 cr.2 st) l
        (a, A2Plain.Small_closure S apply cl)
    ≫= (λ '(a2, mycl), Ok (a2, A2Plain.small_closure_cl mycl))
  = foldM (λ st cr,
             UArray2_visit (λ _ _ a elem cl, apply a elem cl) cr.1 cr.2 st)
          l (a, cl).
Proof.
  revert a cl. induction l as [|[c r] l IH]; intros a cl; [reflexivity|].
  rewrite !foldM_cons. cbn [fst snd]. rewrite !UArray2_visit_eq.
  destruct (UArray2_at a c r) as [elem|e]; [|reflexivity].
  rewrite !bind_Ok. unfold A2Plain.apply_small. cbn [A2Plain.apply A2Plain.cl].
  destruct (apply a elem cl) as [[a2 ucl]|e]; [|reflexivity].
  rewrite !bind_Ok. apply IH.
Qed.

(** X10.  The small traversals of the plain suite are its traversals
    with the coordinates dropped: [small_map_row_major] and
    [small_map_col_major], which wrap the callback and the closure of
    the caller in a [small_closure] and traverse with [apply_small], end
    as [map_row_major] and [map_col_major] do with the callback that
    ignores the coordinates: the same calls in the same order, the same
    array and the same closure of the caller at the end, or the same
    failure. *)
Theorem X10_small_traversals_drop_the_coordinates (S : Type)
    (a : UArray2_T E) (apply : A2Methods.smallapplyfun (UArray2_T E) Z S)
    (cl : S) :
  A2Plain.small_map_row_major S a apply cl
  = A2Plain.map_row_major S a (λ _ _ a elem cl, apply a elem cl) cl ∧
  A2Plain.small_map_col_major S a apply cl
  = A2Plain.map_col_major S a (λ _ _ a elem cl, apply a elem cl) cl.
Proof.
  unfold A2Plain.small_map_row_major, A2Plain.small_map_col_major,
    A2Plain.map_row_major, A2Plain.map_col_major. cbv zeta.
  rewrite !UArray2_map_row_major_foldM, !UArray2_map_col_major_foldM.
  split; apply foldM_apply_small.
Qed.
End small_traversals.

(** ** Whole-image transforms *)

Lemma src_coord_spec (op : operation) (W H col row : Z) :
  0 ≤ col < (dest_dims op W H).1 → 0 ≤ row < (dest_dims op W H).2 →
  let sc := src_coord op W H col row in
  0 ≤ sc.1 < W ∧ 0 ≤ sc.2 < H ∧ dest_coord op W H sc.1 sc.2 = (col, row).
Proof.
  destruct op; simpl; intros Hc Hr; split_and!; try lia; f_equal; lia.
Qed.

Lemma A2_visit_eq {E S} (m : A2Methods.T E)
    (apply : A2Methods.applyfun (A2Methods.A2 m) (A2Methods.Object m) S)
    (a : A2Methods.A2 m) (cl : S) (col row : Z) :
  A2_visit m apply (a, cl) (col, row)
  = A2Methods.at_ m a col row ≫= λ elem, apply col row a elem cl.
Proof. reflexivity. Qed.

Section transform_images.
Context {m : Ppmtrans.A2Methods_T} {valid : A2Methods.A2 m → Prop}.
Context (L : A2_contract m valid).

Import Ppmtrans.

(** What one transform does to an image, read from the result: every
    pixel of the result is the pixel of the source at the coordinate
    that the operation sends there. *)
Lemma transform_pixels (op : operation) (type mag : Z) f (ppm : Pnm_ppm m) :
  requests op type mag → A2_offers m f → Pnm_ppm_wf valid ppm →
  ∃ ppm',
    transform ppm (Some f) type mag = Ok ppm' ∧
    Pnm_ppm_wf valid ppm' ∧
    width ppm' = (dest_dims op (width ppm) (height ppm)).1 ∧
    height ppm' = (dest_dims op (width ppm) (height ppm)).2 ∧
    denominator ppm' = denominator ppm ∧
    ∀ col row, 0 ≤ col < width ppm' → 0 ≤ row < height ppm' →
      let sc := src_coord op (width ppm) (height ppm) col row in
      ∃ v, A2_get m (pixels ppm) sc.1 sc.2 = Ok v ∧
           A2_get m (pixels ppm') col row = Ok v.
Proof.
  intros Hreq Hf Hwf.
  destruct (transform_spec L op type mag f ppm Hreq Hf Hwf)
    as (ppm' & Ht & Hwf' & Hd & Hden & Hpix).
  exists ppm'. symmetry in Hd. rename Hd into Hdd.
  split_and!; try done; try (by rewrite Hdd).
  intros col row Hc Hr.
  destruct (src_coord_spec op (width ppm) (height ppm) col row)
    as (Hsc1 & Hsc2 & Hdc); [by rewrite Hdd..|].
  cbv zeta. destruct (Hpix _ _ Hsc1 Hsc2) as (v & Hv & Hv').
  cbv zeta in Hv'. rewrite Hdc in Hv'. exists v. done.
Qed.

(** [create_image] succeeds on every image whose record and pixel
    array agree, whatever the request, and leaves the pixels alone. *)
Lemma create_image_ok (ppm : Pnm_ppm m) (type mag : Z) :
  Pnm_ppm_wf valid ppm →
  ∃ ppm0 image, create_image ppm type mag = Ok (ppm0, image) ∧
                pixels ppm0 = pixels ppm.
Proof.
  intros (Hv & HW & HH).
  destruct (contract_dims m valid L _ Hv) as [HWpos HHpos].
  unfold create_image.
  destruct (_ || _).
  - destruct (contract_new m valid L (height ppm) (width ppm) sizeof_Pnm_rgb)
      as (image & Hnew & _); [lia | lia | done |].
    rewrite Hnew, bind_Ok. eauto.
  - destruct (contract_new m valid L (width ppm) (height ppm) sizeof_Pnm_rgb)
      as (image & Hnew & _); [lia | lia | done |].
    rewrite Hnew, bind_Ok. eauto.
Qed.

(** A transform whose callback fails on every pixel fails at the first
    call of the traversal. *)
Lemma transform_first_call f (ppm : Pnm_ppm m) (type mag : Z) (e : error) :
  A2_offers m f → Pnm_ppm_wf valid ppm →
  (∀ col row p image,
     A2Methods.at_ m (pixels ppm) col row = Ok p →
     call_apply (transform_init None type) col row (pixels ppm) p
                (Result image mag) = Err e) →
  transform ppm (Some f) type mag = Err e.
Proof.
  intros Hf Hwf Hcall. pose proof Hwf as (Hv & HW & HH).
  destruct (contract_dims m valid L _ Hv) as [HWpos HHpos].
  destruct (create_image_ok ppm type mag Hwf) as (ppm0 & image & Hci & Hpx).
  unfold transform. rewrite Hci, bind_Ok. cbv beta iota zeta.
  unfold transform_image, result_init. rewrite Hpx.
  destruct (contract_map m valid L f _ Hf Hv) as (coords & Hcoords & Hmap).
  rewrite Hmap.
  destruct coords as [|[c r] coords].
  { exfalso. assert ((0, 0) ∈ @nil (Z * Z)) as Hin; [|inversion Hin].
    apply Hcoords. unfold A2_in_bounds. lia. }
  rewrite foldM_cons, A2_visit_eq.
  destruct (contract_at m valid L (pixels ppm) c r Hv) as (p & Hp).
  { apply Hcoords. left. }
  rewrite Hp, bind_Ok, (Hcall c r p image Hp). reflexivity.
Qed.

(** X11.  What [transform] does to an image, over a suite that keeps
    its contract and with any traversal that the suite offers, for each
    of the seven operations: it returns an image whose record and pixel
    array agree, with the width and the height of the operation's
    destination and the denominator of the source.  Every pixel of the
    source is found in the result at the coordinate of the operation's
    table, which lies in the result; and every pixel of the result is
    the pixel of one coordinate of the source, so that none is left as
    allocated. *)
Theorem X11_transform_moves_every_pixel (op : operation) (type mag : Z)
    f (ppm : Pnm_ppm m) :
  requests op type mag → A2_offers m f → Pnm_ppm_wf valid ppm →
  let W := width ppm in
  let H := height ppm in
  ∃ ppm',
    transform ppm (Some f) type mag = Ok ppm' ∧
    Pnm_ppm_wf valid ppm' ∧
    (width ppm', height ppm') = dest_dims op W H ∧
    denominator ppm' = denominator ppm ∧
    (∀ col row, 0 ≤ col < W → 0 ≤ row < H →
       let dc := dest_coord op W H col row in
       0 ≤ dc.1 < width ppm' ∧ 0 ≤ dc.2 < height ppm' ∧
       ∃ v, A2_get m (pixels ppm) col row = Ok v ∧
            A2_get m (pixels ppm') dc.1 dc.2 = Ok v) ∧
    (∀ col row, 0 ≤ col < width ppm' → 0 ≤ row < height ppm' →
       let sc := src_coord op W H col row in
       0 ≤ sc.1 < W ∧ 0 ≤ sc.2 < H ∧
       dest_coord op W H sc.1 sc.2 = (col, row) ∧
       ∃ v, A2_get m (pixels ppm) sc.1 sc.2 = Ok v ∧
            A2_get m (pixels ppm') col row = Ok v).
Proof.
  intros Hreq Hf Hwf W H.
  destruct (transform_spec L op type mag f ppm Hreq Hf Hwf)
    as (ppm' & Ht & Hwf' & Hd & Hden & Hpix).
  exists ppm'. fold W H in Hd, Hpix. split_and!; try done.
  - intros col row Hc Hr.
    pose proof (dest_coord_in_bounds op W H col row Hc Hr) as Hb.
    rewrite <- Hd in Hb. cbn [fst snd] in Hb.
    destruct (Hpix col row Hc Hr) as (v & Hv & Hv'). cbv zeta in *.
    split_and!; try lia. exists v. done.
  - intros col row Hc Hr.
    destruct (src_coord_spec op W H col row) as (Hsc1 & Hsc2 & Hdc);
      [by rewrite <- Hd..|].
    cbv zeta in *. do 3 (split; [done|]).
    destruct (Hpix _ _ Hsc1 Hsc2) as (v & Hv & Hv'). cbv zeta in Hv'.
    rewrite Hdc in Hv'. exists v. done.
Qed.

(** X12.  The result of [transform] does not depend on the traversal:
    with any two traversals that the suite offers (row-major and
    column-major for the plain suite), the same request on the same
    image gives images of the same width, height and denominator that
    hold the same pixel at every coordinate. *)
Theorem X12_result_does_not_depend_on_the_traversal (op : operation)
    (type mag : Z) f g (ppm : Pnm_ppm m) :
  requests op type mag → A2_offers m f → A2_offers m g →
  Pnm_ppm_wf valid ppm →
  ∃ ppm1 ppm2,
    transform ppm (Some f) type mag = Ok ppm1 ∧
    transform ppm (Some g) type mag = Ok ppm2 ∧
    width ppm1 = width ppm2 ∧ height ppm1 = height ppm2 ∧
    denominator ppm1 = denominator ppm2 ∧
    ∀ col row, 0 ≤ col < width ppm1 → 0 ≤ row < height ppm1 →
      ∃ v, A2_get m (pixels ppm1) col row = Ok v ∧
           A2_get m (pixels ppm2) col row = Ok v.
Proof.
  intros Hreq Hf Hg Hwf.
  destruct (transform_pixels op type mag f ppm Hreq Hf Hwf)
    as (ppm1 & Ht1 & _ & Hw1 & Hh1 & Hden1 & Hpix1).
  destruct (transform_pixels op type mag g ppm Hreq Hg Hwf)
    as (ppm2 & Ht2 & _ & Hw2 & Hh2 & Hden2 & Hpix2).
  exists ppm1, ppm2. split_and!; try congruence.
  intros col row Hc Hr.
  destruct (Hpix1 col row Hc Hr) as (v1 & Hs1 & Hv1).
  destruct (Hpix2 col row) as (v2 & Hs2 & Hv2); [congruence..|].
  cbv zeta in *. exists v1. split; [done|]. congruence.
Qed.

(** X13.  Every operation is undone by an operation: a rotation by 90
    by a rotation by 270 and the other way round, and a rotation by 0 or
    by 180, a flip and a transpose by itself.  [transform] with an
    operation followed by [transform] with the operation that undoes it
    gives an image of the width, height and denominator of the original
    that holds the pixel of the original at every coordinate. *)
Theorem X13_inverse_operation_gives_the_image_back (op : operation)
    (type mag type' mag' : Z) f g (ppm : Pnm_ppm m) :
  requests op type mag → requests (inverse_of op) type' mag' →
  A2_offers m f → A2_offers m g → Pnm_ppm_wf valid ppm →
  ∃ ppm1 ppm2,
    transform ppm (Some f) type mag = Ok ppm1 ∧
    transform ppm1 (Some g) type' mag' = Ok ppm2 ∧
    width ppm2 = width ppm ∧ height ppm2 = height ppm ∧
    denominator ppm2 = denominator ppm ∧
    ∀ col row, 0 ≤ col < width ppm → 0 ≤ row < height ppm →
      ∃ v, A2_get m (pixels ppm) col row = Ok v ∧
           A2_get m (pixels ppm2) col row = Ok v.
Proof.
  intros Hreq Hreq' Hf Hg Hwf.
  destruct (transform_pixels op type mag f ppm Hreq Hf Hwf)
    as (ppm1 & Ht1 & Hwf1 & Hw1 & Hh1 & Hden1 & Hpix1).
  destruct (transform_pixels (inverse_of op) type' mag' g ppm1 Hreq' Hg Hwf1)
    as (ppm2 & Ht2 & _ & Hw2 & Hh2 & Hden2 & Hpix2).
  exists ppm1, ppm2.
  assert (width ppm2 = width ppm ∧ height ppm2 = height ppm) as [HW HH].
  { rewrite Hw2, Hh2, Hw1, Hh1. destruct op; done. }
  split_and!; try congruence.
  intros col row Hc Hr.
  destruct (Hpix2 col row) as (v2 & Hs2 & Hv2); [lia..|].
  cbv zeta in Hs2.
  set (sc := src_coord (inverse_of op) (width ppm1) (height ppm1) col row)
    in *.
  assert (0 ≤ sc.1 < width ppm1 ∧ 0 ≤ sc.2 < height ppm1 ∧
          src_coord op (width ppm) (height ppm) sc.1 sc.2 = (col, row))
    as (Hsc1 & Hsc2 & Hback).
  { unfold sc. rewrite Hw1, Hh1. destruct op; simpl in *;
      split_and!; try lia; f_equal; lia. }
  destruct (Hpix1 sc.1 sc.2 Hsc1 Hsc2) as (v1 & Hs1 & Hv1).
  cbv zeta in Hs1. rewrite Hback in Hs1. cbn [fst snd] in Hs1.
  exists v1. split; [done|]. congruence.
Qed.

(** X14.  Two transforms in a row are one transform: whenever the table
    [followed_by] gives an operation for [op1] followed by [op2] (twice
    a rotation by 90 is a rotation by 180, a rotation by 90 followed by
    a horizontal flip is a transpose, a horizontal followed by a
    vertical flip is a rotation by 180, and so on), [transform] with
    [op1] and then with [op2] gives an image of the same width, height
    and denominator, with the same pixel at every coordinate, as
    [transform] with that operation on the original. *)
Theorem X14_two_operations_in_a_row (op1 op2 op3 : operation)
    (type1 mag1 type2 mag2 type3 mag3 : Z) f g h (ppm : Pnm_ppm m) :
  followed_by op1 op2 = Some op3 →
  requests op1 type1 mag1 → requests op2 type2 mag2 →
  requests op3 type3 mag3 →
  A2_offers m f → A2_offers m g → A2_offers m h → Pnm_ppm_wf valid ppm →
  ∃ ppm1 ppm2 ppm3,
    transform ppm (Some f) type1 mag1 = Ok ppm1 ∧
    transform ppm1 (Some g) type2 mag2 = Ok ppm2 ∧
    transform ppm (Some h) type3 mag3 = Ok ppm3 ∧
    width ppm2 = width ppm3 ∧ height ppm2 = height ppm3 ∧
    denominator ppm2 = denominator ppm3 ∧
    ∀ col row, 0 ≤ col < width ppm3 → 0 ≤ row < height ppm3 →
      ∃ v, A2_get m (pixels ppm2) col row = Ok v ∧
           A2_get m (pixels ppm3) col row = Ok v.
Proof.
  intros Hcomp Hreq1 Hreq2 Hreq3 Hf Hg Hh Hwf.
  destruct (transform_pixels op1 type1 mag1 f ppm Hreq1 Hf Hwf)
    as (ppm1 & Ht1 & Hwf1 & Hw1 & Hh1 & Hden1 & Hpix1).
  destruct (transform_pixels op2 type2 mag2 g ppm1 Hreq2 Hg Hwf1)
    as (ppm2 & Ht2 & _ & Hw2 & Hh2 & Hden2 & Hpix2).
  destruct (transform_pixels op3 type3 mag3 h ppm Hreq3 Hh Hwf)
    as (ppm3 & Ht3 & _ & Hw3 & Hh3 & Hden3 & Hpix3).
  exists ppm1, ppm2, ppm3.
  assert (width ppm2 = width ppm3 ∧ height ppm2 = height ppm3) as [HW HH].
  { rewrite Hw2, Hh2, Hw1, Hh1, Hw3, Hh3.
    destruct op1, op2; simpl in Hcomp; try discriminate;
      injection Hcomp as <-; done. }
  split_and!; try congruence.
  intros col row Hc Hr.
  destruct (Hpix3 col row Hc Hr) as (v3 & Hs3 & Hv3).
  destruct (Hpix2 col row) as (v2 & Hs2 & Hv2); [lia..|].
  cbv zeta in Hs2, Hs3.
  set (sc := src_coord op2 (width ppm1) (height ppm1) col row) in *.
  assert (0 ≤ sc.1 < width ppm1 ∧ 0 ≤ sc.2 < height ppm1 ∧
          src_coord op1 (width ppm) (height ppm) sc.1 sc.2
          = src_coord op3 (width ppm) (height ppm) col row)
    as (Hsc1 & Hsc2 & Hsame).
  { unfold sc. rewrite Hw3 in Hc. rewrite Hh3 in Hr. rewrite Hw1, Hh1.
    destruct op1, op2; simpl in Hcomp; try discriminate;
      injection Hcomp as <-; simpl in *;
      split_and!; try lia; f_equal; lia. }
  destruct (Hpix1 sc.1 sc.2 Hsc1 Hsc2) as (v1 & Hs1 & Hv1).
  cbv zeta in Hs1. rewrite Hsame in Hs1.
  exists v2. split; [done|]. congruence.
Qed.

(** X15.  [transform] needs a transform type that it knows and a
    traversal.  On an image whose record and pixel array agree and with
    a traversal that the suite offers, it returns an image for each of
    the seven requests.  With a transform type that is none of
    [ROTATE], [FLIP] and [TRANSPOSE], [transform_init] leaves the
    callback NULL, and the first call of the traversal goes through the
    null function pointer.  With a NULL traversal the call of the
    traversal is the call through a null function pointer, whatever the
    request. *)
Theorem X15_transform_needs_a_known_type_and_a_traversal f
    (ppm : Pnm_ppm m) (type mag : Z) :
  A2_offers m f → Pnm_ppm_wf valid ppm →
  ((∃ op, requests op type mag) →
   ∃ ppm', transform ppm (Some f) type mag = Ok ppm') ∧
  (type ≠ ROTATE → type ≠ FLIP → type ≠ TRANSPOSE →
   transform_init (methods:=m) None type = None ∧
   transform ppm (Some f) type mag = Err Null_Deref) ∧
  transform ppm None type mag = Err Null_Deref.
Proof.
  intros Hf Hwf. split_and!.
  - intros (op & Hreq).
    destruct (transform_spec L op type mag f ppm Hreq Hf Hwf)
      as (ppm' & Ht & _).
    eauto.
  - intros H0 H1 H2.
    assert (transform_init (methods:=m) None type = None) as Hinit.
    { unfold transform_init, ROTATE, FLIP, TRANSPOSE in *.
      repeat (case_match; [lia|]). reflexivity. }
    split; [exact Hinit|]. apply transform_first_call; try done.
    intros col row p image _. rewrite Hinit. reflexivity.
  - destruct (create_image_ok ppm type mag Hwf) as (ppm0 & image & Hci & _).
    unfold transform. rewrite Hci, bind_Ok. reflexivity.
Qed.
End transform_images.

Section transform_image_witnesses.
Import Ppmtrans.

Let plain : A2Methods_T := A2Plain.uarray2_methods_plain_struct.

Lemma plain_image_wf (w h : Z) (source : UArray2_T Pnm_rgb) :
  UArray2_wf source → UArray2_width source = w → UArray2_height source = h →
  Pnm_ppm_wf (m:=plain) UArray2_wf (Ppm (methods:=plain) w h 255 source).
Proof.
  intros Hwf Hw Hh. split; [exact Hwf|]. simpl.
  unfold A2Plain.width, A2Plain.height. rewrite Hw, Hh. split; reflexivity.
Qed.

Lemma X11_witness :
  ∃ (source : UArray2_T Pnm_rgb) (ppm' : Pnm_ppm plain),
    UArray2_new 2 3 12 = Ok source ∧
    transform (Ppm (methods:=plain) 2 3 255 source)
      (Some A2Plain.map_col_major) ROTATE 270 = Ok ppm' ∧
    (width ppm', height ppm') = (3, 2).
Proof.
  destruct (UArray2_new_ok (E:=Pnm_rgb) 2 3 12)
    as (src & Hs & Hvs & Hsw & Hsh & _); [lia..|].
  destruct (X11_transform_moves_every_pixel (m:=plain) plain_contract
              Rotate270 ROTATE 270 A2Plain.map_col_major
              (Ppm (methods:=plain) 2 3 255 src))
    as (ppm' & Hrun & _ & Hdims & _).
  - split; reflexivity.
  - right. left. reflexivity.
  - by apply plain_image_wf.
  - exists src, ppm'. split; [exact Hs|]. split; [exact Hrun | exact Hdims].
Defined.

Lemma X12_witness :
  ∃ (source : UArray2_T Pnm_rgb) (ppm1 ppm2 : Pnm_ppm plain),
    UArray2_new 2 3 12 = Ok source ∧
    transform (Ppm (methods:=plain) 2 3 255 source)
      (Some A2Plain.map_row_major) FLIP VERT = Ok ppm1 ∧
    transform (Ppm (methods:=plain) 2 3 255 source)
      (Some A2Plain.map_col_major) FLIP VERT = Ok ppm2 ∧
    width ppm1 = width ppm2 ∧ height ppm1 = height ppm2.
Proof.
  destruct (UArray2_new_ok (E:=Pnm_rgb) 2 3 12)
    as (src & Hs & Hvs & Hsw & Hsh & _); [lia..|].
  destruct (X12_result_does_not_depend_on_the_traversal (m:=plain)
              plain_contract FlipVertical FLIP VERT
              A2Plain.map_row_major A2Plain.map_col_major
              (Ppm (methods:=plain) 2 3 255 src))
    as (ppm1 & ppm2 & Hrun1 & Hrun2 & Hw & Hh & _).
  - split; reflexivity.
  - left. reflexivity.
  - right. left. reflexivity.
  - by apply plain_image_wf.
  - exists src, ppm1, ppm2. split; [exact Hs|]. split; [exact Hrun1|].
    split; [exact Hrun2|]. split; [exact Hw | exact Hh].
Defined.

Lemma X13_witness :
  ∃ (source : UArray2_T Pnm_rgb) (ppm1 ppm2 : Pnm_ppm plain),
    UArray2_new 2 3 12 = Ok source ∧
    transform (Ppm (methods:=plain) 2 3 255 source)
      (Some A2Plain.map_row_major) ROTATE 90 = Ok ppm1 ∧
    transform ppm1 (Some A2Plain.map_col_major) ROTATE 270 = Ok ppm2 ∧
    width ppm2 = 2 ∧ height ppm2 = 3.
Proof.
  destruct (UArray2_new_ok (E:=Pnm_rgb) 2 3 12)
    as (src & Hs & Hvs & Hsw & Hsh & _); [lia..|].
  destruct (X13_inverse_operation_gives_the_image_back (m:=plain)
              plain_contract Rotate90 ROTATE 90 ROTATE 270
              A2Plain.map_row_major A2Plain.map_col_major
              (Ppm (methods:=plain) 2 3 255 src))
    as (ppm1 & ppm2 & Hrun1 & Hrun2 & Hw & Hh & _).
  - split; reflexivity.
  - split; reflexivity.
  - left. reflexivity.
  - right. left. reflexivity.
  - by apply plain_image_wf.
  - exists src, ppm1, ppm2. split; [exact Hs|]. split; [exact Hrun1|].
    split; [exact Hrun2|]. split; [exact Hw | exact Hh].
Defined.

Lemma X14_witness :
  ∃ (source : UArray2_T Pnm_rgb) (ppm1 ppm2 ppm3 : Pnm_ppm plain),
    UArray2_new 2 3 12 = Ok source ∧
    transform (Ppm (methods:=plain) 2 3 255 source)
      (Some A2Plain.map_row_major) ROTATE 90 = Ok ppm1 ∧
    transform ppm1 (Some A2Plain.map_row_major) FLIP HORIZ = Ok ppm2 ∧
    transform (Ppm (methods:=plain) 2 3 255 source)
      (Some A2Plain.map_row_major) TRANSPOSE 0 = Ok ppm3 ∧
    width ppm2 = width ppm3 ∧ height ppm2 = height ppm3.
Proof.
  destruct (UArray2_new_ok (E:=Pnm_rgb) 2 3 12)
    as (src & Hs & Hvs & Hsw & Hsh & _); [lia..|].
  destruct (X14_two_operations_in_a_row (m:=plain) plain_contract
              Rotate90 FlipHorizontal Transpose
              ROTATE 90 FLIP HORIZ TRANSPOSE 0
              A2Plain.map_row_major A2Plain.map_row_major
              A2Plain.map_row_major (Ppm (methods:=plain) 2 3 255 src))
    as (ppm1 & ppm2 & ppm3 & Hrun1 & Hrun2 & Hrun3 & Hw & Hh & _).
  - reflexivity.
  - split; reflexivity.
  - split; reflexivity.
  - reflexivity.
  - left. reflexivity.
  - left. reflexivity.
  - left. reflexivity.
  - by apply plain_image_wf.
  - exists src, ppm1, ppm2, ppm3. split; [exact Hs|]. split; [exact Hrun1|].
    split; [exact Hrun2|]. split; [exact Hrun3|].
    split; [exact Hw | exact Hh].
Defined.

Lemma X15_witness :
  ∃ source : UArray2_T Pnm_rgb,
    UArray2_new 2 3 12 = Ok source ∧
    transform (Ppm (methods:=plain) 2 3 255 source)
      (Some A2Plain.map_row_major) 3 0 = Err Null_Deref ∧
    transform (Ppm (methods:=plain) 2 3 255 source) None ROTATE 90
    = Err Null_Deref.
Proof.
  destruct (UArray2_new_ok (E:=Pnm_rgb) 2 3 12)
    as (src & Hs & Hvs & Hsw & Hsh & _); [lia..|].
  exists src. split; [exact Hs|].
  destruct (X15_transform_needs_a_known_type_and_a_traversal (m:=plain)
              plain_contract A2Plain.map_row_major
              (Ppm (methods:=plain) 2 3 255 src) 3 0)
    as (_ & Hnull & _); [left; reflexivity | by apply plain_image_wf |].
  destruct (X15_transform_needs_a_known_type_and_a_traversal (m:=plain)
              plain_contract A2Plain.map_row_major
              (Ppm (methods:=plain) 2 3 255 src) ROTATE 90)
    as (_ & _ & Hmap); [left; reflexivity | by apply plain_image_wf |].
  split; [|exact Hmap].
  apply Hnull; unfold ROTATE, FLIP, TRANSPOSE; lia.
Defined.
End transform_image_witnesses.

(** ** The argument loop and [main] *)

Section command_line_outcomes.
Import Ppmtrans.

Context (blocked : option A2Methods_T).
Context (strtol : string → Z * string).

Lemma argv_at_elem_of (argv : list string) (i : nat) (s : string) :
  argv_at argv i = s → s ≠ "" → argv !! i = Some s.
Proof.
  unfold argv_at. destruct (argv !! i) as [x|]; simpl; congruence.
Qed.

Lemma argv_at_lookup (argv : list string) (i : nat) :
  (i < length argv)%nat → argv !! i = Some (argv_at argv i).
Proof.
  intros Hi. unfold argv_at.
  destruct (lookup_lt_is_Some_2 argv i Hi) as [x ->]. reflexivity.
Qed.

Lemma SET_METHODS_inv progname METHODS MAP WHAT (st st' : cli) :
  SET_METHODS progname METHODS MAP WHAT st = Ok st' →
  ∃ m f, METHODS = Some m ∧ MAP m = Some f ∧
    st' = Cli m (Some f) (transform_type st) (magnitude_arg st)
              (time_file_name st) (filename st).
Proof.
  unfold SET_METHODS. destruct METHODS as [m|]; [|discriminate]. simpl.
  destruct (MAP m) as [f|] eqn:Hf; [|discriminate].
  intros [= <-]. eauto.
Qed.

Lemma SET_METHODS_error progname METHODS MAP WHAT (st : cli) (e : error) :
  SET_METHODS progname METHODS MAP WHAT st = Err e →
  (METHODS = None ∧ e = Assert_Failed) ∨
  (∃ m, METHODS = Some m ∧ MAP m = None ∧
        e = Exit 1 (progname +:+ " does not support " +:+ WHAT +:+
                    "mapping" +:+ nl)).
Proof.
  unfold SET_METHODS. destruct METHODS as [m|]; simpl.
  - destruct (MAP m) as [f|] eqn:Hf; [discriminate|].
    intros [= <-]. right. eauto.
  - intros [= <-]. left. done.
Qed.

(** Take the body of the loop apart, one case per branch. *)
Ltac loop_body_cases :=
  unfold loop_body;
  repeat match goal with
  | |- context [String.eqb ?a ?b] =>
      let H := fresh "Harg" in destruct (String.eqb a b) eqn:H
  end;
  try match goal with
  | |- context [strtol ?s] =>
      let v := fresh "v" in
      let endptr := fresh "endptr" in
      destruct (strtol s) as [v endptr]
  end;
  repeat match goal with
  | |- context [if ?b then _ else _] =>
      let H := fresh "Hcond" in destruct b eqn:H
  end.

(** The ways in which a round of the loop ends the run. *)
Lemma loop_body_error (argv : list string) (i : nat) (st : cli) (e : error) :
  (i < length argv)%nat →
  loop_body blocked strtol argv i st = Err e →
  (∃ printed, printed ∈ diagnostics argv ∧
              ∀ A, usage (A:=A) printed (argv_at argv 0) = Err e) ∨
  (argv_at argv i = "-block-major" ∧
   ((blocked = None ∧ e = Assert_Failed) ∨
    (∃ b, blocked = Some b ∧ A2Methods.map_block_major b = None ∧
          e = Exit 1 (no_block_major (argv_at argv 0))))).
Proof.
  intros Hi. loop_body_cases; intros Hbody; try discriminate.
  all: try (apply bind_Err_inv in Hbody as [Hset|(x & _ & [=])];
            apply SET_METHODS_error in Hset as [[[=] _]|(b & Hb & Hmap & ->)];
            [injection Hb as <-; discriminate Hmap]).
  all: try (left; eexists; split;
            [|unfold usage in *; injection Hbody as <-; reflexivity];
            unfold diagnostics; rewrite !elem_of_app, !elem_of_cons;
            by eauto 10).
  - right. split; [by apply String.eqb_eq|].
    apply bind_Err_inv in Hbody as [Hset|(x & _ & [=])].
    apply SET_METHODS_error in Hset as [[-> ->]|(b & -> & Hmap & ->)];
      [by left | right; eauto].
  - left. eexists.
    split; [|unfold usage in *; injection Hbody as <-; reflexivity].
    unfold diagnostics.
    apply elem_of_app. right. apply list_elem_of_fmap.
    exists (argv_at argv i). split; [reflexivity|].
    apply list_elem_of_lookup. exists i. by apply argv_at_lookup.
Qed.

(** An error of the loop is the error of one of its rounds. *)
Lemma loop_error (argv : list string) (fuel i : nat) (st : cli) (e : error) :
  (length argv ≤ fuel + i)%nat →
  loop blocked strtol fuel argv i st = Err e →
  ∃ j st', (j < length argv)%nat ∧
           loop_body blocked strtol argv j st' = Err e.
Proof.
  revert i st. induction fuel as [|fuel IH]; intros i st Hfuel.
  - rewrite loop_done by lia. discriminate.
  - destruct (decide (i < length argv)%nat) as [Hi|Hi];
      [|rewrite loop_done by lia; discriminate].
    rewrite loop_round by done.
    destruct (loop_body blocked strtol argv i st) as [[i' st']|e'] eqn:Hb.
    + rewrite bind_Ok. apply loop_body_spec in Hb as (Hi' & _).
      apply IH. lia.
    + rewrite bind_Err. intros [= ->]. eauto.
Qed.

(** An invariant of the loop that mentions the index. *)
Lemma loop_indexed_invariant (P : nat → cli → Prop) (argv : list string) :
  (∀ i st i' st', (i < length argv)%nat → P i st →
                  loop_body blocked strtol argv i st = Ok (i', st') →
                  P (i' + 1)%nat st') →
  ∀ fuel i st st',
    P i st → loop blocked strtol fuel argv i st = Ok st' →
    ∃ j, (length argv ≤ j)%nat ∧ P j st'.
Proof.
  intros Hbody. induction fuel as [|fuel IH]; intros i st st' HP;
    (destruct (decide (i < length argv)%nat) as [Hi|Hi];
     [|rewrite loop_done by lia; intros [= <-]; exists i; split; [lia|done]]).
  - cbn [loop]. rewrite (proj2 (Nat.ltb_lt i (length argv))) by lia.
    discriminate.
  - rewrite loop_round by done. intros Hloop.
    apply bind_Ok_inv in Hloop as ([i1 st1] & Hb & Hloop).
    eapply IH; [|exact Hloop]. eapply Hbody; eauto.
Qed.

Lemma loop_body_map_offered (argv : list string) (i i' : nat)
    (st st' : cli) :
  map_offered st →
  loop_body blocked strtol argv i st = Ok (i', st') → map_offered st'.
Proof.
  intros Hoff. loop_body_cases; intros Hbody; try discriminate.
  all: try (injection Hbody as <- <-; exact Hoff).
  all: apply bind_Ok_inv in Hbody as (st1 & Hset & [= <- <-]);
    apply SET_METHODS_inv in Hset as (m & f & _ & Hf & ->);
    exists f; split; [reflexivity|]; unfold A2_offers; cbn [methods]; auto.
Qed.

Lemma loop_body_names_from (argv : list string) (i i' : nat)
    (st st' : cli) :
  (0 < i < length argv)%nat → names_from argv i st →
  loop_body blocked strtol argv i st = Ok (i', st') →
  names_from argv (i' + 1) st'.
Proof.
  intros Hi [Hfile Htime].
  assert (filename st = None) as Hnone
    by (destruct Hfile as [|[? _]]; [done|lia]).
  loop_body_cases; intros Hbody; try discriminate.
  all: try (apply bind_Ok_inv in Hbody as (st1 & Hset & [= <- <-]);
            apply SET_METHODS_inv in Hset as (m & f & _ & Hf & ->)).
  all: try injection Hbody as <- <-.
  all: unfold names_from; cbn [filename time_file_name].
  all: try (split; [by left | exact Htime]).
  - split; [by left|]. intros t [= <-]. exists i.
    apply Nat.eqb_neq in Hcond.
    split; [lia|]. split.
    + apply argv_at_elem_of; [by apply String.eqb_eq | done].
    + apply argv_at_lookup. lia.
  - split; [|exact Htime]. right.
    apply Nat.ltb_ge in Hcond0.
    assert (i + 1 = length argv)%nat as Hlast by lia.
    split; [done|]. split; [lia|]. rewrite last_lookup.
    replace (pred (length argv)) with i by lia.
    rewrite (argv_at_lookup argv i) by lia. split; [done|].
    by intros f [= <-].
Qed.

Lemma request_ok_requests (st : cli) :
  request_ok st →
  ∃ op, requests op (transform_type st) (magnitude_arg st).
Proof.
  unfold request_ok. rewrite !elem_of_cons.
  intros [[Ht Hm]|[[Ht Hm]|Ht]].
  - destruct Hm as [Hm|[Hm|[Hm|[Hm|Hm]]]]; [..|inversion Hm].
    + by exists Rotate0.
    + by exists Rotate90.
    + by exists Rotate180.
    + by exists Rotate270.
  - destruct Hm as [Hm|[Hm|Hm]]; [..|inversion Hm].
    + by exists FlipHorizontal.
    + by exists FlipVertical.
  - by exists Transpose.
Qed.
(** A round leaves the index inside the command line, and never
    forgets an input file. *)
Lemma loop_body_index (argv : list string) (i i' : nat) (st st' : cli) :
  (i < length argv)%nat →
  loop_body blocked strtol argv i st = Ok (i', st') →
  (i' < length argv)%nat ∧ (is_Some (filename st) → is_Some (filename st')).
Proof.
  intros Hi. loop_body_cases; intros Hbody; try discriminate.
  all: try (apply bind_Ok_inv in Hbody as (st1 & Hset & [= <- <-]);
            apply SET_METHODS_inv in Hset as (m & f & _ & Hf & ->)).
  all: try injection Hbody as <- <-.
  all: cbn [filename]; split; try done; try lia.
  all: try (apply negb_false_iff, Nat.ltb_lt in Hcond; lia).
  apply Nat.eqb_neq in Hcond. lia.
Qed.

Lemma argv_at_app (argv rest : list string) (i : nat) :
  (i < length argv)%nat → argv_at (argv ++ rest) i = argv_at argv i.
Proof. intros Hi. unfold argv_at. by rewrite lookup_app_l. Qed.

Lemma argv_at_app_r (argv rest : list string) (k : nat) :
  argv_at (argv ++ rest) (length argv + k) = argv_at rest k.
Proof.
  unfold argv_at. by rewrite lookup_app_r, Nat.add_comm, Nat.add_sub by lia.
Qed.

(** A round that leaves no input file does the same when arguments
    follow the command line. *)
Lemma loop_body_app (argv rest : list string) (i i' : nat) (st st' : cli) :
  (0 < i < length argv)%nat →
  loop_body blocked strtol argv i st = Ok (i', st') →
  filename st' = None →
  loop_body blocked strtol (argv ++ rest) i st = Ok (i', st').
Proof.
  intros Hi Hbody Hnone. revert Hbody.
  unfold loop_body. cbv zeta. rewrite length_app.
  rewrite !(argv_at_app argv rest i), !(argv_at_app argv rest 0) by lia.
  destruct (decide (i + 1 < length argv)%nat) as [Hlt|Hge].
  - rewrite !(argv_at_app argv rest (i + 1)) by lia.
    rewrite !(proj2 (Nat.ltb_lt (i + 1) (length argv + length rest)))
      by lia.
    rewrite !(proj2 (Nat.ltb_lt (i + 1) (length argv))) by lia.
    rewrite !(proj2 (Nat.eqb_neq i (length argv + length rest - 1))) by lia.
    rewrite !(proj2 (Nat.eqb_neq i (length argv - 1))) by lia.
    rewrite !(proj2 (Nat.ltb_lt 1 (length argv + length rest - i))) by lia.
    rewrite !(proj2 (Nat.ltb_lt 1 (length argv - i))) by lia.
    done.
  - rewrite !(proj2 (Nat.ltb_ge (i + 1) (length argv))) by lia.
    rewrite !(proj2 (Nat.eqb_eq i (length argv - 1))) by lia.
    rewrite !(proj2 (Nat.ltb_ge 1 (length argv - i))) by lia.
    cbn [negb].
    repeat match goal with
    | |- context [String.eqb (argv_at argv i) ?b] =>
        destruct (String.eqb (argv_at argv i) b)
    end; try done.
    destruct (starts_with_dash _); [done|].
    intros [= <- <-]. discriminate Hnone.
Qed.

(** A command line that is accepted and names no input file is read
    the same way when arguments follow it: the loop comes to examine the
    first of them with the variables that the command line left. *)
Lemma loop_app (argv rest : list string) (fuel i : nat) (st st' : cli) :
  (0 < i)%nat → (length argv ≤ fuel + i)%nat →
  loop blocked strtol fuel argv i st = Ok st' →
  filename st' = None → (i ≤ length argv)%nat →
  loop blocked strtol (fuel + length rest) (argv ++ rest) i st
  = loop blocked strtol (length rest) (argv ++ rest) (length argv) st'.
Proof.
  revert i st.
  induction fuel as [|fuel IH]; intros i st Hi Hfuel Hloop Hnone Hle.
  - rewrite loop_done in Hloop by lia. injection Hloop as <-.
    replace i with (length argv) by lia. reflexivity.
  - destruct (decide (i < length argv)%nat) as [Hlt|Hge].
    + rewrite loop_round in Hloop by done.
      apply bind_Ok_inv in Hloop as ([i1 st1] & Hb & Hloop).
      pose proof Hb as (Hi1 & _)%loop_body_spec.
      pose proof (loop_body_index argv i i1 st st1 Hlt Hb) as [Hi1' _].
      assert (filename st1 = None) as Hn1.
      { destruct (filename st1) as [f|] eqn:Hf; [|done]. exfalso.
        apply (loop_invariant blocked strtol
                 (λ st, is_Some (filename st))) in Hloop.
        - rewrite Hnone in Hloop. by destruct Hloop.
        - intros j s j' s' Hs Hbody.
          destruct (decide (j < length argv)%nat) as [Hj|Hj].
          + by apply (loop_body_index argv j j' s s' Hj Hbody).
          + revert Hbody. unfold loop_body, argv_at.
            rewrite lookup_ge_None_2 by lia. simpl.
            destruct (1 <? length argv - j)%nat; [discriminate|].
            intros [= <- <-]. simpl. eauto.
        - rewrite Hf. eauto. }
      change (S fuel + length rest)%nat with (S (fuel + length rest)).
      rewrite loop_round by (rewrite length_app; lia).
      rewrite (loop_body_app argv rest i i1 st st1) by done.
      rewrite bind_Ok. apply IH; [lia | lia | done | done | lia].
    + rewrite loop_done in Hloop by lia. injection Hloop as <-.
      replace i with (length argv) by lia.
      apply loop_fuel; rewrite length_app; lia.
Qed.
End command_line_outcomes.

(** An argument that does not begin with a dash is none of the
    options. *)
Lemma no_dash_no_option (f opt : string) :
  Ppmtrans.starts_with_dash f = false →
  Ppmtrans.starts_with_dash opt = true →
  String.eqb f opt = false.
Proof.
  intros Hf Hopt. apply String.eqb_neq. intros ->. congruence.
Qed.

(** Evaluate the comparisons of literal strings. *)
Ltac eval_eqb :=
  repeat match goal with
  | |- context [String.eqb ?a ?b] =>
      let r := eval vm_compute in (String.eqb a b) in
      match r with
      | true => change (String.eqb a b) with true
      | false => change (String.eqb a b) with false
      end
  end;
  cbv iota.

Section command_line_extras.
Import Ppmtrans.

(** X16.  How the argument loop of [main] ends, for every command
    line, every [strtol] and every blocked suite: it accepts the command
    line; or it exits with status 1 after printing one of the
    diagnostics (nothing, one of three fixed lines, or the line naming
    an unknown option that is an argument) and the usage line; or, and
    only when [-block-major] is an argument, it fails the assertion of
    [SET_METHODS] on a NULL blocked suite or exits with status 1 and the
    diagnostic of [SET_METHODS] on a blocked suite without a block-major
    traversal. *)
Theorem X16_how_a_command_line_is_rejected (blocked : option A2Methods_T)
    (strtol : string → Z * string) (argv : list string) (st0 : cli) :
  let outcome := parse_args blocked strtol argv st0 in
  (∃ st, outcome = Ok st) ∨
  (∃ printed, printed ∈ diagnostics argv ∧
              outcome = usage printed (argv_at argv 0)) ∨
  ("-block-major" ∈ argv ∧
   ((blocked = None ∧ outcome = Err Assert_Failed) ∨
    (∃ b, blocked = Some b ∧ A2Methods.map_block_major b = None ∧
          outcome = Err (Exit 1 (no_block_major (argv_at argv 0)))))).
Proof.
  intros outcome. subst outcome. unfold parse_args.
  destruct (loop blocked strtol (length argv) argv 1 st0) as [st|e] eqn:Hloop;
    [left; eauto | right].
  apply loop_error in Hloop as (j & st' & Hj & Hbody); [|lia].
  apply (loop_body_error blocked strtol argv j st' e Hj) in Hbody
    as [(printed & Hin & Hexit)|[Harg Hsuite]].
  - left. exists printed. split; [done|]. by rewrite Hexit.
  - right. split.
    { apply list_elem_of_lookup. exists j. by apply argv_at_elem_of. }
    destruct Hsuite as [[-> ->]|(b & -> & Hmap & ->)]; [by left|].
    right. eauto.
Qed.

(** X17.  Where the file names of an accepted command line come from:
    the input file, when the loop of [main] leaves one, is the last
    argument (not the program name), and does not begin with a dash;
    the timing file, when it leaves one, is the argument that follows an
    argument [-time]. *)
Theorem X17_where_the_file_names_come_from (blocked : option A2Methods_T)
    (strtol : string → Z * string) (argv : list string) (st0 st : cli) :
  main_init = Ok st0 →
  parse_args blocked strtol argv st0 = Ok st →
  (∀ f, filename st = Some f →
     last argv = Some f ∧ starts_with_dash f = false ∧
     (1 < length argv)%nat) ∧
  (∀ t, time_file_name st = Some t →
     ∃ k, (0 < k)%nat ∧ argv !! k = Some "-time" ∧
          argv !! (k + 1)%nat = Some t).
Proof.
  intros Hinit Hparse. unfold parse_args in Hparse.
  apply (loop_indexed_invariant blocked strtol
           (λ i st, (0 < i)%nat ∧ names_from argv i st)) in Hparse
    as (j & Hj & _ & Hfile & Htime).
  - split; [|exact Htime]. intros f Hf.
    destruct Hfile as [Hnone|(_ & Hlen & Hlast & Hdash)]; [congruence|].
    split_and!; [congruence | by apply Hdash | done].
  - intros i s i' s' Hi [Hpos Hnames] Hbody. split; [lia|].
    by apply (loop_body_names_from blocked strtol argv i i' s s').
  - unfold main_init in Hinit. simpl in Hinit. injection Hinit as <-.
    split; [lia|]. split; [by left|]. intros t [=].
Qed.

(** X18.  What [main] does with a command line that its loop accepts.
    When the input file that the command line names cannot be opened,
    [main] exits with [EXIT_FAILURE] after printing the file error, and
    transforms nothing.  When the reader gives an image whose record and
    pixel array agree, over a suite that keeps its contract, the
    variables hold the request of one of the seven operations and
    [transform] gives that image transformed: with the width and the
    height of the operation's destination, the denominator of the image
    read, and every pixel read at the coordinate of the operation's
    table.  Without [-time], [main] writes that image and no timing
    report.  With [-time] and a timing file that cannot be opened for
    writing, [print_time] exits with [EXIT_FAILURE] after printing the
    time file error, and no image is written.  With [-time] and a timing
    file that opens, [main] writes the image, and to the timing file the
    report of the time read and the pixel count of the result. *)
Theorem X18_main_transforms_the_image_it_reads
    (blocked : option A2Methods_T) (strtol : string → Z * string)
    (FILE : Type) (stdin : FILE) (fopen : string → string → option FILE)
    (Pnm_ppmread : FILE → ∀ methods, res (Pnm_ppm methods))
    (float : Type) (CPUTime_Stop : float)
    (timing_report : float → Z → string)
    (argv : list string) (st0 st : cli) :
  main_init = Ok st0 →
  parse_args blocked strtol argv st0 = Ok st →
  let run := main blocked strtol FILE stdin fopen Pnm_ppmread
                  float CPUTime_Stop timing_report argv in
  (∀ f, filename st = Some f → fopen f "r" = None →
     run = Err (Exit EXIT_FAILURE ("File read error." +:+ nl))) ∧
  (∀ valid ppm,
     A2_contract (methods st) valid →
     process_file FILE stdin fopen Pnm_ppmread (filename st) (methods st)
       = Ok ppm →
     Pnm_ppm_wf valid ppm →
     ∃ op ppm',
       requests op (transform_type st) (magnitude_arg st) ∧
       transform ppm (map st) (transform_type st) (magnitude_arg st)
         = Ok ppm' ∧
       (width ppm', height ppm') = dest_dims op (width ppm) (height ppm) ∧
       denominator ppm' = denominator ppm ∧
       (∀ col row, 0 ≤ col < width ppm → 0 ≤ row < height ppm →
          let dc := dest_coord op (width ppm) (height ppm) col row in
          ∃ v, A2_get (methods st) (pixels ppm) col row = Ok v ∧
               A2_get (methods st) (pixels ppm') dc.1 dc.2 = Ok v) ∧
       (time_file_name st = None →
        run = Ok (existT (methods st) ppm', None)) ∧
       (∀ t, time_file_name st = Some t → fopen t "w" = None →
          run = Err (Exit EXIT_FAILURE ("Time file read error" +:+ nl))) ∧
       (∀ t fp, time_file_name st = Some t → fopen t "w" = Some fp →
          run = Ok (existT (methods st) ppm',
                    Some (fp, timing_report CPUTime_Stop
                                (width ppm' * height ppm'))))).
Proof.
  intros Hinit Hparse run. subst run. unfold main.
  rewrite Hinit, bind_Ok, Hparse, bind_Ok. split.
  - intros f Hf Hopen. unfold process_file. rewrite Hf, Hopen. reflexivity.
  - intros valid ppm L Hread Hwf. rewrite Hread, bind_Ok.
    assert (request_ok st ∧ map_offered st) as [Hreq (f & Hmap & Hf)].
    { unfold parse_args in Hparse.
      apply (loop_invariant blocked strtol
               (λ st, request_ok st ∧ map_offered st)) in Hparse; [done| |].
      - intros i s i' s' [Hr Ho] Hbody. split.
        + by apply loop_body_spec in Hbody as (_ & Hr' & _); apply Hr'.
        + by apply (loop_body_map_offered blocked strtol argv i i' s s').
      - unfold main_init in Hinit. simpl in Hinit. injection Hinit as <-.
        split.
        + left. split; [done|]. apply list_elem_of_here.
        + eexists. split; [reflexivity|]. left. reflexivity. }
    destruct (request_ok_requests st Hreq) as (op & Hop).
    rewrite Hmap.
    destruct (transform_spec L op _ _ f ppm Hop Hf Hwf)
      as (ppm' & Ht & _ & Hd & Hden & Hpix).
    exists op, ppm'. erewrite bind_eq_Ok by exact Ht.
    do 5 (split; [done|]). split_and!.
    + intros Hnone. rewrite Hnone. reflexivity.
    + intros t Htime Hopen. rewrite Htime. unfold print_time.
      rewrite Hopen. reflexivity.
    + intros t fp Htime Hopen. rewrite Htime. unfold print_time.
      rewrite Hopen. reflexivity.
Qed.

(** X19.  The options are read from left to right, and a later one
    replaces an earlier one.  When the loop of [main] accepts a command
    line that names no input file, it reads the same command line with
    further arguments by examining those with the variables that the
    command line left.  So a further [-transpose], [-flip] with a
    direction or [-rotate] with an angle replaces the request and keeps
    the rest; [-row-major] and [-col-major] replace the suite and the
    traversal; [-time] with a name sets the timing file; and one further
    argument that does not begin with a dash becomes the input file. *)
Theorem X19_options_are_read_left_to_right (blocked : option A2Methods_T)
    (strtol : string → Z * string) (argv rest : list string) (st0 st : cli) :
  (0 < length argv)%nat →
  parse_args blocked strtol argv st0 = Ok st →
  filename st = None →
  let parse_more rest := parse_args blocked strtol (argv ++ rest) st0 in
  let request type mag :=
    Cli (methods st) (map st) type mag (time_file_name st) (filename st) in
  parse_more rest
  = loop blocked strtol (length rest) (argv ++ rest) (length argv) st ∧
  parse_more ["-transpose"] = Ok (request TRANSPOSE (magnitude_arg st)) ∧
  parse_more ["-flip"; "horizontal"] = Ok (request FLIP HORIZ) ∧
  parse_more ["-flip"; "vertical"] = Ok (request FLIP VERT) ∧
  (∀ s v, strtol s = (v, "") → int_of_long v ∈ [0; 90; 180; 270] →
     parse_more ["-rotate"; s] = Ok (request ROTATE (int_of_long v))) ∧
  parse_more ["-row-major"]
  = Ok (Cli A2Plain.uarray2_methods_plain_struct
            (Some A2Plain.map_row_major) (transform_type st)
            (magnitude_arg st) (time_file_name st) (filename st)) ∧
  parse_more ["-col-major"]
  = Ok (Cli A2Plain.uarray2_methods_plain_struct
            (Some A2Plain.map_col_major) (transform_type st)
            (magnitude_arg st) (time_file_name st) (filename st)) ∧
  (∀ t, parse_more ["-time"; t]
        = Ok (Cli (methods st) (map st) (transform_type st)
                  (magnitude_arg st) (Some t) (filename st))) ∧
  (∀ f, starts_with_dash f = false →
        parse_more [f]
        = Ok (Cli (methods st) (map st) (transform_type st)
                  (magnitude_arg st) (time_file_name st) (Some f))).
Proof.
  intros Hargv Hparse Hnone parse_more request.
  assert (∀ rest, parse_more rest
          = loop blocked strtol (length rest) (argv ++ rest) (length argv) st)
    as Hmore.
  { intros r. unfold parse_more, parse_args. rewrite length_app.
    apply loop_app; [lia | lia | exact Hparse | exact Hnone | lia]. }
  split; [apply Hmore|].
  assert (∀ r, argv_at (argv ++ r) (length argv) = argv_at r 0) as Hat0.
  { intros r. rewrite <- (Nat.add_0_r (length argv)) at 1.
    apply argv_at_app_r. }
  split_and!.
  - rewrite Hmore. cbn [length].
    rewrite loop_round by (rewrite length_app; simpl; lia).
    unfold loop_body. rewrite Hat0. cbn [argv_at lookup list_lookup default].
    eval_eqb. rewrite bind_Ok. apply loop_done. rewrite length_app. simpl. lia.
  - rewrite Hmore. cbn [length].
    rewrite loop_round by (rewrite length_app; simpl; lia).
    unfold loop_body. cbv zeta. rewrite Hat0, argv_at_app_r, length_app.
    cbn [argv_at lookup list_lookup default length].
    eval_eqb.
    rewrite (proj2 (Nat.ltb_lt (length argv + 1) (length argv + 2))) by lia.
    cbn [negb]. rewrite bind_Ok. apply loop_done.
    rewrite length_app. simpl. lia.
  - rewrite Hmore. cbn [length].
    rewrite loop_round by (rewrite length_app; simpl; lia).
    unfold loop_body. cbv zeta. rewrite Hat0, argv_at_app_r, length_app.
    cbn [argv_at lookup list_lookup default length].
    eval_eqb.
    rewrite (proj2 (Nat.ltb_lt (length argv + 1) (length argv + 2))) by lia.
    cbn [negb]. rewrite bind_Ok. apply loop_done.
    rewrite length_app. simpl. lia.
  - intros s v Hs Hv. rewrite Hmore. cbn [length].
    rewrite loop_round by (rewrite length_app; simpl; lia).
    unfold loop_body. cbv zeta. rewrite Hat0, argv_at_app_r, length_app.
    change (argv_at ["-rotate"; s] 0) with "-rotate".
    change (argv_at ["-rotate"; s] 1) with s. cbn [length].
    eval_eqb.
    rewrite (proj2 (Nat.ltb_lt (length argv + 1) (length argv + 2))) by lia.
    cbn [negb]. rewrite Hs. cbv beta iota. rewrite !elem_of_cons in Hv.
    replace ((int_of_long v =? 0) || (int_of_long v =? 90)
             || (int_of_long v =? 180) || (int_of_long v =? 270))
      with true.
    2:{ destruct Hv as [->|[->|[->|[->|Hv]]]]; [done..|inversion Hv]. }
    cbn [negb]. cbv iota. eval_eqb. cbn [negb]. cbv iota.
    rewrite bind_Ok. apply loop_done. rewrite length_app. simpl. lia.
  - rewrite Hmore. cbn [length].
    rewrite loop_round by (rewrite length_app; simpl; lia).
    unfold loop_body. rewrite Hat0. cbn [argv_at lookup list_lookup default].
    eval_eqb.
    match goal with
    | |- context [SET_METHODS ?p ?M ?MAP ?W st] =>
        change (SET_METHODS p M MAP W st)
          with (Ok (Cli A2Plain.uarray2_methods_plain_struct
                        (MAP A2Plain.uarray2_methods_plain_struct)
                        (transform_type st) (magnitude_arg st)
                        (time_file_name st) (filename st)))
    end.
    rewrite !bind_Ok. apply loop_done. rewrite length_app. simpl. lia.
  - rewrite Hmore. cbn [length].
    rewrite loop_round by (rewrite length_app; simpl; lia).
    unfold loop_body. rewrite Hat0. cbn [argv_at lookup list_lookup default].
    eval_eqb.
    match goal with
    | |- context [SET_METHODS ?p ?M ?MAP ?W st] =>
        change (SET_METHODS p M MAP W st)
          with (Ok (Cli A2Plain.uarray2_methods_plain_struct
                        (MAP A2Plain.uarray2_methods_plain_struct)
                        (transform_type st) (magnitude_arg st)
                        (time_file_name st) (filename st)))
    end.
    rewrite !bind_Ok. apply loop_done. rewrite length_app. simpl. lia.
  - intros t. rewrite Hmore. cbn [length].
    rewrite loop_round by (rewrite length_app; simpl; lia).
    unfold loop_body. cbv zeta. rewrite Hat0, argv_at_app_r, length_app.
    change (argv_at ["-time"; t] 0) with "-time".
    change (argv_at ["-time"; t] 1) with t. cbn [length].
    eval_eqb.
    rewrite (proj2 (Nat.eqb_neq (length argv) (length argv + 2 - 1))) by lia.
    rewrite bind_Ok. apply loop_done. rewrite length_app. simpl. lia.
  - intros f Hf. rewrite Hmore. cbn [length].
    rewrite loop_round by (rewrite length_app; simpl; lia).
    unfold loop_body. rewrite Hat0, length_app.
    change (argv_at [f] 0) with f. cbn [length].
    rewrite !(no_dash_no_option f) by (done || reflexivity).
    rewrite Hf.
    rewrite (proj2 (Nat.ltb_ge 1 (length argv + 1 - length argv))) by lia.
    rewrite bind_Ok. apply loop_done. rewrite length_app. simpl. lia.
Qed.
End command_line_extras.

Section command_line_extras_witnesses.
Import Ppmtrans.

Let plain : A2Methods_T := A2Plain.uarray2_methods_plain_struct.
Let st0 : cli := Cli plain (Some A2Plain.map_row_major) ROTATE 0 None None.

(** A reader that gives a blank 2 by 3 image, whatever the file. *)
Let blank_image : unit → ∀ m : A2Methods_T, res (Pnm_ppm m) :=
  λ _ m, a ← A2Methods.new m 2 3 sizeof_Pnm_rgb; Ok (Ppm 2 3 255 a).

(** A file system in which files open for reading and none opens for
    writing. *)
Let read_only : string → string → option unit :=
  λ _ mode, if String.eqb mode "r" then Some tt else None.

Lemma X17_witness :
  last ["ppmtrans"; "-time"; "t.txt"; "in.ppm"] = Some "in.ppm" ∧
  starts_with_dash "in.ppm" = false ∧
  ∃ k, (0 < k)%nat ∧
       ["ppmtrans"; "-time"; "t.txt"; "in.ppm"] !! k = Some "-time" ∧
       ["ppmtrans"; "-time"; "t.txt"; "in.ppm"] !! (k + 1)%nat
       = Some "t.txt".
Proof.
  destruct (X17_where_the_file_names_come_from None strtol_dec
              ["ppmtrans"; "-time"; "t.txt"; "in.ppm"] st0
              (Cli plain (Some A2Plain.map_row_major) ROTATE 0
                   (Some "t.txt") (Some "in.ppm")))
    as [Hfile Htime]; [reflexivity | reflexivity |].
  destruct (Hfile "in.ppm" eq_refl) as (Hlast & Hdash & _).
  split; [exact Hlast|]. split; [exact Hdash|].
  exact (Htime "t.txt" eq_refl).
Defined.

Lemma X18_witness :
  (∃ ppm' : Pnm_ppm plain,
     main None strtol_dec unit tt (λ _ _, Some tt) blank_image
       unit tt (λ _ _, "TIMING")
       ["ppmtrans"; "-col-major"; "-rotate"; "90"; "in.ppm"]
     = Ok (existT plain ppm', None) ∧
     denominator ppm' = 255) ∧
  main None strtol_dec unit tt read_only blank_image
    unit tt (λ _ _, "TIMING")
    ["ppmtrans"; "-time"; "t.txt"; "-rotate"; "90"; "in.ppm"]
  = Err (Exit EXIT_FAILURE ("Time file read error" +:+ nl)).
Proof.
  destruct (UArray2_new_ok (E:=Pnm_rgb) 2 3 12)
    as (src & Hs & Hvs & Hsw & Hsh & _); [lia..|].
  assert (blank_image tt plain = Ok (Ppm (methods:=plain) 2 3 255 src))
    as Hread.
  { unfold blank_image.
    change (A2Methods.new plain 2 3 sizeof_Pnm_rgb) with
      (UArray2_new (E:=Pnm_rgb) 2 3 12).
    rewrite Hs. reflexivity. }
  split.
  - destruct (X18_main_transforms_the_image_it_reads None strtol_dec
                unit tt (λ _ _, Some tt) blank_image
                unit tt (λ _ _, "TIMING")
                ["ppmtrans"; "-col-major"; "-rotate"; "90"; "in.ppm"] st0
                (Cli plain (Some A2Plain.map_col_major) ROTATE 90 None
                     (Some "in.ppm")))
      as [_ Hrun]; [reflexivity | reflexivity |].
    destruct (Hrun UArray2_wf (Ppm (methods:=plain) 2 3 255 src))
      as (op & ppm' & _ & _ & _ & Hden & _ & Hmain & _).
    + exact plain_contract.
    + exact Hread.
    + by apply plain_image_wf.
    + exists ppm'. split; [exact (Hmain eq_refl) | exact Hden].
  - destruct (X18_main_transforms_the_image_it_reads None strtol_dec
                unit tt read_only blank_image
                unit tt (λ _ _, "TIMING")
                ["ppmtrans"; "-time"; "t.txt"; "-rotate"; "90"; "in.ppm"]
                st0
                (Cli plain (Some A2Plain.map_row_major) ROTATE 90
                     (Some "t.txt") (Some "in.ppm")))
      as [_ Hrun]; [reflexivity | reflexivity |].
    destruct (Hrun UArray2_wf (Ppm (methods:=plain) 2 3 255 src))
      as (op & ppm' & _ & _ & _ & _ & _ & _ & Hexit & _).
    + exact plain_contract.
    + exact Hread.
    + by apply plain_image_wf.
    + exact (Hexit "t.txt" eq_refl eq_refl).
Defined.

Lemma X19_witness :
  parse_args None strtol_dec
    ["ppmtrans"; "-rotate"; "90"; "-time"; "t.txt"; "-transpose"] st0
  = Ok (Cli plain (Some A2Plain.map_row_major) TRANSPOSE 90
            (Some "t.txt") None).
Proof.
  destruct (X19_options_are_read_left_to_right None strtol_dec
              ["ppmtrans"; "-rotate"; "90"; "-time"; "t.txt"] [] st0
              (Cli plain (Some A2Plain.map_row_major) ROTATE 90
                   (Some "t.txt") None))
    as (_ & Htranspose & _); [simpl; lia | reflexivity | reflexivity |].
  exact Htranspose.
Defined.
End command_line_extras_witnesses.

(** * Worked examples *)

Section examples.
Import Ppmtrans.

Let plain : A2Methods_T := A2Plain.uarray2_methods_plain_struct.

(** The 2 by 3 image labelled 0..5, turned by 90 degrees, is the 3 by 2
    image 4 2 0 / 5 3 1: source (col, row) lands on (3 - row - 1, col). *)
Example rotate_90_of_2_by_3 :
  (ppm ← labelled_image 2 3;
   ppm ← transform ppm (A2Methods.map_default plain) ROTATE 90;
   Ok (width ppm, height ppm, red_samples ppm))
  = Ok (3, 2, [4; 2; 0; 5; 3; 1]).
Proof. vm_compute. reflexivity. Qed.

Example rotate_270_of_2_by_3_by_columns :
  (ppm ← labelled_image 2 3;
   ppm ← transform ppm (A2Methods.map_col_major plain) ROTATE 270;
   Ok (width ppm, height ppm, red_samples ppm))
  = Ok (3, 2, [1; 3; 5; 0; 2; 4]).
Proof. vm_compute. reflexivity. Qed.

Example flip_and_transpose_of_2_by_3 :
  (ppm ← labelled_image 2 3;
   h ← transform ppm (A2Methods.map_default plain) FLIP HORIZ;
   v ← transform ppm (A2Methods.map_default plain) FLIP VERT;
   t ← transform ppm (A2Methods.map_default plain) TRANSPOSE 0;
   Ok (red_samples h, red_samples v, (width t, height t, red_samples t)))
  = Ok ([1; 0; 3; 2; 5; 4], [4; 5; 2; 3; 0; 1],
        (3, 2, [0; 2; 4; 1; 3; 5])).
Proof. vm_compute. reflexivity. Qed.

(** A traversal that the suite lacks is a null function pointer. *)
Example plain_block_major_traversal :
  (ppm ← labelled_image 2 3;
   transform ppm (A2Methods.map_block_major plain) ROTATE 90)
  = Err Null_Deref.
Proof. vm_compute. reflexivity. Qed.

(** A 10 by 10 grid in blocks of 4 has a 3 by 3 block grid of buffers of
    16 elements; its traversal makes 100 calls, the first block first,
    and the blocks of the last column are 2 cells wide. *)
Example edge_blocks_of_10_by_10_by_4 :
  (a ← UArray2b_new (E:=Z) 10 10 1 4;
   '(_, log) ← UArray2b_map a record_visit [];
   Ok (UArray2_width (UArray2b_blocks a), UArray2_height (UArray2b_blocks a),
       fmap (M:=option) UArray_length
         <$> UArray2_deref (UArray2b_blocks a) 8,
       length log, take 5 log.*1, take 3 (drop 32 log.*1)))
  = Ok (3, 3, Ok (Some 16), 100%nat,
        [(0, 0); (1, 0); (2, 0); (3, 0); (0, 1)],
        [(8, 0); (9, 0); (8, 1)]).
Proof. vm_compute. reflexivity. Qed.

(** The block sizes of the 64K-budget constructor for pixels of 12
    bytes: the square root of 5333 cells when the grid is large enough,
    the smaller dimension otherwise. *)
Example blocksize_for_pixels :
  (UArray2b_blocksize <$> UArray2b_new_64K_block (E:=Pnm_rgb) 100 80 12,
   UArray2b_blocksize <$> UArray2b_new_64K_block (E:=Pnm_rgb) 100 7 12,
   UArray2b_blocksize <$> UArray2b_new_64K_block (E:=Pnm_rgb) 3 3 64001,
   UArray2b_blocksize <$> UArray2b_new_64K_block (E:=Pnm_rgb) 3 3 0)
  = (Ok 73, Ok 7, Ok 1, Err Div_By_Zero).
Proof. vm_compute. reflexivity. Qed.

(** [strtol] in base 10: white space and a sign before the digits,
    the rest of the string, no digit, and a number out of the range of
    [long]. *)
Example strtol_in_base_10 :
  strtol_dec " +42abc" = (42, "abc") ∧
  strtol_dec "-270" = (-270, "") ∧
  strtol_dec "- 5" = (0, "- 5") ∧
  strtol_dec "99999999999999999999" = (LONG_MAX, "").
Proof. vm_compute. repeat split. Qed.

(** Command lines. *)
Example command_lines :
  let st0 := Cli plain (Some A2Plain.map_row_major) ROTATE 0 None None in
  let run argv :=
    st ← parse_args None strtol_dec argv st0;
    Ok (transform_type st, magnitude_arg st, time_file_name st,
        filename st) in
  run ["ppmtrans"] = Ok (ROTATE, 0, None, None) ∧
  run ["ppmtrans"; "-rotate"; "180"; "in.ppm"]
    = Ok (ROTATE, 180, None, Some "in.ppm") ∧
  run ["ppmtrans"; "-rotate"; "90"; "-flip"; "vertical"; "-time"; "t"]
    = Ok (FLIP, VERT, Some "t", None) ∧
  run ["ppmtrans"; "-rotate"; "45"]
    = usage ("Rotation must be 0, 90, 180 or 270" +:+ nl) "ppmtrans" ∧
  run ["ppmtrans"; "-rotate"; "90x"] = usage "" "ppmtrans" ∧
  run ["ppmtrans"; "-flip"] = usage "" "ppmtrans" ∧
  run ["ppmtrans"; "a.ppm"; "b.ppm"]
    = usage ("Too many arguments" +:+ nl) "ppmtrans".
Proof. vm_compute. repeat split. Qed.
End examples.
